(** * Audio-Drama-Studio: script line classifier and audio segment assembler

    A shallow embedding of [src/utils/scriptParsing.ts], of the audio
    utilities [resampleBuffer], [concatenateAudioBuffers] and
    [audioBufferToWav], and of [generateDramaAudio] from
    [src/services/geminiService.ts], followed by the properties that the
    specification states about them. *)

From Stdlib Require Import String Ascii List NArith ZArith Bool Lia.
From Stdlib Require Import QArith Qround Lqa Floats.SpecFloat.
Import ListNotations.

Set Implicit Arguments.

(** ** JavaScript strings

    A JavaScript string is a sequence of UTF-16 code units.  Regular
    expressions without the [u] flag, [length], [substring], [startsWith],
    [includes] and [===] all work on code units; regular expressions with the
    [u] flag read code points (a surrogate pair is one character). *)

Module Js.

Local Open Scope N_scope.

Definition char := N.
Definition jsstring := list char.

(** String literals of the source whose characters are all in Basic Latin. *)
Definition lit (s : string) : jsstring :=
  map N_of_ascii (list_ascii_of_string s).

Fixpoint str_eqb (a b : jsstring) : bool :=
  match a, b with
  | [], [] => true
  | x :: a', y :: b' => (x =? y) && str_eqb a' b'
  | _, _ => false
  end.

(** ECMAScript [WhiteSpace] and [LineTerminator]: what [\s] matches and what
    [trim] removes. *)
Definition is_line_terminator (c : char) : bool :=
  (c =? 0x0A) || (c =? 0x0D) || (c =? 0x2028) || (c =? 0x2029).

Definition is_ws (c : char) : bool :=
  (c =? 0x09) || (c =? 0x0B) || (c =? 0x0C) || (c =? 0x20) || (c =? 0xA0)
  || (c =? 0x1680) || ((0x2000 <=? c) && (c <=? 0x200A))
  || (c =? 0x202F) || (c =? 0x205F) || (c =? 0x3000) || (c =? 0xFEFF)
  || is_line_terminator c.

Definition is_digit (c : char) : bool := (0x30 <=? c) && (c <=? 0x39).
Definition is_lower_az (c : char) : bool := (0x61 <=? c) && (c <=? 0x7A).
Definition is_upper_AZ (c : char) : bool := (0x41 <=? c) && (c <=? 0x5A).

Fixpoint drop_ws (s : jsstring) : jsstring :=
  match s with
  | c :: r => if is_ws c then drop_ws r else s
  | [] => []
  end.

(** [String.prototype.trim]. *)
Definition trim (s : jsstring) : jsstring :=
  rev (drop_ws (rev (drop_ws s))).

(** [String.prototype.startsWith], [endsWith], [includes]. *)
Fixpoint startsWith (s p : jsstring) : bool :=
  match p, s with
  | [], _ => true
  | x :: p', y :: s' => (x =? y) && startsWith s' p'
  | _ :: _, [] => false
  end.

Definition endsWith (s p : jsstring) : bool := startsWith (rev s) (rev p).

Fixpoint includes (s p : jsstring) : bool :=
  startsWith s p ||
  match s with
  | [] => false
  | _ :: r => includes r p
  end.

(** Index of the leftmost suffix on which [here] holds: where an unanchored
    regular expression without look-behind first matches. *)
Fixpoint search_from (here : jsstring -> bool) (i : nat) (s : jsstring)
  : option nat :=
  if here s then Some i
  else match s with
       | [] => None
       | _ :: r => search_from here (S i) r
       end.

Definition search (here : jsstring -> bool) (s : jsstring) : option nat :=
  search_from here 0 s.

(** [s.split(/[class]+/)] for a character class read on code units: the
    pieces between maximal runs of separator characters.  A separator run at
    the start or at the end leaves an empty first or last piece, and the
    empty string splits into one empty piece. *)
Fixpoint split_runs_aux (sep : char -> bool) (cur : jsstring) (in_run : bool)
  (s : jsstring) : list jsstring :=
  match s with
  | [] => [rev cur]
  | c :: r =>
      if sep c then
        if in_run then split_runs_aux sep [] true r
        else rev cur :: split_runs_aux sep [] true r
      else split_runs_aux sep (c :: cur) false r
  end.

Definition split_runs (sep : char -> bool) (s : jsstring) : list jsstring :=
  split_runs_aux sep [] false s.

(** [s.split(c)] for a separator of one code unit. *)
Fixpoint split_char_aux (sep : char) (cur : jsstring) (s : jsstring)
  : list jsstring :=
  match s with
  | [] => [rev cur]
  | c :: r =>
      if c =? sep then rev cur :: split_char_aux sep [] r
      else split_char_aux sep (c :: cur) r
  end.

Definition split_char (sep : char) (s : jsstring) : list jsstring :=
  split_char_aux sep [] s.

(** [parts.join(' ')]. *)
Fixpoint join_space (parts : list jsstring) : jsstring :=
  match parts with
  | [] => []
  | [p] => p
  | p :: rest => p ++ 0x20 :: join_space rest
  end.

(** Surrogate pairs, for the regular expressions with the [u] flag. *)
Definition is_high_surrogate (c : char) : bool :=
  (0xD800 <=? c) && (c <=? 0xDBFF).
Definition is_low_surrogate (c : char) : bool :=
  (0xDC00 <=? c) && (c <=? 0xDFFF).
Definition code_point (hi lo : char) : N :=
  0x10000 + (hi - 0xD800) * 0x400 + (lo - 0xDC00).

(** [s.replace(/[^class]/gu, '')]: keeps the code points of the class. *)
Fixpoint keep_code_points (keep : N -> bool) (s : jsstring) : jsstring :=
  match s with
  | [] => []
  | c :: r =>
      match r with
      | d :: r' =>
          if is_high_surrogate c && is_low_surrogate d then
            if keep (code_point c d) then c :: d :: keep_code_points keep r'
            else keep_code_points keep r'
          else if keep c then c :: keep_code_points keep r
          else keep_code_points keep r
      | [] => if keep c then [c] else []
      end
  end.

(** [s.split(/[class]+/u)[0]]: the text before the first code point of the
    class (the whole string when there is none). *)
Fixpoint first_piece_u (sep : N -> bool) (s : jsstring) : jsstring :=
  match s with
  | [] => []
  | c :: r =>
      match r with
      | d :: r' =>
          if is_high_surrogate c && is_low_surrogate d then
            if sep (code_point c d) then [] else c :: d :: first_piece_u sep r'
          else if sep c then [] else c :: first_piece_u sep r
      | [] => if sep c then [] else [c]
      end
  end.

(** The Unicode data of the JavaScript runtime that the parser consults: the
    general categories behind [\p{L}], [\p{N}] and [\p{P}] (on code points)
    and the case mappings of [toLowerCase] and [toUpperCase]. *)
Record Unicode : Type := {
  uni_L : N -> bool;
  uni_N : N -> bool;
  uni_P : N -> bool;
  toLowerCase : jsstring -> jsstring;
  toUpperCase : jsstring -> jsstring
}.

(** The restriction of the Unicode data to Basic Latin (U+0000..U+007F):
    letters A-Z a-z, digits 0-9, the punctuation of categories Pc, Pd, Ps,
    Pe, Po, and the ASCII case mappings.  On text made of Basic Latin
    characters it agrees with the full tables. *)
Definition latin_punct : list N :=
  [0x21; 0x22; 0x23; 0x25; 0x26; 0x27; 0x28; 0x29; 0x2A; 0x2C; 0x2D; 0x2E;
   0x2F; 0x3A; 0x3B; 0x3F; 0x40; 0x5B; 0x5C; 0x5D; 0x5F; 0x7B; 0x7D].

Definition basic_latin : Unicode := {|
  uni_L := fun c => is_upper_AZ c || is_lower_az c;
  uni_N := is_digit;
  uni_P := fun c => existsb (N.eqb c) latin_punct;
  toLowerCase := map (fun c => if is_upper_AZ c then c + 0x20 else c);
  toUpperCase := map (fun c => if is_lower_az c then c - 0x20 else c)
|}.

End Js.

(** ** The script parser ([src/utils/scriptParsing.ts]) *)

Module ScriptParsing.

Import Js.
Local Open Scope N_scope.

Record ParsedLine : Type := {
  original : jsstring;
  speakerRaw : jsstring;
  speakerClean : jsstring;
  metadata : jsstring;
  dialogue : jsstring
}.

Definition nonempty (s : jsstring) : bool :=
  match s with [] => false | _ :: _ => true end.

(** *** Regular expressions of the source, one function each *)

(** [/\(.*?\)/]: after an opening parenthesis the lazy [.*?] stops at the
    first closing parenthesis and fails on a line terminator, which [.] does
    not match. *)
Fixpoint closes (s : jsstring) : bool :=
  match s with
  | [] => false
  | c :: r =>
      if c =? 0x29 then true
      else if is_line_terminator c then false
      else closes r
  end.

(** [raw.replace(/\(.*?\)/g, '')]. *)
Fixpoint strip_parens (inside : bool) (s : jsstring) : jsstring :=
  match s with
  | [] => []
  | c :: r =>
      if inside then strip_parens (negb (c =? 0x29)) r
      else if (c =? 0x28) && closes r then strip_parens true r
      else c :: strip_parens false r
  end.

(** [speakerRaw.match(/\((.*?)\)/g)]: the matched substrings, parentheses
    included; the empty list stands for [null]. *)
Fixpoint paren_matches (cur : option jsstring) (s : jsstring)
  : list jsstring :=
  match s with
  | [] => []
  | c :: r =>
      match cur with
      | Some acc =>
          if c =? 0x29 then rev (c :: acc) :: paren_matches None r
          else paren_matches (Some (c :: acc)) r
      | None =>
          if (c =? 0x28) && closes r then paren_matches (Some [c]) r
          else paren_matches None r
      end
  end.

(** The character class written between the brackets of the two dash
    patterns, as the code points of the source file: the hyphen-minus and
    U+00E2, U+20AC, U+201D, U+201C. *)
Definition dash_chars : list char := [0x2D; 0xE2; 0x20AC; 0x201D; 0x201C].

Definition is_dash (c : char) : bool := existsb (N.eqb c) dash_chars.

(** [/\s+[-...]\s+/] matched at the head of [s]: a run of white space, one
    character of the class, and white space again. *)
Definition separator_here (s : jsstring) : bool :=
  match s with
  | c :: r =>
      is_ws c &&
      match drop_ws r with
      | d :: w :: _ => is_dash d && is_ws w
      | _ => false
      end
  | [] => false
  end.

(** [name.match(/\s+[-...]\s+/)]: [Some index] of the first match. *)
Definition separatorMatch (name : jsstring) : option nat :=
  search separator_here name.

(** A case-insensitive literal of ASCII lower-case letters under the [i] flag
    without [u]: only the two ASCII cases of each letter match. *)
Fixpoint match_ci (pat s : jsstring) : option jsstring :=
  match pat with
  | [] => Some s
  | p :: pat' =>
      match s with
      | c :: s' =>
          if (c =? p) || (c + 0x20 =? p) then match_ci pat' s' else None
      | [] => None
      end
  end.

Definition starts_digit (s : jsstring) : bool :=
  match s with c :: _ => is_digit c | [] => false end.

(** [/^act\s*\d+/i], [/^scene\s*\d+/i], [/^order\s*#?\d+/i]. *)
Definition re_act (s : jsstring) : bool :=
  match match_ci (lit "act") s with
  | Some r => starts_digit (drop_ws r)
  | None => false
  end.

Definition re_scene (s : jsstring) : bool :=
  match match_ci (lit "scene") s with
  | Some r => starts_digit (drop_ws r)
  | None => false
  end.

Definition re_order (s : jsstring) : bool :=
  match match_ci (lit "order") s with
  | Some r =>
      match drop_ws r with
      | c :: t => if c =? 0x23 then starts_digit t else is_digit c
      | [] => false
      end
  | None => false
  end.

(** [/^[a-z]/], [/[0-9#]/], [/[A-Z]/], [/^\s/]. *)
Definition starts_lower (s : jsstring) : bool :=
  match s with c :: _ => is_lower_az c | [] => false end.

Definition has_digit_or_hash (s : jsstring) : bool :=
  existsb (fun c => is_digit c || (c =? 0x23)) s.

Definition has_upper (s : jsstring) : bool := existsb is_upper_AZ s.

Definition starts_ws (s : jsstring) : bool :=
  match s with c :: _ => is_ws c | [] => false end.

(** The text before the first character satisfying [stop], and the rest. *)
Fixpoint span_until (stop : char -> bool) (s : jsstring)
  : jsstring * jsstring :=
  match s with
  | [] => ([], [])
  | c :: r =>
      if stop c then ([], s)
      else let (a, b) := span_until stop r in (c :: a, b)
  end.

Definition no_line_terminator (s : jsstring) : bool :=
  forallb (fun c => negb (is_line_terminator c)) s.

(** The colon pattern of [parseScriptContent] (a label of 1 to 60 characters
    other than a colon, a colon, then any characters up to the end of the
    line): the label is everything before the first colon, 1 to 60 code
    units long; the second group has to reach the end of the line, so the
    rest may hold no line terminator. *)
Definition colon_match (s : jsstring) : option (jsstring * jsstring) :=
  let (pre, rest) := span_until (fun c => c =? 0x3A) s in
  match rest with
  | _ :: post =>
      if (1 <=? length pre)%nat && (length pre <=? 60)%nat
         && no_line_terminator post
      then Some (pre, post) else None
  | [] => None
  end.

(** The dash pattern of [parseScriptContent] (a label of 1 to 50 characters
    other than a dash, optional white space, a dash character, optional
    white space, then any characters up to the end of the line): the first
    group is greedy and holds no dash character, so the dash that matches is
    the first one of the line; when it lies beyond position 50 the group
    takes 50 code units and the white space has to cover the rest up to the
    dash.  The white space after the dash is not part of the second group. *)
Definition dash_match (s : jsstring) : option (jsstring * jsstring) :=
  let (pre, rest) := span_until is_dash s in
  match rest with
  | _ :: post =>
      let g := Nat.min (length pre) 50 in
      if (1 <=? length pre)%nat && forallb is_ws (skipn g pre)
         && no_line_terminator (drop_ws post)
      then Some (firstn g pre, drop_ws post) else None
  | [] => None
  end.

(** [/^[-*_]{3,}$/]. *)
Definition separator_line (s : jsstring) : bool :=
  (3 <=? length s)%nat
  && forallb (fun c => (c =? 0x2D) || (c =? 0x2A) || (c =? 0x5F)) s.

Section WithUnicode.

Variable U : Unicode.

(** *** [cleanSpeakerName] (lines 10 to 25) *)

Definition name_char (cp : N) : bool :=
  uni_L U cp || uni_N U cp || is_ws cp || (cp =? 0x27) || (cp =? 0x2D).

Definition cleanSpeakerName (raw : jsstring) : jsstring :=
  let name := strip_parens false raw in
  let name :=
    match separatorMatch name with
    | Some index =>
        (* [separatorMatch && separatorMatch.index]: index 0 is falsy *)
        if (index =? 0)%nat then name else firstn index name
    | None => name
    end in
  let name := keep_code_points name_char name in
  trim name.

(** *** [isMetadataLine] (lines 27 to 75) *)

Definition startsWithBanned : list jsstring :=
  map lit
    ["scene"; "act"; "act:";
     "cue"; "sound"; "fx"; "lighting";
     "camera"; "cut to"; "fade";
     "narrator opening"; "closing"; "entry"; "exit";
     "int."; "ext."; "est.";
     "total";
     "time"; "date"; "setting"; "location"; "place";
     "drama"; "dance"; "duration";
     "order"; "gen"; "gen-z";
     "here's"; "here is"; "sure"; "okay"; "certainly";
     "revised"; "humanized"; "generated"; "script"; "title"; "synopsis";
     "summary"; "cast"; "characters";
     "note"; "disclaimer"]%string.

Definition containsBanned : list jsstring :=
  map lit
    ["transition"; "background"; "theme"; "fade out"; "fade in";
     "music"; "song"; "beat"; "flute"; "track";
     "entry"; "enters"; "descends"; "appear";
     "bow"; "applause"; "laugh"; "cheer"; "crowd";
     "end"; "begin"; "start"; "finish"]%string.

Definition lowered (speakerClean : jsstring) : jsstring :=
  trim (toLowerCase U speakerClean).

(** Rule 1: [startsWithBanned.some(...)]. *)
Definition rule_prefix (lower : jsstring) : bool :=
  existsb (fun prefix =>
             str_eqb lower prefix || startsWith lower (prefix ++ lit " "))
          startsWithBanned.

(** Rule 2: [containsBanned.some(...)]. *)
Definition rule_contains (lower : jsstring) : bool :=
  existsb (fun word => includes lower word) containsBanned.

(** Rule 3: the three regular expressions. *)
Definition rule_regex (lower : jsstring) : bool :=
  re_act lower || re_scene lower || re_order lower.

(** [lower.split(/[\s-]+/)]. *)
Definition name_words (lower : jsstring) : list jsstring :=
  split_runs (fun c => is_ws c || (c =? 0x2D)) lower.

(** Rule 4: [words.includes('cue')]. *)
Definition rule_cue (lower : jsstring) : bool :=
  existsb (str_eqb (lit "cue")) (name_words lower).

(** Rule 5: [words.length > 4]. *)
Definition rule_length (lower : jsstring) : bool :=
  (4 <? length (name_words lower))%nat.

(** Rule 6: [lower.replace(/[^a-z]/g, '').length === 0]. *)
Definition rule_no_alpha (lower : jsstring) : bool :=
  (length (filter is_lower_az lower) =? 0)%nat.

Definition isMetadataLine (speakerClean : jsstring) : bool :=
  let lower := lowered speakerClean in
  if rule_prefix lower then true
  else if rule_contains lower then true
  else if re_act lower then true
  else if re_scene lower then true
  else if re_order lower then true
  else if rule_cue lower then true
  else if rule_length lower then true
  else if rule_no_alpha lower then true
  else false.

(** *** [parseScriptContent] (lines 77 to 220) *)

(** The two matches of a line: [(match, isDashMatch)]. *)
Definition line_match (trimmedLine : jsstring)
  : option (jsstring * jsstring) * bool :=
  match colon_match trimmedLine with
  | Some m => (Some m, false)
  | None => (dash_match trimmedLine, true)
  end.

Definition is_word_sep (cp : N) : bool := is_ws cp || uni_P U cp.

(** [s.split(/[\s\p{P}]+/u)[0].toLowerCase()]. *)
Definition first_word (s : jsstring) : jsstring :=
  toLowerCase U (first_piece_u is_word_sep s).

Definition commonStarters : list jsstring :=
  map lit
    ["i"; "we"; "you"; "he"; "she"; "it"; "they";
     "the"; "a"; "an"; "this"; "that"; "these"; "those";
     "but"; "and"; "so"; "or"; "because"; "when"; "if"; "then"; "while";
     "what"; "why"; "where"; "who"; "how";
     "wait"; "look"; "stop"; "go"; "come"; "listen"; "no"; "yes"; "well";
     "total"; "act"; "scene"; "order"]%string.

Definition bioStarters : list jsstring :=
  map lit
    ["male"; "female"; "boy"; "girl"; "man"; "woman"; "kid"; "adult";
     "voice"; "character"; "role"; "age"; "narrator"; "speaker"]%string.

Definition member (w : jsstring) (l : list jsstring) : bool :=
  existsb (str_eqb w) l.

(** [s === s.toUpperCase() && /[A-Z]/.test(s)]. *)
Definition all_caps (s : jsstring) : bool :=
  str_eqb s (toUpperCase U s) && has_upper s.

(** [s.split(/\s+/).length]. *)
Definition word_count (s : jsstring) : nat := length (split_runs is_ws s).

(** The nine rejections of a dash match, in the order of the source. *)
Definition gate_indent (line : jsstring) : bool := starts_ws line.
Definition gate_lowercase (speakerRaw : jsstring) : bool :=
  starts_lower speakerRaw.
Definition gate_digit (speakerRaw : jsstring) : bool :=
  has_digit_or_hash speakerRaw.
Definition gate_starter (speakerRaw : jsstring) : bool :=
  member (first_word speakerRaw) commonStarters.
Definition gate_words (speakerClean : jsstring) : bool :=
  (3 <? word_count speakerClean)%nat.
Definition gate_dialogue_lower (potentialDialogue : jsstring) : bool :=
  (0 <? length potentialDialogue)%nat && starts_lower potentialDialogue.
Definition gate_bio (potentialDialogue : jsstring) : bool :=
  member (first_word (trim potentialDialogue)) bioStarters.
Definition gate_act (speakerRaw : jsstring) : bool := re_act speakerRaw.
Definition gate_caps (speakerClean potentialDialogue : jsstring) : bool :=
  all_caps speakerClean
  && (all_caps potentialDialogue || (word_count potentialDialogue <? 4)%nat).

Definition dash_rejects
  (line speakerRaw speakerClean potentialDialogue : jsstring) : bool :=
  gate_indent line
  || gate_lowercase speakerRaw
  || gate_digit speakerRaw
  || gate_starter speakerRaw
  || gate_words speakerClean
  || gate_dialogue_lower potentialDialogue
  || gate_bio potentialDialogue
  || gate_act speakerRaw
  || gate_caps speakerClean potentialDialogue.

(** The rejection of a colon match. *)
Definition colon_rejects (speakerRaw : jsstring) : bool :=
  has_digit_or_hash speakerRaw.

(** [speakerRaw.startsWith('*') || speakerRaw.startsWith('#')]. *)
Definition markdown_label (speakerRaw : jsstring) : bool :=
  startsWith speakerRaw (lit "*") || startsWith speakerRaw (lit "#").

(** What the [if (match) { ... }] block does with a non-blank line:
    [Rejected] is one of its [continue] statements before the final test,
    [Accepted] is the creation of a new [currentSpeaker], and [NoCue] is
    leaving the block towards the continuation logic. *)
Inductive verdict : Type :=
| Rejected
| Accepted (p : ParsedLine)
| NoCue.

Definition cue_verdict (line trimmedLine : jsstring) : verdict :=
  match line_match trimmedLine with
  | (None, _) => NoCue
  | (Some (g1, g2), isDashMatch) =>
      let speakerRaw := trim g1 in
      let potentialDialogue := trim g2 in
      if markdown_label speakerRaw then Rejected
      else
        let speakerClean := cleanSpeakerName speakerRaw in
        if (if isDashMatch
            then dash_rejects line speakerRaw speakerClean potentialDialogue
            else colon_rejects speakerRaw)
        then Rejected
        else if nonempty speakerClean && negb (isMetadataLine speakerClean)
        then Accepted {| original := line;
                         speakerRaw := speakerRaw;
                         speakerClean := speakerClean;
                         metadata := join_space (paren_matches None speakerRaw);
                         dialogue := potentialDialogue |}
        else NoCue
  end.

(** The string literals of the symbol checks, as the code points of the
    source file. *)
Definition symbol_glyphs : list jsstring :=
  [[0xF0; 0x178; 0x17D; 0xB5];
   [0xF0; 0x178; 0x152; 0x178];
   [0xE2; 0xB3];
   [0xF0; 0x178; 0x201D; 0xA5];
   [0xF0; 0x178; 0x2018; 0x2030]].

Definition bullet_glyph : jsstring := [0xC2; 0xB7].

(** The lines that the continuation logic skips. *)
Definition continuation_skips (trimmedLine : jsstring) : bool :=
  (startsWith trimmedLine (lit "(") && endsWith trimmedLine (lit ")"))
  || existsb (startsWith trimmedLine) symbol_glyphs
  || separator_line trimmedLine
  || startsWith trimmedLine bullet_glyph.

Definition append_dialogue (cur : ParsedLine) (trimmedLine : jsstring)
  : ParsedLine :=
  {| original := original cur;
     speakerRaw := speakerRaw cur;
     speakerClean := speakerClean cur;
     metadata := metadata cur;
     dialogue := if nonempty (dialogue cur)
                 then dialogue cur ++ lit " " ++ trimmedLine
                 else trimmedLine |}.

(** The loop state: the array [parsedLines] and [currentSpeaker]. *)
Record state : Type := {
  parsedLines : list ParsedLine;
  currentSpeaker : option ParsedLine
}.

Definition initial : state :=
  {| parsedLines := []; currentSpeaker := None |}.

Definition push_current (st : state) : list ParsedLine :=
  match currentSpeaker st with
  | Some cur => parsedLines st ++ [cur]
  | None => parsedLines st
  end.

Definition continuation (st : state) (trimmedLine : jsstring) : state :=
  match currentSpeaker st with
  | Some cur =>
      if continuation_skips trimmedLine then st
      else {| parsedLines := parsedLines st;
              currentSpeaker := Some (append_dialogue cur trimmedLine) |}
  | None => st
  end.

(** One iteration of [for (const line of lines)]. *)
Definition step (st : state) (line : jsstring) : state :=
  let trimmedLine := trim line in
  if negb (nonempty trimmedLine) then st
  else
    match cue_verdict line trimmedLine with
    | Rejected => st
    | Accepted p =>
        {| parsedLines := push_current st; currentSpeaker := Some p |}
    | NoCue => continuation st trimmedLine
    end.

Definition run (lines : list jsstring) : state := fold_left step lines initial.

Definition parseScriptContent (scriptText : jsstring) : list ParsedLine :=
  push_current (run (split_char 0x0A scriptText)).

(** *** Notions that the properties of the parser are stated with *)

(** The speaker cue that a line is accepted as, if it is one: the line is
    not blank and the [if (match)] block creates a new [currentSpeaker]. *)
Definition accepted_cue (line : jsstring) : option ParsedLine :=
  if nonempty (trim line) then
    match cue_verdict line (trim line) with
    | Accepted p => Some p
    | _ => None
    end
  else None.

Definition is_accepted_cue (line : jsstring) : bool :=
  match accepted_cue line with Some _ => true | None => false end.

(** The sanitized names of the accepted cues of a list of lines, in order. *)
Definition cue_names (lines : list jsstring) : list jsstring :=
  flat_map (fun line => match accepted_cue line with
                        | Some p => [speakerClean p]
                        | None => []
                        end) lines.

(** A split line whose candidate is turned down as a header or as metadata:
    by the markdown label check, by the digit or [#] rejection of a colon
    match, or by one of the dash rejections for a digit or [#] in the label,
    a biographical descriptor, an [act N] label or an all-capitals header
    (rejections 3, 7, 8 and 9). *)
Definition header_rejection (line : jsstring) : bool :=
  match line_match (trim line) with
  | (Some (g1, g2), isDashMatch) =>
      let speakerRaw := trim g1 in
      let potentialDialogue := trim g2 in
      markdown_label speakerRaw
      || (if isDashMatch
          then gate_digit speakerRaw
               || gate_bio potentialDialogue
               || gate_act speakerRaw
               || gate_caps (cleanSpeakerName speakerRaw) potentialDialogue
          else colon_rejects speakerRaw)
  | (None, _) => false
  end.

(** A line on which the cue test neither rejects nor accepts: it has no
    colon or dash split, or its candidate passes every rejection and has a
    sanitized label that is empty or classified as metadata. *)
Definition unrecognised (line : jsstring) : Prop :=
  match line_match (trim line) with
  | (None, _) => True
  | (Some (g1, g2), isDashMatch) =>
      let speakerRaw := trim g1 in
      let speakerClean := cleanSpeakerName speakerRaw in
      markdown_label speakerRaw = false
      /\ (if isDashMatch
          then dash_rejects line speakerRaw speakerClean (trim g2)
          else colon_rejects speakerRaw) = false
      /\ (speakerClean = [] \/ isMetadataLine speakerClean = true)
  end.

(** The length heuristic as the specification words it: more than 4
    white-space-separated words. *)
Definition spec_length_rule (lower : jsstring) : bool :=
  (4 <? length (split_runs is_ws lower))%nat.

(** Step 2 of the sanitizer as the specification words it: a standalone
    hyphen or dash (the hyphen-minus, the en dash U+2013 or the em dash
    U+2014) surrounded by white space, and truncation at the first such
    occurrence, wherever it is. *)
Definition spec_dash_chars : list char := [0x2D; 0x2013; 0x2014].

Definition is_spec_dash (c : char) : bool := existsb (N.eqb c) spec_dash_chars.

Definition spec_separator_here (s : jsstring) : bool :=
  match s with
  | c :: r =>
      is_ws c &&
      match drop_ws r with
      | d :: w :: _ => is_spec_dash d && is_ws w
      | _ => false
      end
  | [] => false
  end.

Definition spec_cleanSpeakerName (raw : jsstring) : jsstring :=
  let name := strip_parens false raw in
  let name :=
    match search spec_separator_here name with
    | Some index => firstn index name
    | None => name
    end in
  trim (keep_code_points name_char name).

End WithUnicode.

(** No two consecutive lines have the same [speakerClean]. *)
Definition no_repeated_speaker (rawLines : list ParsedLine) : Prop :=
  forall i a b,
    nth_error rawLines i = Some a -> nth_error rawLines (S i) = Some b ->
    speakerClean a <> speakerClean b.

End ScriptParsing.

(** ** The audio utilities *)

Module Audio.

(** Errors that the browser objects raise. *)
Inductive exn : Type :=
| NotSupportedError   (* [createBuffer]: zero count or unsupported rate *)
| RangeError.         (* a write outside a typed array or [DataView] *)

Inductive result (A : Type) : Type :=
| Ok (a : A)
| Throw (e : exn).

Arguments Ok {A} a.
Arguments Throw {A} e.

(** An [AudioBuffer] object over samples of type [T].  [ident] is the
    identity of the object: two buffers with the same contents and different
    identities are different objects.  [numberOfChannels] is the number of
    channel arrays. *)
Record AudioBuffer (T : Type) : Type := {
  ident : nat;
  bufLength : nat;
  sampleRate : N;
  channels : list (list T)
}.

Arguments ident {T} a.
Arguments bufLength {T} a.
Arguments sampleRate {T} a.
Arguments channels {T} a.

Definition numberOfChannels {T} (b : AudioBuffer T) : nat :=
  length (channels b).

(** [getChannelData(c)]. *)
Definition getChannelData {T} (b : AudioBuffer T) (c : nat) : list T :=
  nth c (channels b) [].

(** The [AudioContext]: its own sample rate, the range of sample rates that
    [createBuffer] accepts, and the number of objects allocated so far. *)
Record AudioContext : Type := {
  ctxSampleRate : N;
  minSampleRate : N;
  maxSampleRate : N;
  allocated : nat
}.

Definition supportsRate (ctx : AudioContext) (rate : N) : bool :=
  ((minSampleRate ctx <=? rate) && (rate <=? maxSampleRate ctx))%N.

(** The invariants of an [AudioBuffer] that a context has created. *)
Record well_formed {T} (ctx : AudioContext) (b : AudioBuffer T) : Prop := {
  wf_channels : (1 <= numberOfChannels b)%nat;
  wf_length : (1 <= bufLength b)%nat;
  wf_rate : supportsRate ctx (sampleRate b) = true;
  wf_data : Forall (fun ch => length ch = bufLength b) (channels b)
}.

(** [context.createBuffer(numberOfChannels, length, sampleRate)]: a new
    silent buffer; a zero channel count, a zero length or an unsupported
    sample rate raise [NotSupportedError]. *)
Definition createBuffer {T} (zero : T) (ctx : AudioContext)
  (nChannels len : nat) (rate : N) : result (AudioBuffer T * AudioContext) :=
  if (nChannels =? 0)%nat || (len =? 0)%nat || negb (supportsRate ctx rate)
  then Throw NotSupportedError
  else Ok ({| ident := allocated ctx;
              bufLength := len;
              sampleRate := rate;
              channels := repeat (repeat zero len) nChannels |},
           {| ctxSampleRate := ctxSampleRate ctx;
              minSampleRate := minSampleRate ctx;
              maxSampleRate := maxSampleRate ctx;
              allocated := S (allocated ctx) |}).

(** Replacing element [i] of a list; a position outside the list changes
    nothing. *)
Fixpoint update {A} (i : nat) (f : A -> A) (l : list A) : list A :=
  match l, i with
  | [], _ => []
  | x :: r, O => f x :: r
  | x :: r, S j => x :: update j f r
  end.

(** [target[i] = v] on a typed array: a write outside the array is ignored. *)
Definition store {A} (target : list A) (i : nat) (v : A) : list A :=
  update i (fun _ => v) target.

(** [target.set(source, offset)] on a typed array: [RangeError] when the
    source does not fit. *)
Definition typed_set {A} (target source : list A) (offset : nat)
  : result (list A) :=
  if (offset + length source <=? length target)%nat
  then Ok (firstn offset target ++ source
           ++ skipn (offset + length source) target)
  else Throw RangeError.

(** *** [concatenateAudioBuffers] ([src/unnamed/part_000], lines 73 to 96) *)

Section Concatenate.

Variable T : Type.
Variable zero : T.

(** The body of [for (let channel ...)] for one input buffer: the channel
    arrays of [result] after the writes at [offset]. *)
Fixpoint write_channels (buffer : AudioBuffer T) (offset : nat)
  (channel : nat) (resultChannels : list (list T)) : result (list (list T)) :=
  match resultChannels with
  | [] => Ok []
  | resultData :: rest =>
      let written :=
        if (channel <? numberOfChannels buffer)%nat
        then typed_set resultData (getChannelData buffer channel) offset
        else if (numberOfChannels buffer =? 1)%nat
        then typed_set resultData (getChannelData buffer 0) offset
        else Ok resultData in
      match written with
      | Throw e => Throw e
      | Ok resultData' =>
          match write_channels buffer offset (S channel) rest with
          | Throw e => Throw e
          | Ok rest' => Ok (resultData' :: rest')
          end
      end
  end.

(** [for (const buffer of buffers)], threading [offset]. *)
Fixpoint write_buffers (buffers : list (AudioBuffer T)) (offset : nat)
  (resultChannels : list (list T)) : result (list (list T)) :=
  match buffers with
  | [] => Ok resultChannels
  | buffer :: rest =>
      match write_channels buffer offset 0 resultChannels with
      | Throw e => Throw e
      | Ok resultChannels' =>
          write_buffers rest (offset + bufLength buffer) resultChannels'
      end
  end.

Definition totalLength (buffers : list (AudioBuffer T)) : nat :=
  fold_left (fun acc b => acc + bufLength b)%nat buffers 0%nat.

Definition concatenateAudioBuffers (buffers : list (AudioBuffer T))
  (context : AudioContext) : result (AudioBuffer T * AudioContext) :=
  match buffers with
  | [] => createBuffer zero context 1 1 (ctxSampleRate context)
  | first :: _ =>
      match createBuffer zero context (numberOfChannels first)
              (totalLength buffers) (sampleRate first) with
      | Throw e => Throw e
      | Ok (res, context') =>
          match write_buffers buffers 0 (channels res) with
          | Throw e => Throw e
          | Ok filled =>
              Ok ({| ident := ident res;
                     bufLength := bufLength res;
                     sampleRate := sampleRate res;
                     channels := filled |}, context')
          end
      end
  end.

End Concatenate.

(** *** [resampleBuffer] ([src/unnamed/part_000], lines 38 to 63) *)

(** The arithmetic of JavaScript Numbers (IEEE 754 binary64) that
    [resampleBuffer] uses, as an interface. *)
Class Number (F : Type) : Type := {
  of_Z : Z -> F;                 (* an integer as a Number *)
  of_Q : Q -> F;                 (* a numeric literal *)
  nan : F;                       (* what [undefined] becomes in arithmetic *)
  fadd : F -> F -> F;
  fsub : F -> F -> F;
  fmul : F -> F -> F;
  fdiv : F -> F -> F;
  feq : F -> F -> bool;          (* [===] *)
  flt : F -> F -> bool;          (* [<] *)
  fge : F -> F -> bool;          (* [>=] *)
  Math_round : F -> F;
  Math_floor : F -> F;
  fround : F -> F;               (* the value a [Float32Array] stores *)
  index_of : F -> option nat;    (* the array index that a Number denotes *)
  to_unsigned_long : F -> nat    (* conversion of a [createBuffer] length *)
}.

Section Resample.

Context {F : Type} {num : Number F}.

(** [input[index]]: [undefined] outside the array. *)
Definition read (input : list F) (index : F) : F :=
  match index_of index with
  | Some k => nth k input nan
  | None => nan
  end.

(** The body of the inner loop: the value written to [output[i]]. *)
Definition interpolate (input : list F) (rate : F) (i : nat) : F :=
  let position := fmul (of_Z (Z.of_nat i)) rate in
  let index := Math_floor position in
  let fraction := fsub position index in
  let last := of_Z (Z.of_nat (length input) - 1) in
  if fge index last then fround (read input last)
  else fround (fadd (fmul (read input index) (fsub (of_Q 1) fraction))
                    (fmul (read input (fadd index (of_Q 1))) fraction)).

(** [for (let i = 0; i < newLength; i++) output[i] = ...].  Writes at
    positions outside [output] are ignored, so only the positions of
    [output] are visited. *)
Definition resample_channel (input output : list F) (rate newLength : F)
  : list F :=
  fold_left
    (fun out i =>
       if flt (of_Z (Z.of_nat i)) newLength
       then store out i (interpolate input rate i) else out)
    (seq 0 (length output)) output.

(** [for (let c = 0; c < buffer.numberOfChannels; c++)]. *)
Definition resample_channels (buffer : AudioBuffer F)
  (outputs : list (list F)) (rate newLength : F) : list (list F) :=
  fold_left
    (fun outs c =>
       update c (fun output =>
                   resample_channel (getChannelData buffer c) output
                                    rate newLength) outs)
    (seq 0 (numberOfChannels buffer)) outputs.

Definition newLength_of (buffer : AudioBuffer F) (rate : F) : F :=
  Math_round (fdiv (of_Z (Z.of_nat (bufLength buffer))) rate).

Definition resampleBuffer (buffer : AudioBuffer F) (rate : F)
  (context : AudioContext) : result (AudioBuffer F * AudioContext) :=
  if feq rate (of_Q 1) then Ok (buffer, context)
  else
    let newLength := newLength_of buffer rate in
    match createBuffer (of_Z 0) context (numberOfChannels buffer)
            (to_unsigned_long newLength) (sampleRate buffer) with
    | Throw e => Throw e
    | Ok (newBuffer, context') =>
        Ok ({| ident := ident newBuffer;
               bufLength := bufLength newBuffer;
               sampleRate := sampleRate newBuffer;
               channels := resample_channels buffer (channels newBuffer)
                                             rate newLength |}, context')
    end.

(** The pitch range of a [Character]: 0.8 to 1.2. *)
Definition in_pitch_range (rate : F) : bool :=
  fge rate (of_Q (4 # 5)) && fge (of_Q (6 # 5)) rate.

End Resample.

(** The binary64 operations themselves, on the specification of
    floating-point numbers of the Standard Library (precision 53, maximal
    exponent 1024): the instance that evaluates the model on doubles. *)
Definition b64_of_Z (z : Z) : spec_float := binary_normalize 53 1024 z 0 false.

(** A literal [a/b] with [a] and [b] below 2^53: the double nearest to it. *)
Definition b64_of_Q (q : Q) : spec_float :=
  SFdiv 53 1024 (b64_of_Z (Qnum q)) (b64_of_Z (Zpos (Qden q))).

(** The value of a finite double as [m * 2^e] with [m] signed. *)
Definition b64_signed (s : bool) (m : positive) : Z := cond_Zopp s (Zpos m).

(** [Math.floor] and [Math.round] (the nearest integer, a tie going up). *)
Definition b64_floor (x : spec_float) : spec_float :=
  match x with
  | S754_finite s m e =>
      if (0 <=? e)%Z then x
      else b64_of_Z (b64_signed s m / 2 ^ (- e))
  | _ => x
  end.

Definition b64_round (x : spec_float) : spec_float :=
  match x with
  | S754_finite s m e =>
      if (0 <=? e)%Z then x
      else b64_of_Z ((2 * b64_signed s m + 2 ^ (- e)) / 2 ^ (1 - e))
  | _ => x
  end.

(** The integer part of a finite double, rounded toward zero. *)
Definition b64_truncate (x : spec_float) : Z :=
  match x with
  | S754_finite s m e =>
      if (0 <=? e)%Z then b64_signed s m * 2 ^ e
      else cond_Zopp s (Zpos m / 2 ^ (- e))
  | _ => 0
  end.

Definition b64_index (x : spec_float) : option nat :=
  match x with
  | S754_zero _ => Some 0%nat
  | S754_finite false m e =>
      if SFeqb x (b64_floor x) then Some (Z.to_nat (b64_truncate x)) else None
  | _ => None
  end.

#[export] Instance binary64 : Number spec_float := {|
  of_Z := b64_of_Z;
  of_Q := b64_of_Q;
  nan := S754_nan;
  fadd := SFadd 53 1024;
  fsub := SFsub 53 1024;
  fmul := SFmul 53 1024;
  fdiv := SFdiv 53 1024;
  feq := SFeqb;
  flt := SFltb;
  fge := fun x y => SFleb y x;
  Math_round := b64_round;
  Math_floor := b64_floor;
  fround := fun x => match x with
                     | S754_finite s m e => binary_round 24 128 s m e
                     | _ => x
                     end;
  index_of := b64_index;
  to_unsigned_long := fun x => Z.to_nat (b64_truncate x mod 2 ^ 32)
|}.

(** The members of [spec_float] that are doubles: a finite one has a
    mantissa of at most 53 binary digits at the exponent that its size calls
    for, which is at most 971.  Every JavaScript Number is one of them; the
    comparisons of [SpecFloat] read the other members wrongly. *)
Definition is_double (x : spec_float) : bool := valid_binary 53 1024 x.

End Audio.

(** ** The WAV encoder ([audioBufferToWav], [src/unnamed/part_000], lines 99
    to 153) *)

Module Wav.

Import Audio.

(** A sample of a [Float32Array].  A finite binary32 value is a dyadic
    rational with a 24-bit significand; on the values that the clamp lets
    through, the sum [0.5 + sample], the products by 32768 and by 32767 and
    the comparison with 0 are exact in binary64, so rational arithmetic
    computes what the code computes. *)
Inductive sample : Type :=
| Finite (q : Q)
| PosInf
| NegInf
| NaN.

Definition Qltb (a b : Q) : bool := negb (Qle_bool b a).

(** [Math.min(1, x)] and [Math.max(-1, x)]. *)
Definition Math_min_1 (x : sample) : sample :=
  match x with
  | Finite q => if Qle_bool q 1 then Finite q else Finite 1
  | PosInf => Finite 1
  | NegInf => NegInf
  | NaN => NaN
  end.

Definition Math_max_neg1 (x : sample) : sample :=
  match x with
  | Finite q => if Qle_bool (-1) q then Finite q else Finite (-1)
  | PosInf => PosInf
  | NegInf => Finite (-1)
  | NaN => NaN
  end.

Definition clamp (x : sample) : sample := Math_max_neg1 (Math_min_1 x).

(** [0.5 + sample < 0 ? sample * 32768 : sample * 32767]: the addition binds
    tighter than the comparison. *)
Definition scale (s : sample) : sample :=
  match s with
  | Finite q =>
      if Qltb ((1 # 2) + q) 0 then Finite (q * 32768) else Finite (q * 32767)
  | PosInf => PosInf
  | NegInf => NegInf
  | NaN => NaN
  end.

(** Truncation toward zero. *)
Definition truncate (q : Q) : Z :=
  if Qle_bool 0 q then Qfloor q else Qceiling q.

(** [x | 0]: [ToInt32]. *)
Definition ToInt32 (s : sample) : Z :=
  match s with
  | Finite q => ((truncate q + 2 ^ 31) mod 2 ^ 32 - 2 ^ 31)%Z
  | _ => 0%Z
  end.

(** The 16-bit integer written for a source sample. *)
Definition pcm16 (x : sample) : Z := ToInt32 (scale (clamp x)).

(** The conversion as the specification words it: times 32768 when the
    clamped value is negative, times 32767 otherwise. *)
Definition spec_scale (s : sample) : sample :=
  match s with
  | Finite q => if Qltb q 0 then Finite (q * 32768) else Finite (q * 32767)
  | PosInf => PosInf
  | NegInf => NegInf
  | NaN => NaN
  end.

Definition spec_pcm16 (x : sample) : Z := ToInt32 (spec_scale (clamp x)).

(** The bytes of the low [width] bytes of [v], little-endian. *)
Definition le_bytes (width : nat) (v : Z) : list Z :=
  map (fun k => ((v / 256 ^ Z.of_nat k) mod 256)%Z) (seq 0 width).

(** [view.setUint16], [view.setUint32] and [view.setInt16] with
    [littleEndian = true]: [RangeError] outside the view. *)
Definition set_bytes (view : list Z) (pos : nat) (bytes : list Z)
  : result (list Z) := typed_set view bytes pos.

(** The writer state: the bytes of [bufferArray] and the closure variable
    [pos] that [setUint16] and [setUint32] advance. *)
Record writer : Type := { view : list Z; pos : nat }.

Definition setUint16 (data : Z) (w : writer) : result writer :=
  match set_bytes (view w) (pos w) (le_bytes 2 data) with
  | Ok v => Ok {| view := v; pos := pos w + 2 |}
  | Throw e => Throw e
  end.

Definition setUint32 (data : Z) (w : writer) : result writer :=
  match set_bytes (view w) (pos w) (le_bytes 4 data) with
  | Ok v => Ok {| view := v; pos := pos w + 4 |}
  | Throw e => Throw e
  end.

Definition andThen {A B} (r : result A) (k : A -> result B) : result B :=
  match r with
  | Ok a => k a
  | Throw e => Throw e
  end.

Notation "r >>= k" := (andThen r k) (at level 50, left associativity).

(** The header, written through [setUint16] and [setUint32]. *)
Definition write_header (buffer : AudioBuffer sample) (length : nat)
  (w : writer) : result writer :=
  let numOfChan := Z.of_nat (numberOfChannels buffer) in
  let rate := Z.of_N (sampleRate buffer) in
  setUint32 0x46464952 w
  >>= setUint32 (Z.of_nat length - 8)
  >>= setUint32 0x45564157
  >>= setUint32 0x20746d66
  >>= setUint32 16
  >>= setUint16 1
  >>= setUint16 numOfChan
  >>= setUint32 rate
  >>= setUint32 (rate * 2 * numOfChan)
  >>= setUint16 (numOfChan * 2)
  >>= setUint16 16
  >>= setUint32 0x61746164
  >>= (fun w => setUint32 (Z.of_nat length - Z.of_nat (pos w) - 4) w).

(** [for (i = 0; i < numOfChan; i++)] at frame [pos]: one 16-bit sample per
    channel at [44 + offset].  A missing element reads as [undefined], which
    the arithmetic turns into [NaN]. *)
Fixpoint write_frame (chans : list (list sample)) (pos offset : nat)
  (v : list Z) : result (list Z * nat) :=
  match chans with
  | [] => Ok (v, offset)
  | ch :: rest =>
      set_bytes v (44 + offset) (le_bytes 2 (pcm16 (nth pos ch NaN)))
      >>= (fun v' => write_frame rest pos (offset + 2) v')
  end.

(** [while (pos < buffer.length)], with [fuel] bounding the iterations that
    remain. *)
Fixpoint write_frames (fuel : nat) (buffer : AudioBuffer sample)
  (pos offset : nat) (v : list Z) : result (list Z) :=
  match fuel with
  | O => Ok v
  | S fuel' =>
      if (pos <? bufLength buffer)%nat then
        write_frame (channels buffer) pos offset v
        >>= (fun vo => write_frames fuel' buffer (S pos) (snd vo) (fst vo))
      else Ok v
  end.

(** The bytes of the [Blob]. *)
Definition audioBufferToWav (buffer : AudioBuffer sample) : result (list Z) :=
  let numOfChan := numberOfChannels buffer in
  let length := (bufLength buffer * numOfChan * 2 + 44)%nat in
  let w := {| view := repeat 0%Z length; pos := 0 |} in
  write_header buffer length w
  >>= (fun w => write_frames (bufLength buffer - pos w) buffer (pos w) 0 (view w)).

End Wav.

(** ** [generateDramaAudio] ([src/services/geminiService.ts], lines 206 to
    355) *)

Module Gemini.

Import Js ScriptParsing.
Local Open Scope N_scope.

Inductive VoiceName : Type := Puck | Charon | Kore | Fenrir | Zephyr.

Record Character : Type := {
  id : jsstring;
  name : jsstring;
  voice : VoiceName;
  pitch : Q
}.

(** [VOICE_META[voice].traits]. *)
Definition traits (v : VoiceName) : jsstring :=
  match v with
  | Puck => lit "Mischievous, Tenor"
  | Charon => lit "Deep, Authoritative"
  | Kore => lit "Gentle, Soothing"
  | Fenrir => lit "Gruff, Intense"
  | Zephyr => lit "Professional, Confident"
  end.

(** An element of [segments]. *)
Record DialogueSegment : Type := {
  speaker : jsstring;
  text : jsstring
}.

Record AudioSegment : Type := {
  audio : jsstring;
  audio_speaker : jsstring
}.

(** *** Step 1: grouping consecutive lines of one speaker *)

Fixpoint group_from (currentSegment : DialogueSegment)
  (segments : list DialogueSegment) (rawLines : list ParsedLine)
  : list DialogueSegment :=
  match rawLines with
  | [] => segments ++ [currentSegment]
  | line :: rest =>
      if str_eqb (speakerClean line) (speaker currentSegment) then
        group_from {| speaker := speaker currentSegment;
                      text := text currentSegment ++ lit " " ++ dialogue line |}
                   segments rest
      else
        group_from {| speaker := speakerClean line; text := dialogue line |}
                   (segments ++ [currentSegment]) rest
  end.

(** The segments built from [rawLines]; the early [return []] on an empty
    [rawLines] leaves no segment. *)
Definition groupSegments (rawLines : list ParsedLine) : list DialogueSegment :=
  match rawLines with
  | [] => []
  | first :: rest =>
      group_from {| speaker := speakerClean first; text := dialogue first |}
                 [] rest
  end.

(** The number of lines of [rawLines] that start a new segment when the
    segment before them belongs to [previous]. *)
Fixpoint speaker_changes (previous : jsstring) (rawLines : list ParsedLine)
  : nat :=
  match rawLines with
  | [] => 0
  | line :: rest =>
      if str_eqb (speakerClean line) previous
      then speaker_changes previous rest
      else S (speaker_changes (speakerClean line) rest)
  end.

(** *** Steps 2 and 3: the synthesis loop

    The loop is modelled by what it returns or throws and by the requests it
    sends to the provider.  The progress callback, the console output and
    the delays between requests have no part in either and are left out. *)

(** A thrown value: [error.message] (empty when absent) and
    [JSON.stringify(error)]. *)
Record JsError : Type := {
  message : jsstring;
  json : jsstring
}.

(** [new Error(message)]. *)
Definition new_Error (m : jsstring) : JsError :=
  {| message := m; json := lit "{}" |}.

(** A [generateContent] request of the loop: the text to speak, the voice,
    and the two values that the system instruction is built from. *)
Record request : Type := {
  req_text : jsstring;
  req_voice : VoiceName;
  req_speaker : jsstring;
  req_traits : jsstring
}.

(** What a request comes back with: a response whose
    [candidates?.[0]?.content?.parts?.[0]?.inlineData?.data] is [data]
    ([None] for [undefined]), or a rejection. *)
Inductive reply : Type :=
| Response (data : option jsstring)
| Rejection (error : JsError).

(** The speech provider: the reply to a request, given how many requests
    were issued before it. *)
Definition provider : Type := nat -> request -> reply.

(** The observable progress of a run: [audioResults] and the requests issued
    so far. *)
Record progress : Type := {
  audioResults : list AudioSegment;
  issued : list request
}.

Inductive outcome : Type :=
| Done (st : progress)
| Thrown (e : JsError) (requests : list request).

Definition quote : jsstring := [0x22].

(** The message of the error for a speaker without a voice. *)
Definition unassigned_message (who : jsstring) : jsstring :=
  lit "Speaker " ++ quote ++ who ++ quote
  ++ lit " is in the script but not assigned a voice. Please use 'Auto-Assign Voices' first.".

Definition exhausted_message (who : jsstring) : jsstring :=
  lit "Failed to generate audio for " ++ who
  ++ lit ". Rate Limit persistently exceeded. Please try again in a few minutes or use a Paid API Key.".

Definition MAX_RETRIES : nat := 10.

(** [s.replace(/\s+/g, ' ')]. *)
Fixpoint collapse_ws (in_run : bool) (s : jsstring) : jsstring :=
  match s with
  | [] => []
  | c :: r =>
      if is_ws c then
        if in_run then collapse_ws true r else 0x20 :: collapse_ws true r
      else c :: collapse_ws false r
  end.

(** [const cleanText = ...]. *)
Definition clean_text (t : jsstring) : jsstring :=
  trim (collapse_ws false (strip_parens false t)).

(** A [Map] with string keys: the latest [set] of a key is the one [get]
    finds. *)
Definition string_map (V : Type) : Type := list (jsstring * V).

Fixpoint map_get {V} (m : string_map V) (key : jsstring) : option V :=
  match m with
  | [] => None
  | (k, v) :: r => if str_eqb k key then Some v else map_get r key
  end.

Definition map_set {V} (m : string_map V) (key : jsstring) (v : V)
  : string_map V := (key, v) :: m.

Section WithUnicode.

Variable U : Unicode.

(** [characters.forEach(c => voiceMap.set(c.name.toLowerCase(), c.voice))]. *)
Definition voiceMap_of (characters : list Character) : string_map VoiceName :=
  fold_left (fun m c => map_set m (toLowerCase U (name c)) (voice c))
            characters [].

(** The test of the [catch] clause. *)
Definition retryable (error : JsError) : bool :=
  let msg := toLowerCase U (if nonempty (message error)
                            then message error else json error) in
  includes msg (lit "429") || includes msg (lit "quota")
  || includes msg (lit "resource_exhausted") || includes msg (lit "overloaded")
  || includes msg (lit "503").

Section Run.

(** The key that [getAI] finds ([manualApiKey || process.env.API_KEY], empty
    when there is none) and the provider behind the client it builds. *)
Variable apiKey : jsstring.
Variable ai : provider.

Definition missing_key_message : jsstring :=
  lit "API Key not found. Please select or paste a key.".

(** The [while (!success && retries < MAX_RETRIES)] loop; [fuel] is
    [MAX_RETRIES - retries]. *)
Fixpoint attempt (fuel : nat) (segment : DialogueSegment) (req : request)
  (st : progress) : outcome :=
  match fuel with
  | O => Thrown (new_Error (exhausted_message (speaker segment))) (issued st)
  | S fuel' =>
      let sent := {| audioResults := audioResults st;
                     issued := issued st ++ [req] |} in
      let caught (error : JsError) :=
        if retryable error then attempt fuel' segment req sent
        else Thrown error (issued sent) in
      match ai (length (issued st)) req with
      | Response (Some audioData) =>
          if nonempty audioData then
            Done {| audioResults :=
                      audioResults st
                      ++ [{| audio := audioData;
                             audio_speaker := speaker segment |}];
                    issued := issued sent |}
          else caught (new_Error (lit "API returned empty audio data"))
      | Response None =>
          caught (new_Error (lit "API returned empty audio data"))
      | Rejection error => caught error
      end
  end.

(** The body of [for (let i = 0; i < segments.length; i++)]. *)
Definition process_segment (voiceMap : string_map VoiceName)
  (segment : DialogueSegment) (st : progress) : outcome :=
  match map_get voiceMap (toLowerCase U (speaker segment)) with
  | None =>
      Thrown (new_Error (unassigned_message (speaker segment))) (issued st)
  | Some voice =>
      let cleanText := clean_text (text segment) in
      if negb (nonempty cleanText) then Done st
      else attempt MAX_RETRIES segment
             {| req_text := cleanText;
                req_voice := voice;
                req_speaker := speaker segment;
                req_traits := traits voice |} st
  end.

Fixpoint process_segments (voiceMap : string_map VoiceName)
  (segments : list DialogueSegment) (st : progress) : outcome :=
  match segments with
  | [] => Done st
  | segment :: rest =>
      match process_segment voiceMap segment st with
      | Done st' => process_segments voiceMap rest st'
      | Thrown e requests => Thrown e requests
      end
  end.

Definition start : progress := {| audioResults := []; issued := [] |}.

Definition generateDramaAudio (script : jsstring) (characters : list Character)
  : outcome :=
  if negb (nonempty apiKey) then Thrown (new_Error missing_key_message) []
  else
    let rawLines := parseScriptContent U script in
    process_segments (voiceMap_of characters) (groupSegments rawLines) start.

End Run.

(** *** Notions that the properties of the run are stated with *)

(** The speaker has a case-insensitive match among the characters' names. *)
Definition cast (characters : list Character) (who : jsstring) : bool :=
  existsb (fun c => str_eqb (toLowerCase U (name c)) (toLowerCase U who))
          characters.

(** A request made for a speaker with a casting entry. *)
Definition for_cast_speaker (characters : list Character) (r : request)
  : Prop := cast characters (req_speaker r) = true.

(** The requests that a run has issued when it ends. *)
Definition requests_of (o : outcome) : list request :=
  match o with
  | Done st => issued st
  | Thrown _ requests => requests
  end.

End WithUnicode.

(** A provider that answers every request with the same audio payload. *)
Definition always_audio (data : jsstring) : provider :=
  fun _ _ => Response (Some data).

End Gemini.

(** ** Sample data for the evaluations *)

Module Samples.

Import Js ScriptParsing Gemini Audio Wav.
Local Open Scope N_scope.

Definition newline : jsstring := [0x0A].

(** The record of a line [who: what]. *)
Definition spoken (who what : string) : ParsedLine :=
  {| original := lit who ++ lit ": " ++ lit what;
     speakerRaw := lit who;
     speakerClean := lit who;
     metadata := [];
     dialogue := lit what |}.

Definition hero_line : ParsedLine := spoken "Hero" "Hello".

(** The loop state after the line "Hero: Hello". *)
Definition hero_active : state :=
  {| parsedLines := []; currentSpeaker := Some hero_line |}.

Definition character (who : string) (v : VoiceName) : Character :=
  {| id := lit who; name := lit who; voice := v; pitch := 1 |}.

Definition some_key : jsstring := lit "key".

Definition payload : jsstring := lit "AAAA".

(** A provider that rejects every request with a fatal error. *)
Definition always_fails : provider :=
  fun _ _ => Rejection (new_Error (lit "network down")).

Definition ghost_segment : DialogueSegment :=
  {| speaker := lit "Ghost"; text := [] |}.

Definition browser : AudioContext :=
  {| ctxSampleRate := 48000;
     minSampleRate := 8000;
     maxSampleRate := 96000;
     allocated := 1 |}.

Definition mono {T} (rate : N) (data : list T) : AudioBuffer T :=
  {| ident := 0;
     bufLength := length data;
     sampleRate := rate;
     channels := [data] |}.

(** Four samples as doubles, and a buffer of two frames. *)
Definition ramp64 : AudioBuffer spec_float :=
  mono 24000 (map b64_of_Z [0; 1; 2; 3]%Z).

Definition pair64 : AudioBuffer spec_float :=
  mono 24000 (map b64_of_Z [0; 1]%Z).

(** 45 frames at -1/4: the shortest buffer of which a frame is written. *)
Definition quarter_below_zero : AudioBuffer sample :=
  mono 24000 (repeat (Finite (-1 # 4)) 45).

End Samples.

(** * The rest of the pipeline

    Notions and models for the code around the classifier and the assembler:
    the retry wrapper and the speech preview, [decodeAudioData], the
    derivation of the characters in the script panel, the handlers that
    change a voice or a pitch, and the assembly of the track in the
    application. *)

(** ** Further notions for the parser *)

Module ParserNotions.

Import Js ScriptParsing.
Local Open Scope N_scope.

(** A line that the loop does not skip at [if (!trimmedLine) continue]. *)
Definition nonblank (line : jsstring) : bool := nonempty (trim line).

(** The lines of a script. *)
Definition lines_of (scriptText : jsstring) : list jsstring :=
  split_char 0x0A scriptText.

(** A string without white space at either end. *)
Definition trimmed (s : jsstring) : Prop :=
  starts_ws s = false /\ starts_ws (rev s) = false.

(** The fields of a record that white space is removed from. *)
Definition fields_trimmed (p : ParsedLine) : Prop :=
  trimmed (speakerRaw p) /\ trimmed (speakerClean p) /\ trimmed (dialogue p).

Definition state_trimmed (st : state) : Prop :=
  Forall fields_trimmed (parsedLines st)
  /\ (forall cur, currentSpeaker st = Some cur -> fields_trimmed cur).

(** Sample scripts. *)
Definition hero_script : jsstring := lit "Hero: Hello".
Definition hero_script_spaced : jsstring :=
  [0x0A; 0x20; 0x0A] ++ lit "Hero: Hello" ++ [0x0A; 0x0A].
Definition prose : jsstring := lit "Once upon a time there was a hero".

End ParserNotions.


(** ** Further notions for the synthesis run *)

Module GeminiNotions.

Import Js ScriptParsing Gemini.
Local Open Scope N_scope.

(** No two neighbours of a list of names are the same string. *)
Fixpoint neighbours_differ (names : list jsstring) : bool :=
  match names with
  | a :: rest =>
      match rest with
      | b :: _ => negb (str_eqb a b) && neighbours_differ rest
      | [] => true
      end
  | [] => true
  end.

(** A segment that gets past [if (!cleanText) continue]. *)
Definition spoken_segment (s : DialogueSegment) : bool :=
  nonempty (clean_text (text s)).

(** The result of a run that returned: the array [audioResults]. *)
Definition returned (o : outcome) : option (list AudioSegment) :=
  match o with
  | Done st => Some (audioResults st)
  | Thrown _ _ => None
  end.

Section WithUnicode.

Variable U : Unicode.

(** The request is the one that the loop builds for a segment of
    [segments]: the cleaned text of the segment, which is not empty, the
    voice that [voiceMap] holds for the speaker, and the traits of that
    voice. *)
Definition request_for (voiceMap : string_map VoiceName)
  (segments : list DialogueSegment) (r : request) : Prop :=
  exists s,
    In s segments
    /\ req_speaker r = speaker s
    /\ req_text r = clean_text (text s)
    /\ req_text r <> []
    /\ map_get voiceMap (toLowerCase U (speaker s)) = Some (req_voice r)
    /\ req_traits r = traits (req_voice r).

(** The request that the loop builds for a segment; there is none when the
    speaker has no voice. *)
Definition segment_request (voiceMap : string_map VoiceName)
  (s : DialogueSegment) : option request :=
  match map_get voiceMap (toLowerCase U (speaker s)) with
  | Some voice => Some {| req_text := clean_text (text s);
                          req_voice := voice;
                          req_speaker := speaker s;
                          req_traits := traits voice |}
  | None => None
  end.

(** [blocks] holds requests segment by segment: one block for each segment
    of [segments], in order, with at most [MAX_RETRIES] requests, each of
    which is the request of that segment. *)
Definition within_budget (voiceMap : string_map VoiceName)
  (segments : list DialogueSegment) (blocks : list (list request)) : Prop :=
  Forall2 (fun s block =>
             (length block <= MAX_RETRIES)%nat
             /\ Forall (fun r => segment_request voiceMap s = Some r) block)
          segments blocks.

(** The character that [voiceMap] takes the voice of a lower-cased name
    from: the last one of [characters] with that name. *)
Definition last_named (characters : list Character) (key : jsstring)
  : option Character :=
  find (fun c => str_eqb (toLowerCase U (name c)) key) (rev characters).

End WithUnicode.

End GeminiNotions.

(** ** The retry wrapper of the single requests

    [callWithRetry] of [src/services/geminiService.ts] (lines 45 to 74), the
    wrapper around the requests of [generateScript], [humanizeScript],
    [suggestCharacterMapping] and [generateSpeechPreview]. *)

Module Retry.

Import Js ScriptParsing Gemini.
Local Open Scope N_scope.

(** What one invocation of [apiCall] comes back with. *)
Inductive settled (A : Type) : Type :=
| Returned (value : A)
| Raised (error : JsError).

Arguments Returned {A} value.
Arguments Raised {A} error.

(** [apiCall], by the number of invocations made before. *)
Definition api_call (A : Type) : Type := nat -> settled A.

(** How a call of the wrapper ends, and how often it has invoked
    [apiCall]. *)
Record ending (A : Type) : Type := {
  result : settled A;
  invocations : nat
}.

Definition failed_message (operationName : jsstring) : jsstring :=
  operationName ++ lit " failed after max retries.".

Section WithUnicode.

Variable U : Unicode.

(** [isQuotaError]. *)
Definition isQuotaError (error : JsError) : bool :=
  let msg := toLowerCase U (if nonempty (message error)
                            then message error else json error) in
  includes msg (lit "429") || includes msg (lit "quota")
  || includes msg (lit "exhausted") || includes msg (lit "overloaded").

(** The [while (retries < maxRetries)] loop; [remaining] is
    [maxRetries - retries], so the loop is left when it is 0, and every
    invocation of [apiCall] has [retries] invocations before it. *)
Fixpoint retry_loop {A} (operationName : jsstring) (apiCall : api_call A)
  (maxRetries remaining : nat) : ending A :=
  let retries := (maxRetries - remaining)%nat in
  match remaining with
  | O => {| result := Raised (new_Error (failed_message operationName));
            invocations := retries |}
  | S remaining' =>
      match apiCall retries with
      | Returned value =>
          {| result := Returned value; invocations := S retries |}
      | Raised error =>
          if isQuotaError error then
            (* [retries++; if (retries >= maxRetries) throw error] *)
            match remaining' with
            | O => {| result := Raised error; invocations := S retries |}
            | S _ => retry_loop operationName apiCall maxRetries remaining'
            end
          else {| result := Raised error; invocations := S retries |}
      end
  end.

Definition callWithRetry {A} (operationName : jsstring)
  (apiCall : api_call A) (maxRetries : nat) : ending A :=
  retry_loop operationName apiCall maxRetries maxRetries.

(** An invocation that the wrapper follows by another one: it raised a
    quota error. *)
Definition retried {A} (apiCall : api_call A) (k : nat) : Prop :=
  exists error, apiCall k = Raised error /\ isQuotaError error = true.

(** The default [maxRetries = 5]. *)
Definition default_maxRetries : nat := 5.

(** The speech provider behind [generateSpeechPreview]: the reply to the
    text and the voice name of a request, given how many requests were
    issued before it. *)
Definition preview_provider : Type := nat -> jsstring -> jsstring -> reply.

Definition no_preview_message : jsstring :=
  lit "No audio data returned for preview".

(** The [apiCall] of [generateSpeechPreview]: the request and the test of
    the response. *)
Definition preview_call (ai : preview_provider) (text voice : jsstring)
  : api_call jsstring :=
  fun k =>
    match ai k text voice with
    | Response (Some audioData) =>
        if nonempty audioData then Returned audioData
        else Raised (new_Error no_preview_message)
    | Response None => Raised (new_Error no_preview_message)
    | Rejection error => Raised error
    end.

(** [generateSpeechPreview]: [getAI] throws without a key. *)
Definition generateSpeechPreview (apiKey : jsstring) (ai : preview_provider)
  (text voice : jsstring) : ending jsstring :=
  if negb (nonempty apiKey)
  then {| result := Raised (new_Error missing_key_message);
          invocations := 0 |}
  else callWithRetry (lit "Speech Preview") (preview_call ai text voice)
                     default_maxRetries.

(** The request that the loop of [generateDramaAudio] builds for a segment
    and the voice of its speaker. *)
Definition request_of (segment : DialogueSegment) (voice : VoiceName)
  : request :=
  {| req_text := clean_text (text segment);
     req_voice := voice;
     req_speaker := speaker segment;
     req_traits := traits voice |}.

Definition empty_audio_message : jsstring :=
  lit "API returned empty audio data".

(** The Unicode data lower-cases a text of Basic Latin characters as ASCII
    does. *)
Definition lowers_ascii : Prop :=
  forall s : jsstring,
    forallb (fun c => c <? 0x80) s = true ->
    toLowerCase U s = toLowerCase basic_latin s.

End WithUnicode.

(** A provider that rejects every request with the error of a rate limit. *)
Definition always_limited : provider :=
  fun _ _ => Rejection (new_Error (lit "429 Too Many Requests")).

(** A provider that answers every request without audio. *)
Definition always_silent : provider := fun _ _ => Response None.

(** A preview provider that answers without audio. *)
Definition silent_preview : preview_provider := fun _ _ _ => Response None.

(** The error of a provider that is out of service. *)
Definition unavailable : JsError :=
  new_Error (lit "503 Service Unavailable").

Definition hero_segment : DialogueSegment :=
  {| speaker := lit "Hero"; text := lit "Hello" |}.

(** An [apiCall] that is rate limited twice and then returns. *)
Definition third_time_lucky : api_call jsstring :=
  fun k => if (k <? 2)%nat
           then Raised (new_Error (lit "429 Too Many Requests"))
           else Returned (lit "done").

End Retry.


(** ** Decoding the payloads and assembling the track

    [decodeAudioData] of [src/unnamed/part_000] (lines 2 to 35) and the part
    of [handleGenerateAudio] of [src/App.tsx] (lines 138 to 158) that turns
    the [AudioSegment]s of a run into one buffer. *)

Module Decode.

Import Js ScriptParsing Gemini Audio Wav.

(** How [decodeAudioData] ends: with a buffer, with the exception of [atob]
    on a text that is not base64, or with an exception of the context. *)
Inductive decoded (T : Type) : Type :=
| Decoded (buffer : AudioBuffer T) (context : AudioContext)
| InvalidCharacterError
| ContextError (e : exn).

Arguments Decoded {T} buffer context.
Arguments InvalidCharacterError {T}.
Arguments ContextError {T} e.

(** [bytes[i] = binaryString.charCodeAt(i)] on a [Uint8Array]. *)
Definition bytes_of (binaryString : jsstring) : list Z :=
  map (fun c => (Z.of_N c mod 256)%Z) binaryString.

(** An element of an [Int16Array] over two bytes, low byte first: typed
    arrays have the byte order of the platform, which is little-endian on
    the platforms that browsers run on. *)
Definition int16_of (lo hi : Z) : Z :=
  let u := (lo + 256 * hi)%Z in
  if (u <? 32768)%Z then u else (u - 65536)%Z.

(** [new Int16Array(bytes.buffer, 0, Math.floor(bytes.byteLength / 2))]:
    the elements of the pairs of bytes; a last byte without a partner is
    outside the array. *)
Fixpoint int16_array (bytes : list Z) : list Z :=
  match bytes with
  | lo :: hi :: rest => int16_of lo hi :: int16_array rest
  | _ => []
  end.

Section Decoding.

Variable T : Type.

(** [zero] is the sample of a new buffer and [quotient v] the value that
    [channelData[i] = dataInt16[i] / 32768.0] stores for the element [v]. *)
Variable zero : T.
Variable quotient : Z -> T.

(** [atob]: the binary string of a base64 text, [None] when the text is not
    base64. *)
Variable atob : jsstring -> option jsstring.

(** [for (let i = 0; i < frameCount; i++) channelData[i] = ...]. *)
Definition fill (dataInt16 : list Z) (channelData : list T) : list T :=
  fold_left (fun data i => store data i (quotient (nth i dataInt16 0%Z)))
            (seq 0 (length dataInt16)) channelData.

Definition decodeAudioData (base64Data : jsstring)
  (audioContext : AudioContext) : decoded T :=
  match atob base64Data with
  | None => InvalidCharacterError
  | Some binaryString =>
      let bytes := bytes_of binaryString in
      let dataInt16 := int16_array bytes in
      let frameCount := length dataInt16 in
      match createBuffer zero audioContext 1 frameCount 24000 with
      | Throw e => ContextError e
      | Ok (buffer, context') =>
          Decoded {| ident := ident buffer;
                     bufLength := bufLength buffer;
                     sampleRate := sampleRate buffer;
                     channels :=
                       update 0 (fill dataInt16) (channels buffer) |}
                  context'
      end
  end.

End Decoding.

(** The quotient of an element by 32768 as a sample of the encoder: the
    division by a power of two is exact, and the result is a binary32
    value. *)
Definition pcm_sample (v : Z) : sample := Finite (v # 32768).

(** The same quotient in the arithmetic of JavaScript Numbers. *)
Definition number_sample {F} {num : Number F} (v : Z) : F :=
  fround (fdiv (of_Z v) (of_Z 32768)).

(** [atob] on two payloads: "AEA=" is the base64 text of the bytes 00 40 and
    "AED/" that of the bytes 00 40 FF. *)
Definition sample_atob (base64Data : jsstring) : option jsstring :=
  if str_eqb base64Data (lit "AEA=") then Some [0x00; 0x40]%N
  else if str_eqb base64Data (lit "AED/") then Some [0x00; 0x40; 0xFF]%N
  else None.

(** The elements of an [Int16Array]. *)
Definition is_int16 (v : Z) : Prop := (-32768 <= v <= 32767)%Z.

(** The double [x] is the quotient of the integer [v] by 32768, with no
    rounding: positive zero for [v = 0], and otherwise a finite double
    [m * 2^e] with the sign of [v] and [m * 2^e = |v| / 2^15]. *)
Definition exact_quotient (v : Z) (x : spec_float) : Prop :=
  match x with
  | S754_zero s => v = 0%Z /\ s = false
  | S754_finite s m e =>
      s = (v <? 0)%Z /\ (e <= -15)%Z
      /\ Zpos m = (Z.abs v * 2 ^ (-15 - e))%Z
  | _ => False
  end.

End Decode.

(** ** Further notions for the audio utilities *)

Module AudioNotions.

Import Audio.

(** What an input buffer puts into channel [c] of the result of
    [concatenateAudioBuffers]: its own channel [c], its only channel when it
    is mono, and nothing otherwise, which leaves the silence of the new
    buffer. *)
Definition contribution {T} (zero : T) (buffer : AudioBuffer T) (c : nat)
  : list T :=
  if (c <? numberOfChannels buffer)%nat then getChannelData buffer c
  else if (numberOfChannels buffer =? 1)%nat then getChannelData buffer 0
  else repeat zero (bufLength buffer).

(** The samples of channel [c] of the concatenation. *)
Definition joined {T} (zero : T) (buffers : list (AudioBuffer T)) (c : nat)
  : list T :=
  concat (map (fun b => contribution zero b c) buffers).

End AudioNotions.

(** ** Further notions for the WAV encoder *)

Module WavNotions.

Import Audio Wav.

(** The bytes of frame [p]: one little-endian 16-bit sample per channel. *)
Definition frame_bytes (buffer : AudioBuffer sample) (p : nat) : list Z :=
  flat_map (fun ch => le_bytes 2 (pcm16 (nth p ch NaN))) (channels buffer).

(** The 44 bytes of the header of a file of [length] bytes. *)
Definition header_bytes (buffer : AudioBuffer sample) (length : nat)
  : list Z :=
  let numOfChan := Z.of_nat (numberOfChannels buffer) in
  let rate := Z.of_N (sampleRate buffer) in
  le_bytes 4 0x46464952
  ++ le_bytes 4 (Z.of_nat length - 8)
  ++ le_bytes 4 0x45564157
  ++ le_bytes 4 0x20746d66
  ++ le_bytes 4 16
  ++ le_bytes 2 1
  ++ le_bytes 2 numOfChan
  ++ le_bytes 4 rate
  ++ le_bytes 4 (rate * 2 * numOfChan)
  ++ le_bytes 2 (numOfChan * 2)
  ++ le_bytes 2 16
  ++ le_bytes 4 0x61746164
  ++ le_bytes 4 (Z.of_nat length - 44).

(** The value that the decoder reads back from an exported element. *)
Definition reencoded (v : Z) : Z :=
  if (v <? -16384)%Z then v
  else if (v <? 0)%Z then (v + 1)%Z
  else if (v =? 0)%Z then 0%Z
  else (v - 1)%Z.

(** A finite sample from -1 up to, but not including, 1. *)
Definition in_unit_range (x : sample) : Prop :=
  exists q, x = Finite q /\ (-1 <= q)%Q /\ (q < 1)%Q.

(** A sample as [decodeAudioData] stores it. *)
Definition decoded_sample (x : sample) : Prop :=
  in_unit_range x
  /\ exists v, Decode.is_int16 v
               /\ x = Decode.pcm_sample v
               /\ pcm16 x = reencoded v.

End WavNotions.


(** ** The characters of a script

    The effect of [src/components/ScriptPanel.tsx] (lines 76 to 175) that
    derives the characters from the script whenever the script changes. *)

Module Casting.

Import Js ScriptParsing Gemini.
Local Open Scope N_scope.

(** A [Map] with string keys in insertion order: [set] on a key of the map
    replaces the value where it is, [set] on a new key adds an entry at the
    end, and [entries] and [values] go through the entries in that order. *)
Definition ordered_map (V : Type) : Type := list (jsstring * V).

Fixpoint om_get {V} (m : ordered_map V) (key : jsstring) : option V :=
  match m with
  | [] => None
  | (k, v) :: rest => if str_eqb k key then Some v else om_get rest key
  end.

Fixpoint om_set {V} (m : ordered_map V) (key : jsstring) (v : V)
  : ordered_map V :=
  match m with
  | [] => [(key, v)]
  | (k, x) :: rest =>
      if str_eqb k key then (k, v) :: rest else (k, x) :: om_set rest key v
  end.

(** [AVAILABLE_VOICES] of [src/unnamed/part_001]. *)
Definition AVAILABLE_VOICES : list VoiceName :=
  [Puck; Charon; Kore; Fenrir; Zephyr].

(** An entry of the voice registry. *)
Record registry_entry : Type := {
  reg_voice : VoiceName;
  reg_pitch : Q
}.

(** The state of the loop over [foundSpeakers]: the array [newChars], the
    voice registry, [voiceIndex], and the number of identifiers drawn from
    [crypto.randomUUID] so far. *)
Record derivation : Type := {
  newChars : list Character;
  registry : ordered_map registry_entry;
  voiceIndex : nat;
  generated : nat
}.

Section WithUnicode.

Variable U : Unicode.

(** [s === s.toUpperCase()]. *)
Definition is_upper_case (s : jsstring) : bool := str_eqb s (toUpperCase U s).

(** The body of [parsedLines.forEach(line => ...)]. *)
Definition note_speaker (uniqueMap : ordered_map jsstring)
  (line : ParsedLine) : ordered_map jsstring :=
  let lower := toLowerCase U (speakerClean line) in
  match om_get uniqueMap lower with
  | None => om_set uniqueMap lower (speakerClean line)
  | Some stored =>
      if is_upper_case stored && negb (is_upper_case (speakerClean line))
      then om_set uniqueMap lower (speakerClean line)
      else uniqueMap
  end.

Definition uniqueMap_of (parsedLines : list ParsedLine)
  : ordered_map jsstring :=
  fold_left note_speaker parsedLines [].

(** [Array.from(uniqueMap.values())]. *)
Definition foundSpeakers (parsedLines : list ParsedLine) : list jsstring :=
  map snd (uniqueMap_of parsedLines).

(** [voiceRegistry.current.get(name)], and when there is no such entry the
    first entry whose key is [name] up to case. *)
Definition registry_lookup (registry : ordered_map registry_entry)
  (name : jsstring) : option registry_entry :=
  match om_get registry name with
  | Some regEntry => Some regEntry
  | None =>
      match find (fun kv => str_eqb (toLowerCase U (fst kv))
                                    (toLowerCase U name)) registry with
      | Some (_, v) => Some v
      | None => None
      end
  end.

(** [prev.forEach(c => prevMap.set(c.name.toLowerCase(), c))]. *)
Definition prevMap_of (prev : list Character) : ordered_map Character :=
  fold_left (fun m c => om_set m (toLowerCase U (name c)) c) prev [].

(** [crypto.randomUUID()]: the identifier drawn after [n] others. *)
Variable randomUUID : nat -> jsstring.

(** The body of [foundSpeakers.forEach(name => ...)]. *)
Definition derive_one (prevMap : ordered_map Character) (d : derivation)
  (name : jsstring) : derivation :=
  let lowerName := toLowerCase U name in
  match om_get prevMap lowerName with
  | Some existing =>
      let updated :=
        match registry_lookup (registry d) name with
        | Some regEntry =>
            {| id := id existing; name := name;
               voice := reg_voice regEntry; pitch := reg_pitch regEntry |}
        | None =>
            {| id := id existing; name := name;
               voice := voice existing; pitch := pitch existing |}
        end in
      {| newChars := newChars d ++ [updated];
         registry := registry d;
         voiceIndex := voiceIndex d;
         generated := generated d |}
  | None =>
      match registry_lookup (registry d) name with
      | Some regEntry =>
          {| newChars :=
               newChars d
               ++ [{| id := randomUUID (generated d); name := name;
                      voice := reg_voice regEntry;
                      pitch := reg_pitch regEntry |}];
             registry := registry d;
             voiceIndex := voiceIndex d;
             generated := S (generated d) |}
      | None =>
          let defaultVoice :=
            nth (voiceIndex d mod length AVAILABLE_VOICES)
                AVAILABLE_VOICES Puck in
          {| newChars :=
               newChars d
               ++ [{| id := randomUUID (generated d); name := name;
                      voice := defaultVoice; pitch := 1 |}];
             registry :=
               om_set (registry d) name
                      {| reg_voice := defaultVoice; reg_pitch := 1 |};
             voiceIndex := S (voiceIndex d);
             generated := S (generated d) |}
      end
  end.

(** The loop over the names, from a registry and a count of identifiers. *)
Definition derive_names (prev : list Character) (names : list jsstring)
  (registry0 : ordered_map registry_entry) (generated0 : nat) : derivation :=
  fold_left (derive_one (prevMap_of prev)) names
            {| newChars := []; registry := registry0;
               voiceIndex := 0; generated := generated0 |}.

(** The effect: the characters for [script], given the characters before,
    the registry, and the number of identifiers drawn before. *)
Definition deriveCharacters (script : jsstring) (prev : list Character)
  (registry0 : ordered_map registry_entry) (generated0 : nat) : derivation :=
  derive_names prev (foundSpeakers (parseScriptContent U script))
               registry0 generated0.

(** *** Notions that the properties are stated with *)

(** The spellings of the speakers of [parsedLines] whose lower-case form is
    [key], in the order of the lines. *)
Definition variants (key : jsstring) (parsedLines : list ParsedLine)
  : list jsstring :=
  filter (fun n => str_eqb (toLowerCase U n) key)
         (map speakerClean parsedLines).

(** The display name among the spellings of one speaker: the first
    spelling, unless it is in upper case and a later one is not, in which
    case it is the first spelling that is not in upper case. *)
Definition preferred (spellings : list jsstring) : option jsstring :=
  match spellings with
  | [] => None
  | first :: _ =>
      if is_upper_case first then
        match find (fun n => negb (is_upper_case n)) spellings with
        | Some n => Some n
        | None => Some first
        end
      else Some first
  end.

(** The display name of one speaker after the spellings [spellings], when
    [stored] was the name before them. *)
Fixpoint settle (stored : option jsstring) (spellings : list jsstring)
  : option jsstring :=
  match spellings with
  | [] => stored
  | n :: rest =>
      settle (match stored with
              | None => Some n
              | Some s =>
                  if is_upper_case s && negb (is_upper_case n)
                  then Some n else Some s
              end) rest
  end.

(** The invariant of [uniqueMap] over the lines seen so far. *)
Record tidy (m : ordered_map jsstring) (seen : list ParsedLine) : Prop := {
  tidy_keys : NoDup (map fst m);
  tidy_entries :
    forall k v, In (k, v) m ->
                toLowerCase U v = k /\ In v (map speakerClean seen);
  tidy_seen :
    forall line, In line seen ->
                 In (toLowerCase U (speakerClean line)) (map fst m)
}.

(** The voices that the loop gives to [n] new characters when the registry
    knows none of them: [AVAILABLE_VOICES] in turn. *)
Definition voices_in_turn (n : nat) : list VoiceName :=
  map (fun i => nth (i mod length AVAILABLE_VOICES) AVAILABLE_VOICES Puck)
      (seq 0 n).

End WithUnicode.

(** Identifiers for the evaluations. *)
Definition sample_uuid (n : nat) : jsstring :=
  lit "id-" ++ [0x30 + N.of_nat n].

End Casting.


(** ** Assembling the track

    The part of [handleGenerateAudio] of [src/App.tsx] (lines 138 to 158)
    that turns the [AudioSegment]s of a run into one buffer: decoding,
    resampling by the pitch of the speaker, and concatenation. *)

Module Studio.

Import Js ScriptParsing Gemini Audio Decode.

(** Why the processing stops: the exception of [atob], or an exception of
    the context. *)
Inductive failure : Type :=
| BadBase64
| Refused (e : exn).

Inductive ended (A : Type) : Type :=
| Completed (value : A) (context : AudioContext)
| Failed (why : failure).

Arguments Completed {A} value context.
Arguments Failed {A} why.

Section Assemble.

Context {F : Type} {num : Number F}.
Variable U : Unicode.
Variable atob : jsstring -> option jsstring.

(** [characters.forEach(c => charPitchMap.set(c.name.toLowerCase(),
    c.pitch))]. *)
Definition charPitchMap_of (characters : list Character) : string_map Q :=
  fold_left (fun m c => map_set m (toLowerCase U (name c)) (pitch c))
            characters [].

(** [charPitchMap.get(segment.speaker.toLowerCase()) || 1.0]: a speaker
    without an entry, or with the pitch 0, has the rate 1. *)
Definition pitch_for (charPitchMap : string_map Q) (who : jsstring) : F :=
  match map_get charPitchMap (toLowerCase U who) with
  | Some p => if Qeq_bool p 0 then of_Q 1 else of_Q p
  | None => of_Q 1
  end.

(** [for (const segment of segments)]. *)
Fixpoint process_buffers (charPitchMap : string_map Q)
  (segments : list AudioSegment) (context : AudioContext)
  (processedBuffers : list (AudioBuffer F))
  : ended (list (AudioBuffer F)) :=
  match segments with
  | [] => Completed processedBuffers context
  | segment :: rest =>
      match decodeAudioData (of_Z 0) number_sample atob (audio segment)
                            context with
      | InvalidCharacterError => Failed BadBase64
      | ContextError e => Failed (Refused e)
      | Decoded buffer context1 =>
          let pitch := pitch_for charPitchMap (audio_speaker segment) in
          match resampleBuffer buffer pitch context1 with
          | Throw e => Failed (Refused e)
          | Ok (finalBuffer, context2) =>
              process_buffers charPitchMap rest context2
                              (processedBuffers ++ [finalBuffer])
          end
      end
  end.

(** The block [if (segments && segments.length > 0)]: [None] when there is
    no segment and nothing is assembled. *)
Definition assemble (segments : list AudioSegment)
  (characters : list Character) (context : AudioContext)
  : option (ended (AudioBuffer F)) :=
  match segments with
  | [] => None
  | _ :: _ =>
      Some
        match process_buffers (charPitchMap_of characters) segments
                              context [] with
        | Failed why => Failed why
        | Completed processedBuffers context' =>
            match concatenateAudioBuffers (of_Z 0) processedBuffers
                                          context' with
            | Throw e => Failed (Refused e)
            | Ok (combinedBuffer, context'') =>
                Completed combinedBuffer context''
            end
        end
  end.

(** *** Notions that the properties are stated with *)

(** The samples of a payload. *)
Definition samples_of (segment : AudioSegment) : list F :=
  match atob (audio segment) with
  | Some binaryString =>
      map number_sample (int16_array (bytes_of binaryString))
  | None => []
  end.

(** The buffer that the segment decodes to when [before] objects were
    allocated before it, and the buffers of a list of segments. *)
Definition decoded_buffer (before : nat) (segment : AudioSegment)
  : AudioBuffer F :=
  {| ident := before;
     bufLength := length (samples_of segment);
     sampleRate := 24000;
     channels := [samples_of segment] |}.

Fixpoint decoded_buffers (before : nat) (segments : list AudioSegment)
  : list (AudioBuffer F) :=
  match segments with
  | [] => []
  | segment :: rest =>
      decoded_buffer before segment :: decoded_buffers (S before) rest
  end.

(** The samples of a list of segments, one after the other. *)
Definition track_samples (segments : list AudioSegment) : list F :=
  concat (map samples_of segments).

(** A payload of at least one frame. *)
Definition playable (segment : AudioSegment) : Prop :=
  exists binaryString,
    atob (audio segment) = Some binaryString
    /\ (2 <= length binaryString)%nat.

End Assemble.

(** The context after [n] more allocations. *)
Definition advance (context : AudioContext) (n : nat) : AudioContext :=
  {| ctxSampleRate := ctxSampleRate context;
     minSampleRate := minSampleRate context;
     maxSampleRate := maxSampleRate context;
     allocated := allocated context + n |}.

(** Two segments for the evaluations. *)
Definition two_segments : list AudioSegment :=
  [{| audio := lit "AEA="; audio_speaker := lit "Hero" |};
   {| audio := lit "AED/"; audio_speaker := lit "Villain" |}].

End Studio.


(** ** Changing the cast

    [handleVoiceChange] and [handlePitchChange] of
    [src/components/ScriptPanel.tsx] (lines 177 to 201): the state update
    [prev.map(c => ...)] together with the writes to the voice registry. *)

Module Recasting.

Import Js ScriptParsing Gemini Casting.

(** [prev.map(c => c.id === id ? ... : c)] with
    [voiceRegistry.current.set(c.name, { voice: newVoice, pitch: c.pitch })]
    for every character that is changed. *)
Fixpoint handleVoiceChange (target : jsstring) (newVoice : VoiceName)
  (prev : list Character) (registry0 : ordered_map registry_entry)
  : list Character * ordered_map registry_entry :=
  match prev with
  | [] => ([], registry0)
  | c :: rest =>
      if str_eqb (id c) target then
        let registry1 :=
          om_set registry0 (name c)
                 {| reg_voice := newVoice; reg_pitch := pitch c |} in
        let (rest', registry2) :=
          handleVoiceChange target newVoice rest registry1 in
        ({| id := id c; name := name c; voice := newVoice;
            pitch := pitch c |} :: rest', registry2)
      else
        let (rest', registry2) :=
          handleVoiceChange target newVoice rest registry0 in
        (c :: rest', registry2)
  end.

Fixpoint handlePitchChange (target : jsstring) (newPitch : Q)
  (prev : list Character) (registry0 : ordered_map registry_entry)
  : list Character * ordered_map registry_entry :=
  match prev with
  | [] => ([], registry0)
  | c :: rest =>
      if str_eqb (id c) target then
        let registry1 :=
          om_set registry0 (name c)
                 {| reg_voice := voice c; reg_pitch := newPitch |} in
        let (rest', registry2) :=
          handlePitchChange target newPitch rest registry1 in
        ({| id := id c; name := name c; voice := voice c;
            pitch := newPitch |} :: rest', registry2)
      else
        let (rest', registry2) :=
          handlePitchChange target newPitch rest registry0 in
        (c :: rest', registry2)
  end.

Section WithUnicode.

Variable U : Unicode.
Variable randomUUID : nat -> jsstring.

(** A derived character that continues a character of [prev]: the same name
    up to case, and its identifier. *)
Definition continues (prev : list Character) (c' : Character) : Prop :=
  exists c,
    In c prev
    /\ toLowerCase U (name c) = toLowerCase U (name c')
    /\ id c' = id c.

(** A derived character that is new: no character of [prev] has its name up
    to case, and its identifier is one of those drawn during the
    derivation. *)
Definition brand_new (prev : list Character) (first next : nat)
  (c' : Character) : Prop :=
  (forall c, In c prev -> toLowerCase U (name c) <> toLowerCase U (name c'))
  /\ exists k, (first <= k < next)%nat /\ id c' = randomUUID k.

(** What [prevMap] holds for one key, given the characters it was built
    from. *)
Definition prevMap_entry (seen : list Character) (key : jsstring)
  (found : option Character) : Prop :=
  match found with
  | Some c => In c seen /\ toLowerCase U (name c) = key
  | None => forall c, In c seen -> toLowerCase U (name c) <> key
  end.

End WithUnicode.

(** A cast of two for the evaluations, with identifiers. *)
Definition hero : Character :=
  {| id := Js.lit "h"; name := Js.lit "Hero"; voice := Kore; pitch := 1 |}.

Definition villain : Character :=
  {| id := Js.lit "v"; name := Js.lit "Villain"; voice := Puck; pitch := 1 |}.

End Recasting.


(** ** Further notions for the sanitizer *)

Module SanitizerNotions.

Import Js ScriptParsing.
Local Open Scope N_scope.

(** The code points of a string, as a regular expression with the [u] flag
    reads them: a high surrogate followed by a low surrogate is one code
    point, every other code unit is a code point of its own. *)
Fixpoint code_points (s : jsstring) : list N :=
  match s with
  | [] => []
  | c :: r =>
      match r with
      | d :: r' =>
          if is_high_surrogate c && is_low_surrogate d
          then code_point c d :: code_points r'
          else c :: code_points r
      | [] => [c]
      end
  end.

Definition is_surrogate (c : char) : bool :=
  is_high_surrogate c || is_low_surrogate c.

Section WithUnicode.

Variable U : Unicode.

(** No surrogate code unit is a letter or a number: surrogates have the
    general category Cs. *)
Definition surrogates_unclassified : Prop :=
  forall c, is_surrogate c = true -> uni_L U c || uni_N U c = false.

(** A string made of name characters: code units that are not surrogates,
    and surrogate pairs, each a code point of the class that the sanitizer
    keeps. *)
Inductive name_text : jsstring -> Prop :=
| name_text_nil : name_text []
| name_text_unit (c : char) (rest : jsstring) :
    is_surrogate c = false -> name_char U c = true ->
    name_text rest -> name_text (c :: rest)
| name_text_pair (hi lo : char) (rest : jsstring) :
    is_high_surrogate hi = true -> is_low_surrogate lo = true ->
    name_char U (code_point hi lo) = true ->
    name_text rest -> name_text (hi :: lo :: rest).

End WithUnicode.

Definition decorated_name : jsstring :=
  lit "Tappu (smiling) #1!".

End SanitizerNotions.

(** * Properties *)

Unset Implicit Arguments.

(** ** Strings *)

Module JsFacts.

Import Js.
Local Open Scope N_scope.

Lemma str_eqb_eq (a b : jsstring) : str_eqb a b = true <-> a = b.
Proof.
  revert b; induction a as [|x a IH]; intros [|y b]; simpl; split;
    try congruence; try reflexivity.
  - intros H. apply andb_true_iff in H as [Hx Hab].
    apply N.eqb_eq in Hx. apply IH in Hab. congruence.
  - intros H. injection H as -> ->. rewrite N.eqb_refl. simpl. now apply IH.
Qed.

Lemma str_eqb_refl (a : jsstring) : str_eqb a a = true.
Proof. now apply str_eqb_eq. Qed.

Lemma str_eqb_neq (a b : jsstring) : str_eqb a b = false <-> a <> b.
Proof.
  split.
  - intros H E. apply str_eqb_eq in E. congruence.
  - intros H. destruct (str_eqb a b) eqn:E; [|reflexivity].
    apply str_eqb_eq in E. contradiction.
Qed.

Lemma nonempty_true (s : jsstring) : ScriptParsing.nonempty s = true <-> s <> [].
Proof. destruct s; simpl; split; congruence. Qed.

End JsFacts.

(** ** The script parser *)

Module ParserFacts.

Import Js ScriptParsing JsFacts Samples.
Local Open Scope N_scope.

Section WithUnicode.

Variable U : Unicode.

(** An accepted candidate has a non-empty sanitized name that the metadata
    classifier lets through. *)
Lemma accepted_name_valid (line trimmedLine : jsstring) (p : ParsedLine) :
  cue_verdict U line trimmedLine = Accepted p ->
  speakerClean p <> [] /\ isMetadataLine U (speakerClean p) = false.
Proof.
  unfold cue_verdict.
  destruct (line_match trimmedLine) as [[[g1 g2]|] isDash]; [|discriminate].
  cbv zeta.
  destruct (markdown_label (trim g1)); [discriminate|].
  match goal with |- context [if ?c then Rejected else _] => destruct c end;
    [discriminate|].
  destruct (nonempty (cleanSpeakerName U (trim g1))
            && negb (isMetadataLine U (cleanSpeakerName U (trim g1)))) eqn:E;
    [|discriminate].
  intros H. injection H as <-. simpl.
  apply andb_true_iff in E as [E1 E2].
  split; [now apply nonempty_true | now apply negb_true_iff].
Qed.

Lemma accepted_cue_valid (line : jsstring) (p : ParsedLine) :
  accepted_cue U line = Some p ->
  speakerClean p <> [] /\ isMetadataLine U (speakerClean p) = false.
Proof.
  unfold accepted_cue. destruct (nonempty (trim line)); [|discriminate].
  destruct (cue_verdict U line (trim line)) eqn:E; try discriminate.
  intros H. injection H as <-. eapply accepted_name_valid; eassumption.
Qed.

(** Appending a continuation line keeps the speaker. *)
Lemma append_dialogue_speaker (cur : ParsedLine) (t : jsstring) :
  speakerClean (append_dialogue cur t) = speakerClean cur.
Proof. reflexivity. Qed.

Lemma continuation_names (st : state) (t : jsstring) :
  map speakerClean (push_current (continuation st t))
  = map speakerClean (push_current st).
Proof.
  unfold continuation, push_current.
  destruct (currentSpeaker st) as [cur|] eqn:E; [|now rewrite E].
  destruct (continuation_skips t); simpl; [now rewrite E|].
  now rewrite !map_app.
Qed.

(** One iteration adds the name of the line's cue, if it is one, and leaves
    the other names as they are. *)
Lemma step_names (st : state) (line : jsstring) :
  map speakerClean (push_current (step U st line))
  = map speakerClean (push_current st) ++ cue_names U [line].
Proof.
  unfold step, cue_names, accepted_cue. simpl flat_map. rewrite app_nil_r.
  destruct (nonempty (trim line)); simpl; [|now rewrite app_nil_r].
  destruct (cue_verdict U line (trim line)).
  - now rewrite app_nil_r.
  - unfold push_current at 1. simpl. now rewrite map_app.
  - rewrite continuation_names. now rewrite app_nil_r.
Qed.

Lemma cue_names_app (l1 l2 : list jsstring) :
  cue_names U (l1 ++ l2) = cue_names U l1 ++ cue_names U l2.
Proof. unfold cue_names. now rewrite flat_map_app. Qed.

Lemma fold_names (lines : list jsstring) (st : state) :
  map speakerClean (push_current (fold_left (step U) lines st))
  = map speakerClean (push_current st) ++ cue_names U lines.
Proof.
  revert st; induction lines as [|line lines IH]; intros st; simpl fold_left.
  - unfold cue_names. simpl. now rewrite app_nil_r.
  - rewrite IH, step_names, <- app_assoc.
    now rewrite <- (cue_names_app [line] lines).
Qed.

Lemma parse_names (scriptText : jsstring) :
  map speakerClean (parseScriptContent U scriptText)
  = cue_names U (split_char 0x0A scriptText).
Proof. unfold parseScriptContent, run. now rewrite fold_names. Qed.

Lemma cue_names_length (lines : list jsstring) :
  length (cue_names U lines) = length (filter (is_accepted_cue U) lines).
Proof.
  induction lines as [|line lines IH]; [reflexivity|].
  change (cue_names U (line :: lines))
    with (cue_names U ([line] ++ lines)).
  rewrite cue_names_app, length_app, IH.
  unfold cue_names, is_accepted_cue. simpl.
  destruct (accepted_cue U line); reflexivity.
Qed.

Lemma cue_names_valid (lines : list jsstring) :
  Forall (fun n => n <> [] /\ isMetadataLine U n = false) (cue_names U lines).
Proof.
  induction lines as [|line lines IH]; [constructor|].
  change (cue_names U (line :: lines))
    with (cue_names U ([line] ++ lines)).
  rewrite cue_names_app. apply Forall_app. split; [|exact IH].
  unfold cue_names. simpl.
  destruct (accepted_cue U line) as [p|] eqn:E; simpl; [|constructor].
  constructor; [|constructor]. eapply accepted_cue_valid; eassumption.
Qed.

(** C7. For every script, [parseScriptContent] emits exactly one
    [ParsedLine] per accepted speaker cue (as many records as there are
    accepted cue lines, carrying the sanitized names of those cues in order,
    so that continuation lines never change a [speakerClean]), and every
    emitted record has a non-empty [speakerClean] on which [isMetadataLine]
    returns false. *)
Theorem parse_one_record_per_cue (scriptText : jsstring) :
  let lines := split_char 0x0A scriptText in
  let out := parseScriptContent U scriptText in
  length out = length (filter (is_accepted_cue U) lines)
  /\ map speakerClean out = cue_names U lines
  /\ Forall (fun p => speakerClean p <> []
                      /\ isMetadataLine U (speakerClean p) = false) out.
Proof.
  cbv zeta. split; [|split].
  - rewrite <- cue_names_length, <- parse_names. now rewrite length_map.
  - apply parse_names.
  - pose proof (cue_names_valid (split_char 0x0A scriptText)) as H.
    rewrite <- parse_names in H. now apply Forall_map in H.
Qed.

(** Every rejection inside the [if (match)] block is a [continue]: the
    iteration ends with the loop state as it was. *)
Lemma rejected_line_skipped (st : state) (line : jsstring) :
  cue_verdict U line (trim line) = Rejected -> step U st line = st.
Proof.
  intros H. unfold step. rewrite H. now destruct (negb (nonempty (trim line))).
Qed.

Lemma header_rejection_rejects (line : jsstring) :
  header_rejection U line = true ->
  cue_verdict U line (trim line) = Rejected.
Proof.
  unfold header_rejection, cue_verdict.
  destruct (line_match (trim line)) as [[[g1 g2]|] isDash]; [|discriminate].
  cbv zeta.
  destruct (markdown_label (trim g1)); [reflexivity|]. simpl orb.
  destruct isDash.
  - unfold dash_rejects.
    generalize (gate_indent line) (gate_lowercase (trim g1))
               (gate_digit (trim g1)) (gate_starter U (trim g1))
               (gate_words (cleanSpeakerName U (trim g1)))
               (gate_dialogue_lower (trim g2)) (gate_bio U (trim g2))
               (gate_act (trim g1))
               (gate_caps U (cleanSpeakerName U (trim g1)) (trim g2)).
    intros [] [] [] [] [] [] [] [] []; simpl; intros H;
      try reflexivity; discriminate H.
  - intros ->. reflexivity.
Qed.

(** A line that leaves the [if (match)] block without a cue and without a
    [continue] reaches the continuation logic. *)
Lemma no_cue_continues (st : state) (line : jsstring) :
  nonempty (trim line) = true ->
  cue_verdict U line (trim line) = NoCue ->
  step U st line = continuation st (trim line).
Proof. intros Hne H. unfold step. now rewrite Hne, H. Qed.

(** The lines on which the cue test ends without a verdict are the
    unrecognised ones. *)
Lemma no_cue_characterised (line : jsstring) :
  cue_verdict U line (trim line) = NoCue <-> unrecognised U line.
Proof.
  unfold cue_verdict, unrecognised.
  destruct (line_match (trim line)) as [[[g1 g2]|] isDash]; [|tauto].
  cbv zeta.
  destruct (markdown_label (trim g1));
    [split; [discriminate | intros [? _]; discriminate]|].
  match goal with |- context [if ?c then Rejected else _] =>
    destruct c; [split; [discriminate | intros (_ & ? & _); discriminate]|]
  end.
  destruct (cleanSpeakerName U (trim g1)) as [|c r] eqn:E; simpl.
  - split; auto.
  - destruct (isMetadataLine U (c :: r)); simpl; split; auto;
      try discriminate.
    intros (_ & _ & [H|H]); discriminate.
Qed.

(** C1, as the code has it. A non-blank line whose split candidate is turned
    down as a header or as metadata (markdown label, digit or [#] in a colon
    label, or dash rejections 3, 7, 8 and 9) is skipped: the active record
    and the emitted records stay as they were and nothing is appended.  A
    line that leaves the cue test without a verdict (no split, or a candidate
    that passes every rejection with an empty or metadata label) falls
    through to the continuation logic: it is appended to the active dialogue
    unless it has one of the skipped forms. *)
Theorem header_line_skipped_other_lines_appended
  (st : state) (line : jsstring) :
  nonempty (trim line) = true ->
  (header_rejection U line = true -> step U st line = st)
  /\ (unrecognised U line ->
      forall cur,
        currentSpeaker st = Some cur ->
        continuation_skips (trim line) = false ->
        step U st line
        = {| parsedLines := parsedLines st;
             currentSpeaker := Some (append_dialogue cur (trim line)) |}).
Proof.
  intros Hne. split.
  - intros H. apply rejected_line_skipped. now apply header_rejection_rejects.
  - intros H cur Hcur Hskip. apply no_cue_characterised in H.
    rewrite (no_cue_continues st line Hne H).
    unfold continuation. now rewrite Hcur, Hskip.
Qed.

(** *** [cleanSpeakerName] *)

Lemma drop_ws_Forall (P : char -> Prop) (s : jsstring) :
  Forall P s -> Forall P (drop_ws s).
Proof.
  induction s as [|c r IH]; intros H; simpl; [constructor|].
  destruct (is_ws c); [apply IH; now inversion H | exact H].
Qed.

(** On a text whose characters are classified alike by the character class
    of the source and by the hyphen and dashes of the specification, the
    two separator searches agree. *)
Lemma separator_search_agrees (s : jsstring) :
  Forall (fun c => is_dash c = is_spec_dash c) s ->
  forall i, search_from separator_here i s
            = search_from spec_separator_here i s.
Proof.
  induction s as [|c r IH]; intros H i.
  - reflexivity.
  - assert (E : separator_here (c :: r) = spec_separator_here (c :: r)).
    { unfold separator_here, spec_separator_here.
      inversion H as [|? ? _ Hr]; subst.
      pose proof (drop_ws_Forall _ r Hr) as Hd.
      destruct (drop_ws r) as [|d [|w rest]]; try reflexivity.
      inversion Hd as [|? ? Ed _]; subst. now rewrite Ed. }
    cbn [search_from]. rewrite E.
    destruct (spec_separator_here (c :: r)); [reflexivity|].
    apply IH. now inversion H.
Qed.

(** The sanitizer does what the specification words say whenever the first
    separator does not start at index 0, on a label in which the character
    class of the source matches the hyphen and the dashes and nothing else
    (a label without U+00E2, U+20AC, U+201C, U+201D, en dash and em dash is
    one). *)
Lemma clean_truncates_away_from_start (raw : jsstring) :
  Forall (fun c => is_dash c = is_spec_dash c) (strip_parens false raw) ->
  separatorMatch (strip_parens false raw) <> Some 0%nat ->
  cleanSpeakerName U raw = spec_cleanSpeakerName U raw.
Proof.
  intros Hclass. unfold cleanSpeakerName, spec_cleanSpeakerName. cbv zeta.
  unfold separatorMatch, search.
  rewrite <- (separator_search_agrees _ Hclass 0%nat).
  destruct (search_from separator_here 0 (strip_parens false raw))
    as [[|index]|]; [congruence | reflexivity | reflexivity].
Qed.

(** *** [isMetadataLine] *)

(** C3, as the code has it. When the prefix, substring, regular-expression
    and cue-token rules all fail, the length heuristic classifies the name as
    noise exactly when splitting the lower-cased name on runs of white space
    or hyphens gives more than 4 pieces; with 4 pieces or fewer the verdict
    is that of the alpha-emptiness check. *)
Theorem length_rule_counts_hyphen_pieces (speakerClean : jsstring) :
  let lower := lowered U speakerClean in
  rule_prefix lower = false ->
  rule_contains lower = false ->
  rule_regex lower = false ->
  rule_cue lower = false ->
  ((4 < length (name_words lower))%nat ->
   isMetadataLine U speakerClean = true)
  /\ ((length (name_words lower) <= 4)%nat ->
      isMetadataLine U speakerClean = rule_no_alpha lower).
Proof.
  cbv zeta. intros H1 H2 H3 H4. unfold isMetadataLine.
  rewrite H1, H2, H4.
  unfold rule_regex in H3. apply orb_false_iff in H3 as [H3 Ho].
  apply orb_false_iff in H3 as [Ha Hs]. rewrite Ha, Hs, Ho.
  unfold rule_length. split; intros H.
  - apply Nat.ltb_lt in H. now rewrite H.
  - assert (E : (4 <? length (name_words (lowered U speakerClean)))%nat = false)
      by (apply Nat.ltb_ge; exact H).
    rewrite E. now destruct (rule_no_alpha (lowered U speakerClean)).
Qed.

End WithUnicode.

(** *** Evaluations on Basic Latin text *)

(** C1 fails as stated: with "Hero: Hello" active, the line
    "ACT 2: The Forest" is a colon candidate rejected for its digit and has
    none of the skipped forms, yet nothing is appended; the script of the two
    lines parses to the dialogue "Hello". *)
Lemma rejected_line_is_not_appended :
  let line := lit "ACT 2: The Forest" in
  nonempty (trim line) = true
  /\ cue_verdict basic_latin line (trim line) = Rejected
  /\ continuation_skips (trim line) = false
  /\ step basic_latin hero_active line = hero_active
  /\ step basic_latin hero_active line <> continuation hero_active (trim line)
  /\ map dialogue
       (parseScriptContent basic_latin
          (lit "Hero: Hello" ++ [0x0A] ++ lit "ACT 2: The Forest"))
     = [lit "Hello"].
Proof. vm_compute. repeat split; try reflexivity. discriminate. Qed.

Lemma header_line_skipped_other_lines_appended_witness :
  step basic_latin hero_active (lit "ACT 2: The Forest") = hero_active
  /\ step basic_latin hero_active (lit "bahut accha hai")
     = {| parsedLines := [];
          currentSpeaker :=
            Some (append_dialogue hero_line (lit "bahut accha hai")) |}.
Proof.
  split.
  - apply (header_line_skipped_other_lines_appended basic_latin hero_active
             (lit "ACT 2: The Forest")); reflexivity.
  - apply (header_line_skipped_other_lines_appended basic_latin hero_active
             (lit "bahut accha hai")); try reflexivity; exact I.
Defined.

(** The dash rejections of prose-like lines are [continue] statements as
    well.  With "Hero: Hello" active, the lines "and then - he died" (turned
    down for its lower-case start, rejection 2) and "Hero - went away"
    (turned down for its lower-case dialogue, rejection 6) are no header
    rejections and have none of the skipped forms, and both are dropped: the
    script parses to the dialogue "Hello".  The comments of the source call
    such a line a continuation sentence. *)
Example prose_like_line_is_dropped :
  let line := lit "and then - he died" in
  let other := lit "Hero - went away" in
  cue_verdict basic_latin line (trim line) = Rejected
  /\ cue_verdict basic_latin other (trim other) = Rejected
  /\ header_rejection basic_latin line = false
  /\ header_rejection basic_latin other = false
  /\ gate_lowercase (lit "and then") = true
  /\ gate_dialogue_lower (lit "went away") = true
  /\ continuation_skips (trim line) = false
  /\ continuation_skips (trim other) = false
  /\ step basic_latin hero_active line = hero_active
  /\ step basic_latin hero_active other = hero_active
  /\ map dialogue
       (parseScriptContent basic_latin
          (lit "Hero: Hello" ++ [0x0A] ++ line ++ [0x0A] ++ other))
     = [lit "Hello"].
Proof. vm_compute. repeat split; reflexivity. Qed.

(** C3 fails as stated: the sanitized name "Mary-Jane-Ann-Lee-Smith" passes
    rules 1 to 4, is one white-space-separated word and has letters, and is
    classified as noise by the length heuristic. *)
Lemma hyphenated_name_is_noise :
  let name := lit "Mary-Jane-Ann-Lee-Smith" in
  let lower := lowered basic_latin name in
  cleanSpeakerName basic_latin name = name
  /\ rule_prefix lower = false
  /\ rule_contains lower = false
  /\ rule_regex lower = false
  /\ rule_cue lower = false
  /\ length (split_runs is_ws lower) = 1%nat
  /\ spec_length_rule lower = false
  /\ rule_no_alpha lower = false
  /\ isMetadataLine basic_latin name = true.
Proof. vm_compute. repeat split; reflexivity. Qed.

Lemma length_rule_counts_hyphen_pieces_witness :
  isMetadataLine basic_latin (lit "Mary-Jane-Ann-Lee-Smith") = true
  /\ isMetadataLine basic_latin (lit "Hero")
     = rule_no_alpha (lowered basic_latin (lit "Hero")).
Proof.
  split.
  - apply (length_rule_counts_hyphen_pieces basic_latin
             (lit "Mary-Jane-Ann-Lee-Smith"));
      try reflexivity. vm_compute. lia.
  - apply (length_rule_counts_hyphen_pieces basic_latin (lit "Hero"));
      try reflexivity. vm_compute. lia.
Defined.

(** The three parsing scenarios of the specification. *)
Example parse_two_speakers :
  map (fun p => (speakerClean p, dialogue p))
      (parseScriptContent basic_latin
         (lit "Narrator: The sun rose." ++ newline
          ++ lit "Hero: I will find the treasure today!"))
  = [(lit "Narrator", lit "The sun rose.");
     (lit "Hero", lit "I will find the treasure today!")].
Proof. vm_compute. reflexivity. Qed.

Example parse_scene_header :
  map (fun p => (speakerClean p, dialogue p))
      (parseScriptContent basic_latin
         (lit "SCENE 1: A dark forest" ++ newline ++ lit "Hero: Who's there?"))
  = [(lit "Hero", lit "Who's there?")].
Proof. vm_compute. reflexivity. Qed.

Example parse_continuation :
  map (fun p => (speakerClean p, dialogue p))
      (parseScriptContent basic_latin
         (lit "Jethalal: Aaj ka topic hai..." ++ newline ++ lit "(laughs)"
          ++ newline ++ lit "bahut accha hai"))
  = [(lit "Jethalal", lit "Aaj ka topic hai... bahut accha hai")].
Proof. vm_compute. reflexivity. Qed.

Example sanitize_parenthetical :
  cleanSpeakerName basic_latin (lit "Tappu (smiling)( Kid Male Speaker )")
  = lit "Tappu"
  /\ cleanSpeakerName basic_latin (lit "Name - description") = lit "Name".
Proof. vm_compute. split; reflexivity. Qed.

(** C4 at the label "(aside) - Hero": once the parenthesized part is gone
    the text is " - Hero", the separator is found at index 0, and the name
    is not truncated: the result is "- Hero", where truncating at the
    separator gives the empty name.  The script line "(aside) - Hero: hi"
    reaches the sanitizer with this label and yields the speaker "- Hero". *)
Lemma separator_at_start_not_truncated :
  let raw := lit "(aside) - Hero" in
  strip_parens false raw = lit " - Hero"
  /\ separatorMatch (strip_parens false raw) = Some 0%nat
  /\ cleanSpeakerName basic_latin raw = lit "- Hero"
  /\ spec_cleanSpeakerName basic_latin raw = []
  /\ map speakerClean
       (parseScriptContent basic_latin (lit "(aside) - Hero: hi"))
     = [lit "- Hero"].
Proof. vm_compute. repeat split; reflexivity. Qed.

End ParserFacts.

(** ** Segment grouping and the synthesis loop *)

Module GeminiFacts.

Import Js ScriptParsing Gemini JsFacts Samples.
Local Open Scope N_scope.

(** *** Grouping *)

Lemma group_from_length (rawLines : list ParsedLine) :
  forall currentSegment segments,
    length (group_from currentSegment segments rawLines)
    = (length segments + 1
       + speaker_changes (speaker currentSegment) rawLines)%nat.
Proof.
  induction rawLines as [|line rest IH]; intros cur segs; simpl.
  - rewrite length_app. simpl. lia.
  - destruct (str_eqb (speakerClean line) (speaker cur)).
    + rewrite IH. reflexivity.
    + rewrite IH, length_app. simpl. lia.
Qed.

Lemma speaker_changes_le (rawLines : list ParsedLine) :
  forall previous, (speaker_changes previous rawLines <= length rawLines)%nat.
Proof.
  induction rawLines as [|line rest IH]; intros previous; simpl; [lia|].
  destruct (str_eqb (speakerClean line) previous).
  - specialize (IH previous). lia.
  - specialize (IH (speakerClean line)). lia.
Qed.

Lemma no_repeated_single (a : ParsedLine) : no_repeated_speaker [a].
Proof.
  intros i x y _ H. destruct i; simpl in H; [discriminate|].
  destruct i; discriminate.
Qed.

Lemma no_repeated_cons (a b : ParsedLine) (rest : list ParsedLine) :
  no_repeated_speaker (a :: b :: rest)
  <-> speakerClean a <> speakerClean b /\ no_repeated_speaker (b :: rest).
Proof.
  split.
  - intros H. split.
    + apply (H 0%nat); reflexivity.
    + intros i x y Hx Hy. apply (H (S i)); assumption.
  - intros [Hab H] [|i] x y Hx Hy.
    + simpl in Hx, Hy. injection Hx as <-. injection Hy as <-. exact Hab.
    + apply (H i); assumption.
Qed.

(** Every line after [a] starts a new segment exactly when no two
    consecutive lines of [a :: rest] share a speaker. *)
Lemma speaker_changes_all (rest : list ParsedLine) :
  forall a,
    speaker_changes (speakerClean a) rest = length rest
    <-> no_repeated_speaker (a :: rest).
Proof.
  induction rest as [|b rest IH]; intros a; simpl.
  - split; [intros _; apply no_repeated_single | reflexivity].
  - rewrite no_repeated_cons.
    destruct (str_eqb (speakerClean b) (speakerClean a)) eqn:E.
    + apply str_eqb_eq in E.
      pose proof (speaker_changes_le rest (speakerClean a)) as Hle.
      split; [lia | intros [Hne _]; congruence].
    + apply str_eqb_neq in E. rewrite <- IH.
      split.
      * intros H. split; [congruence | lia].
      * intros [_ H]. lia.
Qed.

(** C8. The grouping step never produces more segments than there are
    lines; it produces as many exactly when no two consecutive lines have the
    same [speakerClean]; and it maps the empty sequence to the empty
    sequence. *)
Theorem grouping_law (rawLines : list ParsedLine) :
  (length (groupSegments rawLines) <= length rawLines)%nat
  /\ (length (groupSegments rawLines) = length rawLines
      <-> no_repeated_speaker rawLines)
  /\ groupSegments [] = [].
Proof.
  split; [|split]; [| |reflexivity].
  - destruct rawLines as [|first rest]; simpl; [lia|].
    rewrite group_from_length. simpl.
    pose proof (speaker_changes_le rest (speakerClean first)). lia.
  - destruct rawLines as [|first rest]; simpl.
    + split; [|reflexivity]. intros _ i a b H. destruct i; discriminate.
    + rewrite group_from_length. simpl. rewrite <- speaker_changes_all. lia.
Qed.

(** Scenario 4 of the specification: Hero, Hero, Villain. *)
Example grouping_scenario :
  groupSegments [spoken "Hero" "One."; spoken "Hero" "Two.";
                 spoken "Villain" "Three."]
  = [{| speaker := lit "Hero"; text := lit "One. Two." |};
     {| speaker := lit "Villain"; text := lit "Three." |}].
Proof. reflexivity. Qed.

(** *** The voice map *)

Section WithUnicode.

Variable U : Unicode.

Lemma voiceMap_fold_none (characters : list Character) :
  forall (m : string_map VoiceName) (key : jsstring),
    map_get
      (fold_left (fun m c => map_set m (toLowerCase U (name c)) (voice c))
                 characters m) key = None
    <-> map_get m key = None
        /\ Forall (fun c => str_eqb (toLowerCase U (name c)) key = false)
                  characters.
Proof.
  induction characters as [|c rest IH]; intros m key; simpl.
  - split; [intros H; split; [exact H | constructor] | tauto].
  - rewrite IH. unfold map_set. simpl.
    destruct (str_eqb (toLowerCase U (name c)) key) eqn:E.
    + split; [intros [H _]; discriminate|].
      intros [_ H]. inversion H; subst. congruence.
    + split.
      * intros [H1 H2]. split; [exact H1 | now constructor].
      * intros [H1 H2]. inversion H2; subst. tauto.
Qed.

(** [voiceMap.get(segment.speaker.toLowerCase())] is [undefined] exactly
    when no character name matches the speaker case-insensitively. *)
Lemma voiceMap_get_none (characters : list Character) (who : jsstring) :
  map_get (voiceMap_of U characters) (toLowerCase U who) = None
  <-> cast U characters who = false.
Proof.
  unfold voiceMap_of. rewrite voiceMap_fold_none. simpl. unfold cast.
  split.
  - intros [_ H]. induction H as [|c rest Hc _ IH]; simpl; [reflexivity|].
    now rewrite Hc, IH.
  - intros H. split; [reflexivity|].
    induction characters as [|c rest IH]; [constructor|].
    simpl in H. apply orb_false_iff in H as [Hc Hrest].
    constructor; [exact Hc | now apply IH].
Qed.

(** *** The loop *)

Section Run.

Variable apiKey : jsstring.
Variable ai : provider.

Lemma process_segments_app (voiceMap : string_map VoiceName)
  (before rest : list DialogueSegment) :
  forall st,
    process_segments U ai voiceMap (before ++ rest) st
    = match process_segments U ai voiceMap before st with
      | Done st' => process_segments U ai voiceMap rest st'
      | Thrown e requests => Thrown e requests
      end.
Proof.
  induction before as [|s before IH]; intros st; simpl; [reflexivity|].
  destruct (process_segment U ai voiceMap s st); [apply IH | reflexivity].
Qed.

(** The retry loop only ever issues the request it was given. *)
Lemma attempt_requests (P : request -> Prop) (segment : DialogueSegment)
  (req : request) (fuel : nat) :
  forall st,
    Forall P (issued st) -> P req ->
    Forall P (requests_of (attempt U ai fuel segment req st)).
Proof.
  induction fuel as [|fuel IH]; intros st Hst Hreq; simpl; [exact Hst|].
  assert (Hsent : Forall P (issued st ++ [req]))
    by (apply Forall_app; split; [exact Hst | now constructor]).
  assert (Hcaught : forall error,
    Forall P (requests_of
      (if retryable U error
       then attempt U ai fuel segment req
              {| audioResults := audioResults st;
                 issued := issued st ++ [req] |}
       else Thrown error (issued st ++ [req])))).
  { intros error. destruct (retryable U error); [|exact Hsent].
    apply IH; [exact Hsent | exact Hreq]. }
  destruct (ai (length (issued st)) req) as [[audioData|]|error];
    try apply Hcaught.
  destruct (nonempty audioData); [exact Hsent | apply Hcaught].
Qed.

(** No request is ever issued for a speaker without a casting entry. *)
Lemma process_segment_requests (characters : list Character)
  (segment : DialogueSegment) (st : progress) :
  Forall (for_cast_speaker U characters) (issued st) ->
  Forall (for_cast_speaker U characters)
         (requests_of (process_segment U ai (voiceMap_of U characters)
                                       segment st)).
Proof.
  intros Hst. unfold process_segment.
  destruct (map_get (voiceMap_of U characters)
                    (toLowerCase U (speaker segment))) as [v|] eqn:E;
    [|exact Hst].
  destruct (negb (nonempty (clean_text (text segment)))); [exact Hst|].
  apply attempt_requests; [exact Hst|].
  unfold for_cast_speaker. simpl.
  destruct (cast U characters (speaker segment)) eqn:C; [reflexivity|].
  apply voiceMap_get_none in C. congruence.
Qed.

Lemma process_segments_requests (characters : list Character)
  (segments : list DialogueSegment) :
  forall st,
    Forall (for_cast_speaker U characters) (issued st) ->
    Forall (for_cast_speaker U characters)
           (requests_of (process_segments U ai (voiceMap_of U characters)
                                          segments st)).
Proof.
  induction segments as [|s rest IH]; intros st Hst; simpl; [exact Hst|].
  pose proof (process_segment_requests characters s st Hst) as H.
  destruct (process_segment U ai (voiceMap_of U characters) s st);
    [apply IH; exact H | exact H].
Qed.

(** The iteration of a segment whose speaker has no casting entry throws the
    unassigned-voice error and issues nothing. *)
Lemma unassigned_segment_throws (characters : list Character)
  (segment : DialogueSegment) (st : progress) :
  cast U characters (speaker segment) = false ->
  process_segment U ai (voiceMap_of U characters) segment st
  = Thrown (new_Error (unassigned_message (speaker segment))) (issued st).
Proof.
  intros C. apply voiceMap_get_none in C. unfold process_segment.
  now rewrite C.
Qed.

(** A run in which some segment has no casting entry never returns. *)
Lemma process_segments_uncast_throws (characters : list Character)
  (segments : list DialogueSegment) :
  forall st,
    Exists (fun s => cast U characters (speaker s) = false) segments ->
    exists e requests,
      process_segments U ai (voiceMap_of U characters) segments st
      = Thrown e requests.
Proof.
  induction segments as [|s rest IH]; intros st H; [inversion H|].
  simpl.
  destruct (cast U characters (speaker s)) eqn:C.
  - inversion H as [? ? Hs|? ? Hrest]; subst; [congruence|].
    destruct (process_segment U ai (voiceMap_of U characters) s st)
      as [st'|e requests]; [now apply IH | now exists e, requests].
  - rewrite (unassigned_segment_throws characters s st C). eauto.
Qed.

(** C6, as the code has it. With an API key configured, let [segment] be the
    first grouped segment whose speaker has no case-insensitive match among
    the characters' names.  The run never returns normally and never issues a
    request for a speaker without a match; and when every earlier segment is
    processed without an error, the run throws the error whose message names
    the speaker of [segment] and asks for 'Auto-Assign Voices', after the
    requests of the earlier segments and before any request for [segment]. *)
Theorem first_unassigned_speaker_aborts_run
  (script : jsstring) (characters : list Character)
  (before : list DialogueSegment) (segment : DialogueSegment)
  (after : list DialogueSegment) :
  apiKey <> [] ->
  groupSegments (parseScriptContent U script) = before ++ segment :: after ->
  Forall (fun s => cast U characters (speaker s) = true) before ->
  cast U characters (speaker segment) = false ->
  let run := generateDramaAudio U apiKey ai script characters in
  (exists e requests, run = Thrown e requests)
  /\ Forall (fun r => cast U characters (req_speaker r) = true)
            (requests_of run)
  /\ (forall st,
        process_segments U ai (voiceMap_of U characters) before start
        = Done st ->
        run = Thrown (new_Error (unassigned_message (speaker segment)))
                     (issued st)).
Proof.
  intros Hkey Hsegs Hbefore Hseg. cbv zeta. unfold generateDramaAudio.
  apply nonempty_true in Hkey. rewrite Hkey. simpl negb. cbv iota.
  rewrite Hsegs. split; [|split].
  - apply process_segments_uncast_throws.
    apply Exists_app. right. now constructor.
  - apply (process_segments_requests characters). constructor.
  - intros st Hst. rewrite process_segments_app, Hst. simpl.
    now rewrite (unassigned_segment_throws characters segment st Hseg).
Qed.

(** C10, as the code has it. A grouped segment whose speaker has a casting
    entry and whose cleaned text is empty is skipped when the loop reaches
    it: the iteration issues no request, adds no [AudioSegment] and raises
    no error, and the loop goes on with the next segment. *)
Theorem empty_segment_of_cast_speaker_skipped
  (characters : list Character) (segment : DialogueSegment)
  (rest : list DialogueSegment) (st : progress) :
  cast U characters (speaker segment) = true ->
  clean_text (text segment) = [] ->
  process_segment U ai (voiceMap_of U characters) segment st = Done st
  /\ process_segments U ai (voiceMap_of U characters) (segment :: rest) st
     = process_segments U ai (voiceMap_of U characters) rest st.
Proof.
  intros C Hempty.
  assert (H : process_segment U ai (voiceMap_of U characters) segment st
              = Done st).
  { unfold process_segment.
    destruct (map_get (voiceMap_of U characters)
                      (toLowerCase U (speaker segment))) as [v|] eqn:E.
    - now rewrite Hempty.
    - apply voiceMap_get_none in E. congruence. }
  split; [exact H|]. simpl. now rewrite H.
Qed.

End Run.

End WithUnicode.

(** *** Evaluations *)

(** C6 fails as stated: in the script "A: hi / B: yo" with no character
    cast, the segment of B has a speaker without a match, yet the error that
    the run throws names A, not B. *)
Lemma error_names_first_unassigned_speaker_only :
  let script := lit "A: hi" ++ newline ++ lit "B: yo" in
  let segment := {| speaker := lit "B"; text := lit "yo" |} in
  let run := generateDramaAudio basic_latin some_key (always_audio payload)
                                script [] in
  In segment (groupSegments (parseScriptContent basic_latin script))
  /\ cast basic_latin [] (speaker segment) = false
  /\ run = Thrown (new_Error (unassigned_message (lit "A"))) []
  /\ run <> Thrown (new_Error (unassigned_message (speaker segment))) [].
Proof.
  vm_compute. repeat split; try reflexivity.
  - right. left. reflexivity.
  - discriminate.
Qed.

(** An earlier failure of the provider, or a missing API key, also comes
    before the unassigned-voice error. *)
Lemma earlier_failure_comes_first :
  let script := lit "Hero: hi" ++ newline ++ lit "Ghost: boo" in
  let cast_list := [character "Hero" Kore] in
  generateDramaAudio basic_latin some_key always_fails script cast_list
  = Thrown (new_Error (lit "network down"))
           [{| req_text := lit "hi"; req_voice := Kore;
               req_speaker := lit "Hero"; req_traits := traits Kore |}]
  /\ generateDramaAudio basic_latin [] (always_audio payload) script cast_list
     = Thrown (new_Error (missing_key_message)) [].
Proof. vm_compute. split; reflexivity. Qed.

Lemma first_unassigned_speaker_aborts_run_witness :
  generateDramaAudio basic_latin some_key (always_audio payload)
    (lit "Hero: hi" ++ newline ++ lit "Ghost: boo") [character "Hero" Kore]
  = Thrown (new_Error (unassigned_message (lit "Ghost")))
           [{| req_text := lit "hi"; req_voice := Kore;
               req_speaker := lit "Hero"; req_traits := traits Kore |}].
Proof.
  assert (H := first_unassigned_speaker_aborts_run basic_latin
           some_key (always_audio payload)
           (lit "Hero: hi" ++ newline ++ lit "Ghost: boo")
           [character "Hero" Kore]
           [{| speaker := lit "Hero"; text := lit "hi" |}]
           {| speaker := lit "Ghost"; text := lit "boo" |} []).
  cbv zeta in H. destruct H as (_ & _ & H).
  - discriminate.
  - reflexivity.
  - repeat constructor.
  - reflexivity.
  - exact (H _ eq_refl).
Defined.

(** C10 fails as stated: the segment of "Ghost:" has an empty text, and with
    Ghost not cast its iteration raises the unassigned-voice error instead of
    skipping the segment. *)
Lemma empty_segment_of_unassigned_speaker_throws :
  let script := lit "Ghost:" ++ newline ++ lit "Hero: hi" in
  let cast_list := [character "Hero" Kore] in
  groupSegments (parseScriptContent basic_latin script)
  = [ghost_segment; {| speaker := lit "Hero"; text := lit "hi" |}]
  /\ clean_text (text ghost_segment) = []
  /\ process_segment basic_latin (always_audio payload)
       (voiceMap_of basic_latin cast_list) ghost_segment start
     = Thrown (new_Error (unassigned_message (lit "Ghost"))) []
  /\ generateDramaAudio basic_latin some_key (always_audio payload)
       script cast_list
     = Thrown (new_Error (unassigned_message (lit "Ghost"))) [].
Proof. vm_compute. repeat split; reflexivity. Qed.

(** With Ghost cast the same script returns one [AudioSegment] for two
    grouped segments. *)
Lemma skipped_segment_shortens_result :
  let script := lit "Ghost:" ++ newline ++ lit "Hero: hi" in
  let cast_list := [character "Ghost" Puck; character "Hero" Kore] in
  length (groupSegments (parseScriptContent basic_latin script)) = 2%nat
  /\ exists st,
       generateDramaAudio basic_latin some_key (always_audio payload)
                          script cast_list = Done st
       /\ audioResults st
          = [{| audio := payload; audio_speaker := lit "Hero" |}]
       /\ length (issued st) = 1%nat.
Proof. split; [reflexivity|]. eexists. vm_compute. repeat split. Qed.

Lemma empty_segment_of_cast_speaker_skipped_witness :
  process_segment basic_latin (always_audio payload)
    (voiceMap_of basic_latin [character "Ghost" Puck; character "Hero" Kore])
    ghost_segment start = Done start.
Proof.
  apply (empty_segment_of_cast_speaker_skipped basic_latin
           (always_audio payload)
           [character "Ghost" Puck; character "Hero" Kore]
           ghost_segment [] start); reflexivity.
Defined.

End GeminiFacts.

(** ** The audio utilities *)

Module AudioFacts.

Import Audio Samples.
Local Open Scope nat_scope.

Lemma update_length {A} (f : A -> A) (l : list A) :
  forall i, length (update i f l) = length l.
Proof.
  induction l as [|x l IH]; intros [|i]; simpl; try reflexivity.
  now rewrite IH.
Qed.

Lemma update_Forall {A} (P : A -> Prop) (f : A -> A) (l : list A) :
  (forall x, P x -> P (f x)) ->
  forall i, Forall P l -> Forall P (update i f l).
Proof.
  intros Hf. induction l as [|x l IH]; intros [|i] H; simpl;
    inversion H; subst; constructor; auto.
Qed.

Lemma typed_set_fits {A} (target source : list A) (offset : nat) :
  offset + length source <= length target ->
  exists target',
    typed_set target source offset = Ok target'
    /\ length target' = length target.
Proof.
  intros H. unfold typed_set.
  apply Nat.leb_le in H as Hb. rewrite Hb.
  eexists. split; [reflexivity|].
  rewrite !length_app, length_firstn, length_skipn. lia.
Qed.

Section Concatenate.

Context {T : Type}.
Variable zero : T.
Variable ctx : AudioContext.

Lemma getChannelData_length (b : AudioBuffer T) (c : nat) :
  well_formed ctx b -> c < numberOfChannels b ->
  length (getChannelData b c) = bufLength b.
Proof.
  intros [_ _ _ Hdata] Hc. unfold getChannelData.
  rewrite Forall_nth in Hdata. now apply Hdata.
Qed.

Lemma totalLength_from (buffers : list (AudioBuffer T)) :
  forall acc,
    fold_left (fun acc b => acc + bufLength b) buffers acc
    = acc + totalLength buffers.
Proof.
  unfold totalLength.
  induction buffers as [|b rest IH]; intros acc; simpl; [lia|].
  rewrite IH, (IH (bufLength b)). lia.
Qed.

Lemma totalLength_cons (b : AudioBuffer T) (rest : list (AudioBuffer T)) :
  totalLength (b :: rest) = bufLength b + totalLength rest.
Proof. unfold totalLength. simpl. now rewrite totalLength_from. Qed.

(** The writes of one input buffer fit, and leave every channel of the
    result at its length. *)
Lemma write_channels_fits (buffer : AudioBuffer T) (offset n : nat)
  (resultChannels : list (list T)) :
  well_formed ctx buffer ->
  offset + bufLength buffer <= n ->
  Forall (fun ch => length ch = n) resultChannels ->
  forall channel,
  exists written,
    write_channels buffer offset channel resultChannels = Ok written
    /\ Forall (fun ch => length ch = n) written
    /\ length written = length resultChannels.
Proof.
  intros Hwf Hfit Hall.
  induction Hall as [|resultData rest Hlen _ IH]; intros channel; simpl.
  - exists []. repeat split. constructor.
  - assert (Hset : exists resultData',
               (if channel <? numberOfChannels buffer
                then typed_set resultData (getChannelData buffer channel) offset
                else if numberOfChannels buffer =? 1
                     then typed_set resultData (getChannelData buffer 0) offset
                     else Ok resultData) = Ok resultData'
               /\ length resultData' = n).
    { destruct (channel <? numberOfChannels buffer) eqn:Hc.
      - apply Nat.ltb_lt in Hc.
        destruct (typed_set_fits resultData (getChannelData buffer channel)
                                 offset) as (t & Ht & Hl).
        + rewrite (getChannelData_length buffer channel Hwf Hc). lia.
        + exists t. split; [exact Ht | congruence].
      - destruct (numberOfChannels buffer =? 1) eqn:H1.
        + apply Nat.eqb_eq in H1.
          destruct (typed_set_fits resultData (getChannelData buffer 0)
                                   offset) as (t & Ht & Hl).
          * rewrite (getChannelData_length buffer 0 Hwf); lia.
          * exists t. split; [exact Ht | congruence].
        + exists resultData. split; [reflexivity | exact Hlen]. }
    destruct Hset as (resultData' & -> & Hlen').
    destruct (IH (S channel)) as (rest' & -> & Hall' & Hcount).
    exists (resultData' :: rest'). repeat split.
    + now constructor.
    + simpl. now rewrite Hcount.
Qed.

Lemma write_buffers_fits (buffers : list (AudioBuffer T)) (n : nat) :
  Forall (well_formed ctx) buffers ->
  forall offset resultChannels,
    offset + totalLength buffers <= n ->
    Forall (fun ch => length ch = n) resultChannels ->
    exists written,
      write_buffers buffers offset resultChannels = Ok written
      /\ Forall (fun ch => length ch = n) written
      /\ length written = length resultChannels.
Proof.
  induction 1 as [|buffer rest Hwf _ IH]; intros offset chans Hfit Hall;
    simpl.
  - exists chans. repeat split. exact Hall.
  - rewrite totalLength_cons in Hfit.
    destruct (write_channels_fits buffer offset n chans Hwf) with (channel := 0)
      as (chans' & -> & Hall' & Hcount); [lia | exact Hall |].
    destruct (IH (offset + bufLength buffer) chans') as (w & -> & Hw & Hc);
      [lia | exact Hall' |].
    exists w. repeat split; [exact Hw | congruence].
Qed.

(** C5, as the code has it. For every non-empty list of buffers of the
    context, whatever their sample rates, [concatenateAudioBuffers] raises no
    error: it returns a new buffer with the sample rate and the channel count
    of the first buffer and with the sum of the input lengths as its length.
    The sample rates of the other buffers are never compared. *)
Theorem concatenate_ignores_sample_rates
  (first : AudioBuffer T) (others : list (AudioBuffer T)) :
  Forall (well_formed ctx) (first :: others) ->
  exists res ctx',
    concatenateAudioBuffers zero (first :: others) ctx = Ok (res, ctx')
    /\ sampleRate res = sampleRate first
    /\ numberOfChannels res = numberOfChannels first
    /\ bufLength res = totalLength (first :: others)
    /\ Forall (fun ch => length ch = bufLength res) (channels res)
    /\ ident res = allocated ctx.
Proof.
  intros Hall. inversion Hall as [|? ? Hfirst Hothers]; subst.
  destruct Hfirst as [Hch Hlen Hrate Hdata].
  unfold concatenateAudioBuffers, createBuffer.
  assert (Htotal : 1 <= totalLength (first :: others))
    by (rewrite totalLength_cons; lia).
  destruct (numberOfChannels first =? 0) eqn:E0;
    [apply Nat.eqb_eq in E0; lia|].
  destruct (totalLength (first :: others) =? 0) eqn:E1;
    [apply Nat.eqb_eq in E1; lia|].
  rewrite Hrate. simpl orb. cbv iota. cbv beta. simpl channels.
  destruct (write_buffers_fits (first :: others)
              (totalLength (first :: others)) Hall 0
              (repeat (repeat zero (totalLength (first :: others)))
                      (numberOfChannels first)))
    as (filled & Hfilled & Hlens & Hcount).
  - lia.
  - apply Forall_forall. intros ch Hin. apply repeat_spec in Hin. subst.
    apply repeat_length.
  - rewrite Hfilled. eexists. eexists. split; [reflexivity|].
    simpl. repeat split.
    + unfold numberOfChannels at 1. simpl. rewrite Hcount.
      apply repeat_length.
    + exact Hlens.
Qed.

End Concatenate.

(** C5 fails as stated: a 24000 Hz buffer followed by a 48000 Hz buffer is
    concatenated without any error into a 24000 Hz buffer. *)
Lemma mismatched_rates_concatenate_silently :
  let a := mono 24000 [1; 2]%Z in
  let b := mono 48000 [3; 4; 5]%Z in
  sampleRate a <> sampleRate b
  /\ concatenateAudioBuffers 0%Z [a; b] browser
     = Ok ({| ident := 1;
              bufLength := 5;
              sampleRate := 24000;
              channels := [[1; 2; 3; 4; 5]%Z] |},
           {| ctxSampleRate := 48000;
              minSampleRate := 8000;
              maxSampleRate := 96000;
              allocated := 2 |}).
Proof. split; [discriminate | reflexivity]. Qed.

Lemma mono_well_formed {T} (rate : N) (x : T) (data : list T) :
  supportsRate browser rate = true ->
  well_formed browser (mono rate (x :: data)).
Proof.
  intros H. constructor.
  - unfold numberOfChannels. simpl. lia.
  - simpl. lia.
  - exact H.
  - simpl. constructor; [reflexivity | constructor].
Qed.

Lemma concatenate_ignores_sample_rates_witness :
  exists res ctx',
    concatenateAudioBuffers 0%Z
      [mono 24000 [1; 2]%Z; mono 48000 [3; 4; 5]%Z] browser = Ok (res, ctx')
    /\ sampleRate res = 24000%N
    /\ numberOfChannels res = 1
    /\ bufLength res = 5
    /\ Forall (fun ch => length ch = bufLength res) (channels res)
    /\ ident res = 1.
Proof.
  apply (concatenate_ignores_sample_rates 0%Z browser
           (mono 24000 [1; 2]%Z) [mono 48000 [3; 4; 5]%Z]).
  repeat constructor; apply mono_well_formed; reflexivity.
Defined.

(** *** [resampleBuffer] *)

Section Resample.

Context {F : Type} {num : Number F}.

Lemma fold_store_length {A} (f : list A -> nat -> list A) (indices : list nat) :
  (forall out i, length (f out i) = length out) ->
  forall out, length (fold_left f indices out) = length out.
Proof.
  intros Hf. induction indices as [|i rest IH]; intros out; simpl;
    [reflexivity|].
  now rewrite IH, Hf.
Qed.

Lemma resample_channel_length (input output : list F) (rate newLength : F) :
  length (resample_channel input output rate newLength) = length output.
Proof.
  unfold resample_channel. apply fold_store_length.
  intros out i. destruct (flt (of_Z (Z.of_nat i)) newLength);
    [apply update_length | reflexivity].
Qed.

Lemma resample_channels_shape (buffer : AudioBuffer F) (rate newLength : F)
  (n : nat) (outputs : list (list F)) :
  Forall (fun ch => length ch = n) outputs ->
  Forall (fun ch => length ch = n)
         (resample_channels buffer outputs rate newLength)
  /\ length (resample_channels buffer outputs rate newLength)
     = length outputs.
Proof.
  unfold resample_channels.
  generalize (seq 0 (numberOfChannels buffer)) as cs.
  intros cs. revert outputs.
  induction cs as [|c cs IH]; intros outputs H; simpl; [now split|].
  destruct (IH (update c
                  (fun output =>
                     resample_channel (getChannelData buffer c) output
                                      rate newLength) outputs)) as [H1 H2].
  - apply update_Forall; [|exact H].
    intros ch Hch. now rewrite resample_channel_length.
  - split; [exact H1|]. now rewrite H2, update_length.
Qed.

(** At rate 1.0 the function returns its argument. *)
Lemma resample_at_rate_one
  (buffer : AudioBuffer F) (rate : F) (ctx : AudioContext) :
  feq rate (of_Q 1) = true ->
  resampleBuffer buffer rate ctx = Ok (buffer, ctx).
Proof. intros H. unfold resampleBuffer. now rewrite H. Qed.

(** At another rate, when [newLength] is the Number of an integer [k >= 1]
    that [createBuffer] reads as [k], the function returns a new buffer of
    [k] frames. *)
Lemma resample_new_buffer
  (buffer : AudioBuffer F) (rate : F) (ctx : AudioContext) (k : Z) :
  well_formed ctx buffer ->
  feq rate (of_Q 1) = false ->
  newLength_of buffer rate = of_Z k ->
  (1 <= k)%Z ->
  to_unsigned_long (of_Z k) = Z.to_nat k ->
  exists out ctx',
    resampleBuffer buffer rate ctx = Ok (out, ctx')
    /\ of_Z (Z.of_nat (bufLength out)) = newLength_of buffer rate
    /\ numberOfChannels out = numberOfChannels buffer
    /\ sampleRate out = sampleRate buffer
    /\ Forall (fun ch => length ch = bufLength out) (channels out)
    /\ ident out = allocated ctx
    /\ allocated ctx' = S (allocated ctx).
Proof.
  intros [Hch Hlen Hrate Hdata] Hne Hq Hk Hconv.
  unfold resampleBuffer. rewrite Hne, Hq, Hconv.
  unfold createBuffer.
  destruct (numberOfChannels buffer =? 0) eqn:E0;
    [apply Nat.eqb_eq in E0; lia|].
  destruct (Z.to_nat k =? 0) eqn:E1; [apply Nat.eqb_eq in E1; lia|].
  rewrite Hrate. simpl orb. cbv iota.
  destruct (resample_channels_shape buffer rate (of_Z k) (Z.to_nat k)
              (repeat (repeat (of_Z 0) (Z.to_nat k))
                      (numberOfChannels buffer))) as [Hshape Hcount].
  { apply Forall_forall. intros ch Hin. apply repeat_spec in Hin. subst.
    apply repeat_length. }
  eexists. eexists. split; [reflexivity|]. simpl.
  repeat split.
  + f_equal. lia.
  + unfold numberOfChannels at 1. simpl. rewrite Hcount.
    apply repeat_length.
  + exact Hshape.
Qed.

End Resample.

(** *** Binary64 arithmetic

    Facts about the operations of [SpecFloat] at precision 53 that the
    length law of [resampleBuffer] rests on. *)

Section Doubles.

Local Open Scope Z_scope.

Lemma digits2_pos_bounds (p : positive) :
  2 ^ (Zpos (digits2_pos p) - 1) <= Zpos p < 2 ^ Zpos (digits2_pos p).
Proof.
  induction p as [p IH|p IH|]; cbn [digits2_pos].
  - rewrite Pos2Z.inj_succ, (Pos2Z.inj_xI p).
    replace (Z.succ (Zpos (digits2_pos p)) - 1)
      with (Z.succ (Zpos (digits2_pos p) - 1)) by lia.
    rewrite !Z.pow_succ_r by lia.
    revert IH. generalize (2 ^ (Zpos (digits2_pos p) - 1))
                          (2 ^ Zpos (digits2_pos p)). lia.
  - rewrite Pos2Z.inj_succ, (Pos2Z.inj_xO p).
    replace (Z.succ (Zpos (digits2_pos p)) - 1)
      with (Z.succ (Zpos (digits2_pos p) - 1)) by lia.
    rewrite !Z.pow_succ_r by lia.
    revert IH. generalize (2 ^ (Zpos (digits2_pos p) - 1))
                          (2 ^ Zpos (digits2_pos p)). lia.
  - simpl. lia.
Qed.

Lemma digits2_pos_unique (p : positive) (d : Z) :
  2 ^ (d - 1) <= Zpos p < 2 ^ d -> Zpos (digits2_pos p) = d.
Proof.
  intros [Hlo Hhi]. pose proof (digits2_pos_bounds p) as [Blo Bhi].
  assert (Hd : 0 < d).
  { destruct (Z.ltb_spec 0 d) as [|Hn]; [assumption|].
    destruct (Z.eqb_spec d 0) as [->|]; [simpl in Hhi; lia|].
    rewrite Z.pow_neg_r in Hhi by lia. lia. }
  destruct (Z.lt_trichotomy (Zpos (digits2_pos p)) d) as [H|[H|H]];
    [|exact H|].
  - assert (2 ^ Zpos (digits2_pos p) <= 2 ^ (d - 1))
      by (apply Z.pow_le_mono_r; lia). lia.
  - assert (2 ^ d <= 2 ^ (Zpos (digits2_pos p) - 1))
      by (apply Z.pow_le_mono_r; lia). lia.
Qed.

Lemma iter_xO_value (d p : positive) :
  Zpos (Pos.iter xO p d) = Zpos p * 2 ^ Zpos d.
Proof.
  induction d as [|d IH] using Pos.peano_ind.
  - simpl. lia.
  - rewrite Pos.iter_succ, Pos2Z.inj_succ, Z.pow_succ_r by lia.
    rewrite (Pos2Z.inj_xO (Pos.iter xO p d)), IH. lia.
Qed.

(** A mantissa of 53 binary digits. *)
Lemma normal_bounds (m : positive) :
  Zpos (digits2_pos m) = 53 -> 2 ^ 52 <= Zpos m < 2 ^ 53.
Proof.
  intros H. pose proof (digits2_pos_bounds m) as B. rewrite H in B. exact B.
Qed.

Lemma fexp_normal (z : Z) : -1021 <= z -> fexp 53 1024 z = z - 53.
Proof. unfold fexp, emin. lia. Qed.

Lemma shr_m_of_loc (m : Z) (l : location) : shr_m (shr_record_of_loc m l) = m.
Proof. destruct l as [|[]]; reflexivity. Qed.

Lemma loc_of_loc (m : Z) (l : location) :
  loc_of_shr_record (shr_record_of_loc m l) = l.
Proof. destruct l as [|[]]; reflexivity. Qed.

Lemma round_nearest_even_cases (m : Z) (l : location) :
  round_nearest_even m l = m \/ round_nearest_even m l = m + 1.
Proof.
  destruct l as [|[]]; simpl; auto. destruct (Z.even m); auto.
Qed.

(** A mantissa of 53 digits is not shifted. *)
Lemma shr_fexp_53 (q : positive) (e : Z) (l : location) :
  Zpos (digits2_pos q) = 53 -> -1074 <= e ->
  shr_fexp 53 1024 (Zpos q) e l = (shr_record_of_loc (Zpos q) l, e).
Proof.
  intros Hq He. unfold shr_fexp. cbn [Zdigits2]. rewrite Hq.
  rewrite fexp_normal by lia.
  replace (53 + e - 53 - e) with 0 by lia. reflexivity.
Qed.

(** A mantissa of 54 digits is shifted by one place. *)
Lemma shr_fexp_54 (q : positive) (e : Z) (l : location) :
  Zpos (digits2_pos q) = 54 -> -1074 <= e ->
  shr_fexp 53 1024 (Zpos q) e l = (shr_1 (shr_record_of_loc (Zpos q) l), e + 1).
Proof.
  intros Hq He. unfold shr_fexp. cbn [Zdigits2]. rewrite Hq.
  rewrite fexp_normal by lia.
  replace (54 + e - 53 - e) with 1 by lia. reflexivity.
Qed.

(** After rounding, the mantissa has 53 digits or is 2^53. *)
Lemma shr_fexp_fit (m1 : positive) (e : Z) :
  Zpos (digits2_pos m1) = 53 \/ Zpos m1 = 2 ^ 53 ->
  -1074 <= e ->
  exists (m : positive) (j : Z),
    shr_fexp 53 1024 (Zpos m1) e loc_Exact
    = ({| shr_m := Zpos m; shr_r := false; shr_s := false |}, e + j)
    /\ 0 <= j <= 1
    /\ Zpos (digits2_pos m) = 53
    /\ Zpos m * 2 ^ j = Zpos m1.
Proof.
  intros [H|H] He.
  - exists m1, 0. rewrite (shr_fexp_53 m1 e loc_Exact H He), Z.add_0_r.
    repeat split; try lia; exact H.
  - assert (E : m1 = 9007199254740992%positive)
      by (apply Pos2Z.inj; rewrite H; reflexivity).
    subst m1. exists 4503599627370496%positive, 1.
    rewrite shr_fexp_54 by (try reflexivity; lia).
    repeat split; try lia; reflexivity.
Qed.

(** Rounding a mantissa of 53 or 54 digits to nearest even gives a mantissa
    of 53 digits, at most two places up, whose value is at most one unit
    below and two units above. *)
Lemma binary_round_aux_bounds (q : positive) (e : Z) (l : location) :
  2 ^ 52 <= Zpos q < 2 ^ 54 -> -1074 <= e <= 960 ->
  exists (m : positive) (j : Z),
    binary_round_aux 53 1024 false (Zpos q) e l = S754_finite false m (e + j)
    /\ 0 <= j <= 2
    /\ Zpos (digits2_pos m) = 53
    /\ Zpos q - 1 <= Zpos m * 2 ^ j <= Zpos q + 2.
Proof.
  intros Hq He.
  destruct (Z.ltb_spec (Zpos q) (2 ^ 53)) as [Hlt|Hge].
  - (* 53 digits *)
    assert (Hd : Zpos (digits2_pos q) = 53)
      by (apply digits2_pos_unique; change (53 - 1) with 52; lia).
    unfold binary_round_aux. rewrite (shr_fexp_53 q e l Hd) by lia.
    rewrite shr_m_of_loc, loc_of_loc.
    pose proof (normal_bounds q Hd) as Bq.
    destruct (round_nearest_even_cases (Zpos q) l) as [E|E]; rewrite E.
    + destruct (shr_fexp_fit q e (or_introl Hd)) as (m & j & Hs & Hj & Hm & Hv);
        [lia|].
      rewrite Hs. cbn [shr_m].
      replace (e + j <=? 1024 - 53) with true by (symmetry; apply Z.leb_le; lia).
      exists m, j. repeat split; try lia; assumption.
    + assert (Hp : Zpos q + 1 = Zpos (q + 1)) by lia. rewrite Hp.
      assert (Hc : Zpos (digits2_pos (q + 1)) = 53 \/ Zpos (q + 1) = 2 ^ 53).
      { destruct (Z.eqb_spec (Zpos (q + 1)) (2 ^ 53)) as [|Hn]; [now right|].
        left. apply digits2_pos_unique. change (53 - 1) with 52. lia. }
      destruct (shr_fexp_fit (q + 1) e Hc) as (m & j & Hs & Hj & Hm & Hv);
        [lia|].
      rewrite Hs. cbn [shr_m].
      replace (e + j <=? 1024 - 53) with true by (symmetry; apply Z.leb_le; lia).
      exists m, j. repeat split; try lia; assumption.
  - (* 54 digits *)
    assert (Hd : Zpos (digits2_pos q) = 54)
      by (apply digits2_pos_unique; change (54 - 1) with 53; lia).
    unfold binary_round_aux. rewrite (shr_fexp_54 q e l Hd) by lia.
    assert (Hh : exists (h : positive) r s,
               shr_1 (shr_record_of_loc (Zpos q) l)
               = {| shr_m := Zpos h; shr_r := r; shr_s := s |}
               /\ 2 * Zpos h <= Zpos q <= 2 * Zpos h + 1).
    { destruct q as [h|h|]; [| |simpl in Hge; lia];
        destruct l as [|[]]; simpl; eexists; eexists; eexists;
        (split; [reflexivity|lia]). }
    destruct Hh as (h & r & s & Eh & Bh). rewrite Eh. cbn [shr_m].
    assert (Hdh : Zpos (digits2_pos h) = 53)
      by (apply digits2_pos_unique; change (53 - 1) with 52; lia).
    pose proof (normal_bounds h Hdh) as Bq.
    destruct (round_nearest_even_cases (Zpos h)
                (loc_of_shr_record {| shr_m := Zpos h; shr_r := r; shr_s := s |}))
      as [E|E]; rewrite E.
    + destruct (shr_fexp_fit h (e + 1) (or_introl Hdh))
        as (m & j & Hs & Hj & Hm & Hv); [lia|].
      rewrite Hs. cbn [shr_m].
      replace (e + 1 + j <=? 1024 - 53) with true
        by (symmetry; apply Z.leb_le; lia).
      exists m, (1 + j). rewrite Z.add_assoc.
      repeat split; try lia; try assumption;
        rewrite Z.pow_add_r by lia; change (2 ^ 1) with 2; lia.
    + assert (Hp : Zpos h + 1 = Zpos (h + 1)) by lia. rewrite Hp.
      assert (Hc : Zpos (digits2_pos (h + 1)) = 53 \/ Zpos (h + 1) = 2 ^ 53).
      { destruct (Z.eqb_spec (Zpos (h + 1)) (2 ^ 53)) as [|Hn]; [now right|].
        left. apply digits2_pos_unique. change (53 - 1) with 52. lia. }
      destruct (shr_fexp_fit (h + 1) (e + 1) Hc)
        as (m & j & Hs & Hj & Hm & Hv); [lia|].
      rewrite Hs. cbn [shr_m].
      replace (e + 1 + j <=? 1024 - 53) with true
        by (symmetry; apply Z.leb_le; lia).
      exists m, (1 + j). rewrite Z.add_assoc.
      repeat split; try lia; try assumption;
        rewrite Z.pow_add_r by lia; change (2 ^ 1) with 2; lia.
Qed.

Lemma binary_round_aux_exact (s : bool) (m : positive) (e : Z) :
  Zpos (digits2_pos m) = 53 -> -1074 <= e <= 971 ->
  binary_round_aux 53 1024 s (Zpos m) e loc_Exact = S754_finite s m e.
Proof.
  intros Hm He. unfold binary_round_aux.
  rewrite (shr_fexp_53 m e loc_Exact Hm) by lia. cbn.
  rewrite (shr_fexp_53 m e loc_Exact Hm) by lia. cbn.
  replace (e <=? 971) with true by (symmetry; apply Z.leb_le; lia).
  reflexivity.
Qed.

(** A positive integer below 2^53 with a sign, as a double: the integer
    shifted to a mantissa of 53 digits. *)
Lemma binary_round_shape (s : bool) (p : positive) :
  Zpos p < 2 ^ 53 ->
  exists (m : positive) (t : Z),
    binary_round 53 1024 s p 0 = S754_finite s m (- t)
    /\ 0 <= t <= 52
    /\ Zpos (digits2_pos m) = 53
    /\ Zpos m = Zpos p * 2 ^ t.
Proof.
  intros Hk.
  pose proof (digits2_pos_bounds p) as Bp.
  set (d := Zpos (digits2_pos p)) in *.
  assert (Hd : 1 <= d <= 53).
  { split; [unfold d; lia|].
    destruct (Z.leb_spec d 53) as [|Hgt]; [assumption|].
    assert (2 ^ 53 <= 2 ^ (d - 1)) by (apply Z.pow_le_mono_r; lia). lia. }
  unfold binary_round.
  fold d. rewrite fexp_normal by lia. unfold shl_align.
  replace (d + 0 - 53 - 0) with (d - 53) by lia.
  destruct (d - 53) as [|delta|delta] eqn:E; try lia.
  - rewrite binary_round_aux_exact by (fold d; lia).
    exists p, 0. repeat split; try lia; fold d; lia.
  - assert (Hv : Zpos (Pos.iter xO p delta) = Zpos p * 2 ^ (53 - d)).
    { rewrite iter_xO_value. f_equal. f_equal. lia. }
    assert (Hpow : 2 ^ (d - 1) * 2 ^ (53 - d) = 2 ^ 52)
      by (rewrite <- Z.pow_add_r by lia; f_equal; lia).
    assert (Hpow' : 2 ^ d * 2 ^ (53 - d) = 2 ^ 53)
      by (rewrite <- Z.pow_add_r by lia; f_equal; lia).
    assert (Hpos : 0 < 2 ^ (53 - d)) by (apply Z.pow_pos_nonneg; lia).
    assert (Hn : Zpos (digits2_pos (Pos.iter xO p delta)) = 53).
    { apply digits2_pos_unique. rewrite Hv. change (53 - 1) with 52.
      rewrite <- Hpow, <- Hpow'. split.
      - apply Z.mul_le_mono_nonneg_r; lia.
      - apply Z.mul_lt_mono_pos_r; lia. }
    rewrite binary_round_aux_exact by (try exact Hn; lia).
    exists (Pos.iter xO p delta), (53 - d).
    repeat split; try lia; try assumption. f_equal. lia.
Qed.

(** An integer between 1 and 2^53 as a double. *)
Lemma b64_of_Z_shape (k : Z) :
  1 <= k < 2 ^ 53 ->
  exists (m : positive) (t : Z),
    b64_of_Z k = S754_finite false m (- t)
    /\ 0 <= t <= 52
    /\ Zpos (digits2_pos m) = 53
    /\ Zpos m = k * 2 ^ t.
Proof.
  intros Hk. destruct k as [|p|p]; try lia.
  apply (binary_round_shape false p). lia.
Qed.

Lemma b64_truncate_of_Z (k : Z) :
  0 <= k < 2 ^ 53 -> b64_truncate (b64_of_Z k) = k.
Proof.
  intros Hk. destruct (Z.eqb_spec k 0) as [->|Hn]; [reflexivity|].
  destruct (b64_of_Z_shape k) as (m & t & E & Ht & _ & Hv); [lia|].
  rewrite E. unfold b64_truncate, b64_signed.
  destruct (Z.leb_spec 0 (- t)) as [H0|H0].
  - replace t with 0 in * by lia. simpl in *. lia.
  - simpl cond_Zopp. rewrite Z.opp_involutive, Hv.
    apply Z.div_mul. apply Z.pow_nonzero; lia.
Qed.

(** The quotient of two positive doubles with normal mantissas: the
    truncated quotient [q] of the mantissas, rounded. *)
Lemma SFdiv_normal (mx my : positive) (ex ey : Z) :
  Zpos (digits2_pos mx) = 53 -> Zpos (digits2_pos my) = 53 ->
  -900 <= ex - ey <= 900 ->
  exists (q : Z) (m : positive) (j : Z),
    SFdiv 53 1024 (S754_finite false mx ex) (S754_finite false my ey)
    = S754_finite false m (ex - ey - 53 + j)
    /\ 0 <= j <= 2
    /\ Zpos (digits2_pos m) = 53
    /\ q - 1 <= Zpos m * 2 ^ j <= q + 2
    /\ q * Zpos my <= Zpos mx * 2 ^ 53 < (q + 1) * Zpos my.
Proof.
  intros Hx Hy He.
  pose proof (normal_bounds mx Hx) as Bx.
  pose proof (normal_bounds my Hy) as By.
  unfold SFdiv, SFdiv_core_binary. cbn [Zdigits2 xorb]. rewrite Hx, Hy.
  rewrite fexp_normal by lia.
  replace (Z.min (53 + ex - (53 + ey) - 53) (ex - ey)) with (ex - ey - 53)
    by lia.
  replace (ex - ey - (ex - ey - 53)) with 53 by lia.
  cbv iota. rewrite Z.shiftl_mul_pow2 by lia.
  pose proof (Z_div_mod (Zpos mx * 2 ^ 53) (Zpos my) eq_refl) as D.
  destruct (Z.div_eucl (Zpos mx * 2 ^ 53) (Zpos my)) as [q r].
  destruct D as [D Hr].
  assert (Hq : 2 ^ 52 <= q < 2 ^ 54).
  { change (2 ^ 52) with 4503599627370496 in *.
    change (2 ^ 53) with 9007199254740992 in *.
    change (2 ^ 54) with 18014398509481984. nia. }
  destruct q as [|pq|pq]; try (change (2 ^ 52) with 4503599627370496 in Hq; lia).
  destruct (binary_round_aux_bounds pq (ex - ey - 53) (new_location (Zpos my) r))
    as (m & j & E & Hj & Hm & Hv); [exact Hq | lia |].
  exists (Zpos pq), m, j. rewrite E.
  repeat split; try lia; assumption.
Qed.

(** A double in the pitch range. *)
Lemma pitch_range_shape (rate : spec_float) :
  valid_binary 53 1024 rate = true ->
  in_pitch_range rate = true ->
  exists (my : positive) (ey : Z),
    rate = S754_finite false my ey
    /\ Zpos (digits2_pos my) = 53
    /\ (ey = -53 \/ ey = -52).
Proof.
  intros Hvalid Hrange.
  change (in_pitch_range rate)
    with (SFleb (b64_of_Q (4 # 5)) rate && SFleb rate (b64_of_Q (6 # 5)))
    in Hrange.
  assert (E08 : b64_of_Q (4 # 5) = S754_finite false 7205759403792794 (-53))
    by (vm_compute; reflexivity).
  assert (E12 : b64_of_Q (6 # 5) = S754_finite false 5404319552844595 (-52))
    by (vm_compute; reflexivity).
  rewrite E08, E12 in Hrange. clear E08 E12.
  apply andb_true_iff in Hrange as [Hlo Hhi].
  destruct rate as [s|s| |s my ey]; try discriminate.
  - destruct s; discriminate.
  - destruct s; [discriminate|].
    unfold SFleb, SFcompare in Hlo, Hhi.
    assert (He : ey = -53 \/ ey = -52).
    { destruct (Z.compare_spec (-53) ey), (Z.compare_spec ey (-52));
        try discriminate; lia. }
    exists my, ey. repeat split; [|exact He].
    cbn [valid_binary] in Hvalid. unfold bounded, canonical_mantissa in Hvalid.
    apply andb_true_iff in Hvalid as [Hc _]. apply Z.eqb_eq in Hc.
    unfold fexp, emin in Hc. lia.
Qed.

(** The rounded quotient of a frame count below 2^31 by a double of the
    pitch range is an integer between 1 and 2^32 - 1. *)
Lemma b64_rounded_quotient (n : Z) (rate : spec_float) :
  1 <= n < 2 ^ 31 ->
  valid_binary 53 1024 rate = true ->
  in_pitch_range rate = true ->
  exists k : Z,
    1 <= k < 2 ^ 32
    /\ b64_round (SFdiv 53 1024 (b64_of_Z n) rate) = b64_of_Z k.
Proof.
  intros Hn Hvalid Hrange.
  destruct (pitch_range_shape rate Hvalid Hrange) as (my & ey & -> & Hy & Hey).
  destruct (b64_of_Z_shape n) as (mx & t & -> & Ht & Hx & Hvx);
    [change (2 ^ 53) with 9007199254740992;
     change (2 ^ 31) with 2147483648 in Hn; lia|].
  pose proof (normal_bounds mx Hx) as Bx.
  pose proof (normal_bounds my Hy) as By.
  assert (HP : 0 < 2 ^ t) by (apply Z.pow_pos_nonneg; lia).
  assert (Ht22 : 22 <= t).
  { destruct (Z.leb_spec 22 t) as [|Hlt]; [assumption|].
    assert (2 ^ t <= 2 ^ 21) by (apply Z.pow_le_mono_r; lia).
    change (2 ^ 52) with 4503599627370496 in *.
    change (2 ^ 21) with 2097152 in *.
    change (2 ^ 31) with 2147483648 in *. nia. }
  destruct (SFdiv_normal mx my (- t) ey Hx Hy)
    as (q & m & j & -> & Hj & Hm & Hv & Hq); [lia|].
  pose proof (normal_bounds m Hm) as Bm.
  set (e := - t - ey - 53 + j).
  assert (He : -53 <= e <= -20) by (unfold e; lia).
  unfold b64_round.
  destruct (Z.leb_spec 0 e) as [|_]; [lia|].
  exists ((2 * b64_signed false m + 2 ^ (- e)) / 2 ^ (1 - e)).
  split; [|reflexivity].
  unfold b64_signed. simpl cond_Zopp.
  replace (1 - e) with (Z.succ (- e)) by lia.
  rewrite Z.pow_succ_r by lia.
  assert (HE : 2 ^ (- e) * 2 ^ j = 2 ^ (t + ey + 53))
    by (rewrite <- Z.pow_add_r by lia; f_equal; unfold e; lia).
  assert (HEpos : 0 < 2 ^ (- e)) by (apply Z.pow_pos_nonneg; lia).
  assert (HE52 : 2 ^ (- e) <= 2 ^ 53) by (apply Z.pow_le_mono_r; lia).
  assert (Hjpos : 0 < 2 ^ j) by (apply Z.pow_pos_nonneg; lia).
  assert (Hup : Zpos m * 2 ^ j <= 4294967295 * (2 ^ (- e) * 2 ^ j)).
  { rewrite HE.
    assert (Hnt : Zpos mx <= 2147483647 * 2 ^ t)
      by (rewrite Hvx; apply Z.mul_le_mono_nonneg_r; lia).
    assert (Hq0 : 0 <= q) by nia.
    destruct Hey as [-> | ->].
    - replace (t + -53 + 53) with t by lia.
      assert (Hmy : 7205759403792794 <= Zpos my).
      { change (in_pitch_range (S754_finite false my (-53)))
          with (SFleb (b64_of_Q (4 # 5)) (S754_finite false my (-53))
                && SFleb (S754_finite false my (-53)) (b64_of_Q (6 # 5)))
          in Hrange.
        apply andb_true_iff in Hrange as [Hlo _].
        assert (E08 : b64_of_Q (4 # 5)
                      = S754_finite false 7205759403792794 (-53))
          by (vm_compute; reflexivity).
        rewrite E08 in Hlo. clear E08. unfold SFleb, SFcompare in Hlo.
        cbn [Z.compare Pos.compare Pos.compare_cont] in Hlo.
        change (Pos.compare_cont Eq 7205759403792794 my)
          with (Pos.compare 7205759403792794 my) in Hlo.
        destruct (Pos.compare_spec 7205759403792794 my);
          try discriminate; lia. }
      assert (q * 7205759403792794 <= q * Zpos my)
        by (apply Z.mul_le_mono_nonneg_l; lia).
      change (2 ^ 53) with 9007199254740992 in *.
      revert Hnt HP. generalize (2 ^ t). intros P Hnt HP. lia.
    - replace (t + -52 + 53) with (Z.succ t) by lia.
      rewrite Z.pow_succ_r by lia.
      assert (q * 2 ^ 52 <= q * Zpos my)
        by (apply Z.mul_le_mono_nonneg_l; lia).
      change (2 ^ 52) with 4503599627370496 in *.
      change (2 ^ 53) with 9007199254740992 in *.
      revert Hnt HP. generalize (2 ^ t). intros P Hnt HP. lia. }
  assert (Hm' : Zpos m <= 4294967295 * 2 ^ (- e)).
  { apply Z.mul_le_mono_pos_r with (p := 2 ^ j); [exact Hjpos|].
    rewrite <- Z.mul_assoc. exact Hup. }
  change (2 ^ 52) with 4503599627370496 in *.
  change (2 ^ 53) with 9007199254740992 in *.
  change (2 ^ 32) with 4294967296.
  split.
  - apply Z.div_le_lower_bound; lia.
  - apply Z.div_lt_upper_bound; lia.
Qed.

(** An unsigned 32-bit integer survives the conversion to a double and
    back. *)
Lemma b64_unsigned_long (k : Z) :
  0 <= k < 2 ^ 32 ->
  Z.to_nat (b64_truncate (b64_of_Z k) mod 2 ^ 32) = Z.to_nat k.
Proof.
  intros Hk. rewrite b64_truncate_of_Z, Z.mod_small; [reflexivity|lia|].
  change (2 ^ 53) with 9007199254740992.
  change (2 ^ 32) with 4294967296 in Hk. lia.
Qed.

End Doubles.

(** C9. [resampleBuffer] at rate 1.0 returns the buffer object it was given
    and allocates nothing.  At every other double [rate] of the pitch range
    0.8 to 1.2, for a buffer of the context with fewer than 2^31 frames, it
    returns a new buffer whose length is [Math.round(buffer.length / rate)],
    computed in binary64, and whose channel count and sample rate are those
    of the input. *)
Theorem resample_identity_and_length
  (buffer : AudioBuffer spec_float) (rate : spec_float) (ctx : AudioContext) :
  (feq rate (of_Q 1) = true ->
   resampleBuffer buffer rate ctx = Ok (buffer, ctx))
  /\ (is_double rate = true ->
      well_formed ctx buffer ->
      (Z.of_nat (bufLength buffer) < 2 ^ 31)%Z ->
      feq rate (of_Q 1) = false ->
      in_pitch_range rate = true ->
      exists out ctx',
        resampleBuffer buffer rate ctx = Ok (out, ctx')
        /\ of_Z (Z.of_nat (bufLength out))
           = Math_round (fdiv (of_Z (Z.of_nat (bufLength buffer))) rate)
        /\ numberOfChannels out = numberOfChannels buffer
        /\ sampleRate out = sampleRate buffer
        /\ Forall (fun ch => length ch = bufLength out) (channels out)
        /\ ident out = allocated ctx
        /\ allocated ctx' = S (allocated ctx)).
Proof.
  split; [apply resample_at_rate_one|].
  intros Hdouble Hwf Hbound Hne Hrange.
  destruct (b64_rounded_quotient (Z.of_nat (bufLength buffer)) rate)
    as (k & Hk & Hq);
    [destruct Hwf; lia | exact Hdouble | exact Hrange |].
  apply (resample_new_buffer buffer rate ctx k Hwf Hne Hq); [lia|].
  apply b64_unsigned_long. lia.
Qed.

Lemma ramp64_well_formed : well_formed browser ramp64.
Proof. apply mono_well_formed. reflexivity. Qed.

Lemma resample_identity_and_length_witness :
  resampleBuffer ramp64 (b64_of_Q 1) browser = Ok (ramp64, browser)
  /\ exists out ctx',
       resampleBuffer ramp64 (b64_of_Q (4 # 5)) browser = Ok (out, ctx')
       /\ of_Z (Z.of_nat (bufLength out))
          = Math_round (fdiv (of_Z (Z.of_nat (bufLength ramp64)))
                             (b64_of_Q (4 # 5)))
       /\ numberOfChannels out = numberOfChannels ramp64
       /\ sampleRate out = sampleRate ramp64
       /\ Forall (fun ch => length ch = bufLength out) (channels out)
       /\ ident out = allocated browser
       /\ allocated ctx' = S (allocated browser).
Proof.
  split.
  - apply (resample_identity_and_length ramp64 (b64_of_Q 1) browser).
    reflexivity.
  - apply (resample_identity_and_length ramp64 (b64_of_Q (4 # 5)) browser).
    + reflexivity.
    + exact ramp64_well_formed.
    + reflexivity.
    + reflexivity.
    + reflexivity.
Defined.

(** On doubles the quotient 2 / 0.8 rounds to 2.5, so two frames become
    [Math.round(2.5) = 3]; the four-frame ramp becomes five frames; and
    scenario 5 of the specification holds: 4800 frames become 6000 at rate
    0.8 and 4000 at rate 1.2. *)
Example resample_on_doubles :
  newLength_of pair64 (b64_of_Q (4 # 5)) = b64_of_Z 3
  /\ (exists out ctx',
        resampleBuffer ramp64 (b64_of_Q (4 # 5)) browser = Ok (out, ctx')
        /\ bufLength out = 5
        /\ b64_of_Z 5 = newLength_of ramp64 (b64_of_Q (4 # 5))
        /\ numberOfChannels out = 1
        /\ sampleRate out = 24000%N)
  /\ newLength_of (mono 24000 (repeat (b64_of_Z 0) 4800)) (b64_of_Q (4 # 5))
     = b64_of_Z 6000
  /\ newLength_of (mono 24000 (repeat (b64_of_Z 0) 4800)) (b64_of_Q (6 # 5))
     = b64_of_Z 4000.
Proof.
  split; [vm_compute; reflexivity|].
  split; [eexists; eexists; vm_compute; repeat split|].
  split; vm_compute; reflexivity.
Qed.

End AudioFacts.

(** ** The WAV encoder *)

Module WavFacts.

Import Audio Wav Samples.
Local Open Scope Q_scope.

Lemma Qltb_lt (a b : Q) : Qltb a b = true <-> a < b.
Proof.
  unfold Qltb. rewrite negb_true_iff. split.
  - intros H. apply Qnot_le_lt. intros Hle.
    apply Qle_bool_iff in Hle. congruence.
  - intros H. destruct (Qle_bool b a) eqn:E; [|reflexivity].
    apply Qle_bool_iff in E. lra.
Qed.

Lemma Qltb_ge (a b : Q) : Qltb a b = false <-> b <= a.
Proof.
  unfold Qltb. rewrite negb_false_iff. apply Qle_bool_iff.
Qed.

(** The clamp of a finite sample is finite and lies between -1 and 1. *)
Lemma clamp_finite (q : Q) :
  exists c, clamp (Finite q) = Finite c /\ -1 <= c <= 1
            /\ (q < -(1 # 2) -> c < -(1 # 2))
            /\ (0 <= q -> 0 <= c)
            /\ (-1 <= q <= 1 -> c = q).
Proof.
  unfold clamp, Math_min_1, Math_max_neg1.
  destruct (Qle_bool q 1) eqn:E1.
  - destruct (Qle_bool (-1) q) eqn:E2.
    + apply Qle_bool_iff in E1, E2. exists q.
      split; [reflexivity|]. repeat split; intros; try lra.
    + exists (-1). apply Qle_bool_iff in E1.
      assert (q < -1).
      { apply Qnot_le_lt. intros H. apply Qle_bool_iff in H. congruence. }
      split; [reflexivity|]. repeat split; intros; try lra.
  - assert (1 < q).
    { apply Qnot_le_lt. intros H. apply Qle_bool_iff in H. congruence. }
    exists 1. split; [reflexivity|]. repeat split; intros; try lra.
Qed.

(** Where the code and the wording of the specification agree: samples
    below -0.5 and samples from 0 upwards. *)
Lemma pcm16_agrees_outside_half (q : Q) :
  q < -(1 # 2) \/ 0 <= q -> pcm16 (Finite q) = spec_pcm16 (Finite q).
Proof.
  intros H. unfold pcm16, spec_pcm16.
  destruct (clamp_finite q) as (c & -> & _ & Hlow & Hhigh & _).
  unfold scale, spec_scale.
  destruct H as [H|H].
  - specialize (Hlow H).
    assert (E1 : Qltb ((1 # 2) + c) 0 = true) by (apply Qltb_lt; lra).
    assert (E2 : Qltb c 0 = true) by (apply Qltb_lt; lra).
    now rewrite E1, E2.
  - specialize (Hhigh H).
    assert (E1 : Qltb ((1 # 2) + c) 0 = false) by (apply Qltb_ge; lra).
    assert (E2 : Qltb c 0 = false) by (apply Qltb_ge; lra).
    now rewrite E1, E2.
Qed.

(** Where they differ: a sample from -0.5 up to 0 is multiplied by 32767. *)
Lemma pcm16_between_half_and_zero (q : Q) :
  -(1 # 2) <= q -> q < 0 ->
  pcm16 (Finite q) = ToInt32 (Finite (q * 32767))
  /\ spec_pcm16 (Finite q) = ToInt32 (Finite (q * 32768)).
Proof.
  intros H1 H2. unfold pcm16, spec_pcm16.
  destruct (clamp_finite q) as (c & -> & _ & _ & _ & Hc).
  rewrite Hc by lra. unfold scale, spec_scale.
  assert (E1 : Qltb ((1 # 2) + q) 0 = false) by (apply Qltb_ge; lra).
  assert (E2 : Qltb q 0 = true) by (apply Qltb_lt; lra).
  now rewrite E1, E2.
Qed.

(** C2 at a buffer of 45 frames of -0.25: the one frame that is written
    (frame 44, at byte 44) is stored as -8191, bytes 01 E0, where "times 32768
    when negative, truncated" gives -8192, bytes 00 E0. *)
Lemma quarter_sample_scaled_by_32767 :
  pcm16 (Finite (-1 # 4)) = (-8191)%Z
  /\ spec_pcm16 (Finite (-1 # 4)) = (-8192)%Z
  /\ exists bytes,
       audioBufferToWav quarter_below_zero = Ok bytes
       /\ length bytes = 134%nat
       /\ firstn 2 (skipn 44 bytes) = [1; 224]%Z
       /\ le_bytes 2 (-8192) = [0; 224]%Z.
Proof.
  split; [reflexivity|]. split; [reflexivity|].
  eexists. split; [vm_compute; reflexivity|]. repeat split.
Qed.

End WavFacts.


(** ** Further properties of the parser *)

Module ParserLaws.

Import Js ScriptParsing JsFacts ParserFacts ParserNotions Samples.
Local Open Scope N_scope.

(** *** Lines *)

Lemma split_char_aux_app (sep : char) (a b : jsstring) :
  forall cur,
    split_char_aux sep cur (a ++ sep :: b)
    = split_char_aux sep cur a ++ split_char_aux sep [] b.
Proof.
  induction a as [|c a IH]; intros cur; simpl.
  - now rewrite N.eqb_refl.
  - destruct (c =? sep); simpl; now rewrite IH.
Qed.

(** The lines of two texts joined by a newline are the lines of the first
    followed by the lines of the second. *)
Lemma lines_of_app (a b : jsstring) :
  lines_of (a ++ 0x0A :: b) = lines_of a ++ lines_of b.
Proof. apply split_char_aux_app. Qed.

Section WithUnicode.

Variable U : Unicode.

Lemma step_blank (st : state) (line : jsstring) :
  nonblank line = false -> step U st line = st.
Proof. unfold nonblank, step. now intros ->. Qed.

Lemma fold_skips_blank (lines : list jsstring) :
  forall st,
    fold_left (step U) (filter nonblank lines) st
    = fold_left (step U) lines st.
Proof.
  induction lines as [|line lines IH]; intros st; simpl; [reflexivity|].
  destruct (nonblank line) eqn:E; simpl.
  - apply IH.
  - now rewrite (step_blank st line E).
Qed.

(** X1. Blank lines carry no information: two scripts with the same
    non-blank lines, in the same order, parse to the same records. *)
Theorem blank_lines_do_not_matter (script1 script2 : jsstring) :
  filter nonblank (lines_of script1) = filter nonblank (lines_of script2) ->
  parseScriptContent U script1 = parseScriptContent U script2.
Proof.
  intros H. unfold parseScriptContent, run.
  change (split_char 0x0A script1) with (lines_of script1).
  change (split_char 0x0A script2) with (lines_of script2).
  now rewrite <- (fold_skips_blank (lines_of script1)),
              <- (fold_skips_blank (lines_of script2)), H.
Qed.

(** *** Emitted records are final *)

Lemma step_extends (st : state) (line : jsstring) :
  exists more, parsedLines (step U st line) = parsedLines st ++ more.
Proof.
  unfold step. destruct (negb (nonempty (trim line)));
    [exists []; now rewrite app_nil_r|].
  destruct (cue_verdict U line (trim line)) as [|p|].
  - exists []. now rewrite app_nil_r.
  - simpl. unfold push_current.
    destruct (currentSpeaker st) as [cur|];
      [now exists [cur] | exists []; now rewrite app_nil_r].
  - unfold continuation. destruct (currentSpeaker st) as [cur|];
      [destruct (continuation_skips (trim line))|];
      exists []; simpl; now rewrite app_nil_r.
Qed.

Lemma fold_extends (lines : list jsstring) :
  forall st,
    exists more,
      parsedLines (fold_left (step U) lines st) = parsedLines st ++ more.
Proof.
  induction lines as [|line lines IH]; intros st; simpl.
  - exists []. now rewrite app_nil_r.
  - destruct (IH (step U st line)) as (m2 & ->).
    destruct (step_extends st line) as (m1 & ->).
    exists (m1 ++ m2). now rewrite app_assoc.
Qed.

Lemma push_current_extends (st : state) :
  exists more, push_current st = parsedLines st ++ more.
Proof.
  unfold push_current. destruct (currentSpeaker st) as [cur|];
    [now exists [cur] | exists []; now rewrite app_nil_r].
Qed.

Lemma removelast_push_current (st : state) :
  exists more, parsedLines st = removelast (push_current st) ++ more.
Proof.
  unfold push_current. destruct (currentSpeaker st) as [cur|].
  - rewrite removelast_last. exists []. now rewrite app_nil_r.
  - destruct (parsedLines st) as [|p l] eqn:E using rev_ind.
    + now exists [].
    + rewrite removelast_last. now exists [p].
Qed.

(** X2. Text appended to a script never changes what was already emitted:
    every record of the shorter script but its last one (the record still
    open at the end of the text) is a record of the longer script, at the
    same position, and the speakers of the shorter script are the first
    speakers of the longer one. *)
Theorem appended_text_extends_parse (script more : jsstring) :
  (exists records,
     parseScriptContent U (script ++ 0x0A :: more)
     = removelast (parseScriptContent U script) ++ records)
  /\ (exists speakers,
        map speakerClean (parseScriptContent U (script ++ 0x0A :: more))
        = map speakerClean (parseScriptContent U script) ++ speakers).
Proof.
  split.
  - unfold parseScriptContent, run.
    change (split_char 0x0A (script ++ 0x0A :: more))
      with (lines_of (script ++ 0x0A :: more)).
    rewrite lines_of_app, fold_left_app.
    change (split_char 0x0A script) with (lines_of script).
    set (st := fold_left (step U) (lines_of script) initial).
    destruct (push_current_extends (fold_left (step U) (lines_of more) st))
      as (m3 & ->).
    destruct (fold_extends (lines_of more) st) as (m2 & ->).
    destruct (removelast_push_current st) as (m1 & ->).
    exists (m1 ++ m2 ++ m3). now rewrite !app_assoc.
  - rewrite !parse_names.
    change (split_char 0x0A (script ++ 0x0A :: more))
      with (lines_of (script ++ 0x0A :: more)).
    rewrite lines_of_app, cue_names_app. eauto.
Qed.

End WithUnicode.


(** *** Scripts without a colon or a dash *)

Lemma span_until_none (stop : char -> bool) (s : jsstring) :
  forallb (fun c => negb (stop c)) s = true -> span_until stop s = (s, []).
Proof.
  induction s as [|c s IH]; simpl; [reflexivity|].
  intros H. apply andb_prop in H as [Hc Hs].
  apply negb_true_iff in Hc. rewrite Hc, (IH Hs). reflexivity.
Qed.

Lemma forallb_drop_ws (P : char -> bool) (s : jsstring) :
  forallb P s = true -> forallb P (drop_ws s) = true.
Proof.
  induction s as [|c s IH]; simpl; [reflexivity|].
  intros H. destruct (is_ws c); [|exact H].
  apply andb_prop in H as [_ Hs]. auto.
Qed.

Lemma forallb_rev (P : char -> bool) (s : jsstring) :
  forallb P s = true -> forallb P (rev s) = true.
Proof.
  rewrite !forallb_forall. intros H x Hx. apply H. now apply in_rev.
Qed.

Lemma forallb_trim (P : char -> bool) (s : jsstring) :
  forallb P s = true -> forallb P (trim s) = true.
Proof.
  intros H. unfold trim.
  now apply forallb_rev, forallb_drop_ws, forallb_rev, forallb_drop_ws.
Qed.

Lemma colon_match_none (s : jsstring) :
  forallb (fun c => negb (c =? 0x3A)) s = true -> colon_match s = None.
Proof. intros H. unfold colon_match. now rewrite span_until_none. Qed.

Lemma dash_match_none (s : jsstring) :
  forallb (fun c => negb (is_dash c)) s = true -> dash_match s = None.
Proof. intros H. unfold dash_match. now rewrite span_until_none. Qed.

Lemma split_char_aux_forallb (P : char -> bool) (sep : char) (s : jsstring) :
  forall cur,
    forallb P cur = true -> forallb P s = true ->
    Forall (fun piece => forallb P piece = true) (split_char_aux sep cur s).
Proof.
  induction s as [|c s IH]; intros cur Hcur Hs; simpl.
  - constructor; [now apply forallb_rev | constructor].
  - simpl in Hs. apply andb_prop in Hs as [Hc Hs].
    destruct (c =? sep).
    + constructor; [now apply forallb_rev | now apply IH].
    + apply IH; [simpl; now rewrite Hc | exact Hs].
Qed.

Section BeforeFirstCue.

Variable U : Unicode.

(** Without an open record, a line that is not accepted as a cue leaves the
    loop state as it is. *)
Lemma step_before_first_cue (line : jsstring) :
  is_accepted_cue U line = false -> step U initial line = initial.
Proof.
  unfold is_accepted_cue, accepted_cue, step.
  destruct (nonempty (trim line)); simpl; [|reflexivity].
  destruct (cue_verdict U line (trim line)); [reflexivity|discriminate|reflexivity].
Qed.

Lemma fold_before_first_cue (lines : list jsstring) :
  Forall (fun line => is_accepted_cue U line = false) lines ->
  fold_left (step U) lines initial = initial.
Proof.
  induction 1 as [|line lines H _ IH]; simpl; [reflexivity|].
  now rewrite (step_before_first_cue line H).
Qed.

Lemma plain_line_is_no_cue (line : jsstring) :
  forallb (fun c => negb (c =? 0x3A)) line = true ->
  forallb (fun c => negb (is_dash c)) line = true ->
  is_accepted_cue U line = false.
Proof.
  intros Hc Hd. unfold is_accepted_cue, accepted_cue.
  destruct (nonempty (trim line)); [|reflexivity].
  unfold cue_verdict, line_match.
  rewrite (colon_match_none (trim line) (forallb_trim _ line Hc)).
  now rewrite (dash_match_none (trim line) (forallb_trim _ line Hd)).
Qed.

(** X3. A script that holds neither a colon nor a character of the dash
    class has no speaker cue: the parser returns no record at all, whatever
    else the text contains. *)
Theorem script_without_colon_or_dash_is_empty (script : jsstring) :
  forallb (fun c => negb (c =? 0x3A)) script = true ->
  forallb (fun c => negb (is_dash c)) script = true ->
  parseScriptContent U script = [].
Proof.
  intros Hc Hd. unfold parseScriptContent, run.
  rewrite fold_before_first_cue; [reflexivity|].
  assert (Hc' := split_char_aux_forallb _ 0x0A script [] eq_refl Hc).
  assert (Hd' := split_char_aux_forallb _ 0x0A script [] eq_refl Hd).
  unfold split_char. rewrite Forall_forall in *.
  intros line Hin. apply plain_line_is_no_cue; auto.
Qed.

(** X4. Text in front of the first accepted speaker cue is dropped: when no
    line of [before] is accepted as a cue, the script parses as if it
    started after it. *)
Theorem text_before_first_cue_is_dropped (before rest : jsstring) :
  Forall (fun line => is_accepted_cue U line = false) (lines_of before) ->
  parseScriptContent U (before ++ 0x0A :: rest) = parseScriptContent U rest.
Proof.
  intros H. unfold parseScriptContent, run.
  change (split_char 0x0A (before ++ 0x0A :: rest))
    with (lines_of (before ++ 0x0A :: rest)).
  now rewrite lines_of_app, fold_left_app, fold_before_first_cue.
Qed.

End BeforeFirstCue.

(** *** Trimmed fields *)

Lemma starts_ws_drop_ws (s : jsstring) : starts_ws (drop_ws s) = false.
Proof.
  induction s as [|c s IH]; simpl; [reflexivity|].
  destruct (is_ws c) eqn:E; [exact IH | simpl; exact E].
Qed.

Lemma drop_ws_fix (s : jsstring) : starts_ws s = false -> drop_ws s = s.
Proof. destruct s as [|c s]; simpl; [reflexivity | now intros ->]. Qed.

Lemma drop_ws_keeps_last (s : jsstring) (c : char) :
  is_ws c = false -> exists t, drop_ws (s ++ [c]) = t ++ [c].
Proof.
  intros Hc. induction s as [|d s IH]; simpl.
  - rewrite Hc. now exists [].
  - destruct (is_ws d); [exact IH | now exists (d :: s)].
Qed.

Lemma trim_trimmed (s : jsstring) : trimmed (trim s).
Proof.
  unfold trimmed, trim. rewrite rev_involutive. split.
  - destruct (drop_ws s) as [|c d] eqn:E; [reflexivity|].
    assert (Hc : is_ws c = false).
    { pose proof (starts_ws_drop_ws s) as H. now rewrite E in H. }
    simpl rev.
    destruct (drop_ws_keeps_last (rev d) c Hc) as (t & ->).
    rewrite rev_app_distr. simpl. exact Hc.
  - apply starts_ws_drop_ws.
Qed.

Lemma trimmed_fix (s : jsstring) : trimmed s -> trim s = s.
Proof.
  intros [Hs He]. unfold trim.
  now rewrite (drop_ws_fix s Hs), (drop_ws_fix (rev s) He), rev_involutive.
Qed.

Lemma starts_ws_app (a b : jsstring) :
  a <> [] -> starts_ws (a ++ b) = starts_ws a.
Proof. destruct a; [congruence | reflexivity]. Qed.

Lemma trimmed_join (a b : jsstring) :
  trimmed a -> trimmed b -> a <> [] -> b <> [] ->
  trimmed (a ++ lit " " ++ b).
Proof.
  intros [Ha _] [_ Hb] Na Nb. split.
  - now rewrite starts_ws_app.
  - rewrite !rev_app_distr, <- app_assoc. rewrite starts_ws_app; [exact Hb|].
    intros E. apply Nb. now rewrite <- (rev_involutive b), E.
Qed.


Section Trimmed.

Variable U : Unicode.

Lemma accepted_fields_trimmed (line t : jsstring) (p : ParsedLine) :
  cue_verdict U line t = Accepted p -> fields_trimmed p.
Proof.
  unfold cue_verdict.
  destruct (line_match t) as [[[g1 g2]|] isDash]; [|discriminate].
  cbv zeta. destruct (markdown_label (trim g1)); [discriminate|].
  destruct (if isDash then _ else _); [discriminate|].
  destruct (_ && _); [|discriminate].
  intros [= <-]. repeat split; simpl; try apply trim_trimmed;
    unfold cleanSpeakerName; cbv zeta; apply trim_trimmed.
Qed.

Lemma append_fields_trimmed (cur : ParsedLine) (line : jsstring) :
  fields_trimmed cur -> nonempty (trim line) = true ->
  fields_trimmed (append_dialogue cur (trim line)).
Proof.
  intros (Hr & Hc & Hd) Hn. repeat split; simpl; try apply Hr; try apply Hc;
    destruct (dialogue cur) as [|c d] eqn:E; simpl;
    try apply trim_trimmed.
  - change (starts_ws ((c :: d) ++ lit " " ++ trim line) = false).
    apply trimmed_join; try apply trim_trimmed; try congruence.
    destruct (trim line); [discriminate | congruence].
  - change (starts_ws (rev ((c :: d) ++ lit " " ++ trim line)) = false).
    apply trimmed_join; try apply trim_trimmed; try congruence.
    destruct (trim line); [discriminate | congruence].
Qed.


Lemma push_current_trimmed (st : state) :
  state_trimmed st -> Forall fields_trimmed (push_current st).
Proof.
  intros [Hl Hc]. unfold push_current.
  destruct (currentSpeaker st) as [cur|]; [|exact Hl].
  apply Forall_app; split; [exact Hl | constructor; [now apply Hc | constructor]].
Qed.

Lemma step_trimmed (st : state) (line : jsstring) :
  state_trimmed st -> state_trimmed (step U st line).
Proof.
  intros Hst. unfold step.
  destruct (nonempty (trim line)) eqn:Hn; simpl; [|exact Hst].
  destruct (cue_verdict U line (trim line)) as [|p|] eqn:Ev; [exact Hst| |].
  - split; simpl; [now apply push_current_trimmed|].
    intros cur [= <-]. eapply accepted_fields_trimmed; eauto.
  - unfold continuation. destruct (currentSpeaker st) as [cur|] eqn:Ec;
      [|exact Hst].
    destruct (continuation_skips (trim line)); [exact Hst|].
    split; simpl; [apply Hst|].
    intros cur' [= <-]. apply append_fields_trimmed; [|exact Hn].
    now apply Hst.
Qed.

Lemma fold_trimmed (lines : list jsstring) :
  forall st, state_trimmed st -> state_trimmed (fold_left (step U) lines st).
Proof.
  induction lines as [|line lines IH]; intros st Hst; simpl; [exact Hst|].
  apply IH, step_trimmed, Hst.
Qed.

(** X5. No record carries white space at the ends of its fields: the raw
    label, the sanitized name and the dialogue of every record are fixed
    points of [trim], also after continuation lines were appended. *)
Theorem record_fields_are_trimmed (script : jsstring) (p : ParsedLine) :
  In p (parseScriptContent U script) ->
  trim (speakerRaw p) = speakerRaw p
  /\ trim (speakerClean p) = speakerClean p
  /\ trim (dialogue p) = dialogue p.
Proof.
  intros Hin.
  assert (H : Forall fields_trimmed (parseScriptContent U script)).
  { apply push_current_trimmed, fold_trimmed. split; [constructor|].
    intros cur [=]. }
  rewrite Forall_forall in H. destruct (H p Hin) as (Hr & Hc & Hd).
  repeat split; now apply trimmed_fix.
Qed.

End Trimmed.


(** *** Instances on sample scripts *)

Lemma blank_lines_do_not_matter_witness :
  parseScriptContent basic_latin hero_script
  = parseScriptContent basic_latin hero_script_spaced.
Proof. apply blank_lines_do_not_matter. reflexivity. Defined.

Lemma script_without_colon_or_dash_is_empty_witness :
  parseScriptContent basic_latin prose = [].
Proof.
  apply script_without_colon_or_dash_is_empty; reflexivity.
Defined.

Lemma text_before_first_cue_is_dropped_witness :
  parseScriptContent basic_latin (prose ++ 0x0A :: hero_script)
  = parseScriptContent basic_latin hero_script.
Proof.
  apply text_before_first_cue_is_dropped.
  repeat constructor.
Defined.

Lemma record_fields_are_trimmed_witness :
  trim (speakerRaw hero_line) = speakerRaw hero_line
  /\ trim (speakerClean hero_line) = speakerClean hero_line
  /\ trim (dialogue hero_line) = dialogue hero_line.
Proof.
  apply (record_fields_are_trimmed basic_latin hero_script).
  vm_compute. left. reflexivity.
Defined.

End ParserLaws.

(** ** Further properties of the synthesis run *)

Module SynthesisFacts.

Import Js ScriptParsing Gemini JsFacts GeminiFacts GeminiNotions Samples.
Import ParserNotions.
Local Open Scope N_scope.

(** *** Grouping *)

Lemma neighbours_differ_snoc (names : list jsstring) (a b : jsstring) :
  neighbours_differ (names ++ [a]) = true -> a <> b ->
  neighbours_differ ((names ++ [a]) ++ [b]) = true.
Proof.
  intros H Hab. induction names as [|n names IH]; simpl.
  - apply str_eqb_neq in Hab. now rewrite Hab.
  - simpl in H. destruct (names ++ [a]) as [|m rest] eqn:E.
    + now destruct names.
    + simpl. apply andb_prop in H as [H1 H2]. rewrite H1. simpl.
      apply IH. exact H2.
Qed.

Lemma group_from_neighbours (rawLines : list ParsedLine) :
  forall currentSegment segments,
    neighbours_differ (map speaker (segments ++ [currentSegment])) = true ->
    neighbours_differ
      (map speaker (group_from currentSegment segments rawLines)) = true.
Proof.
  induction rawLines as [|line rest IH]; intros cur segs H; simpl;
    [exact H|].
  destruct (str_eqb (speakerClean line) (speaker cur)) eqn:E.
  - apply IH. rewrite map_app in *. exact H.
  - apply IH. rewrite map_app in H. rewrite !map_app.
    apply str_eqb_neq in E.
    apply (neighbours_differ_snoc (map speaker segs) (speaker cur));
      [exact H | simpl; congruence].
Qed.

(** X6. Grouping merges maximal runs: no two neighbouring segments have the
    same speaker. *)
Theorem neighbouring_segments_differ (rawLines : list ParsedLine) :
  neighbours_differ (map speaker (groupSegments rawLines)) = true.
Proof.
  destruct rawLines as [|first rest]; [reflexivity|].
  apply group_from_neighbours. reflexivity.
Qed.

Lemma join_space_cons (a b : jsstring) (rest : list jsstring) :
  join_space (a :: b :: rest) = a ++ 0x20 :: join_space (b :: rest).
Proof. reflexivity. Qed.

Lemma join_space_merge (x y : jsstring) (after : list jsstring) :
  forall before,
    join_space (before ++ (x ++ lit " " ++ y) :: after)
    = join_space (before ++ x :: y :: after).
Proof.
  assert (Base : join_space ((x ++ lit " " ++ y) :: after)
                 = join_space (x :: y :: after)).
  { change (lit " ") with [0x20]. destruct after as [|r after]; simpl.
    - reflexivity.
    - now rewrite <- app_assoc. }
  induction before as [|a before IH]; [exact Base|].
  destruct before as [|b before].
  - simpl app. rewrite (join_space_cons a x), !join_space_cons.
    f_equal. f_equal. rewrite <- join_space_cons. exact Base.
  - simpl app. rewrite !(join_space_cons a b). f_equal. f_equal. exact IH.
Qed.

Lemma group_from_text (rawLines : list ParsedLine) :
  forall currentSegment segments,
    join_space (map text (group_from currentSegment segments rawLines))
    = join_space (map text (segments ++ [currentSegment])
                  ++ map dialogue rawLines).
Proof.
  induction rawLines as [|line rest IH]; intros cur segs; simpl.
  - now rewrite app_nil_r.
  - destruct (str_eqb (speakerClean line) (speaker cur)).
    + rewrite IH, !map_app, <- !app_assoc. simpl.
      apply join_space_merge.
    + rewrite IH, !map_app, <- !app_assoc. reflexivity.
Qed.

(** X7. Grouping loses no dialogue and keeps its order: the texts of the
    segments, joined by single spaces, are the dialogues of the lines joined
    by single spaces. *)
Theorem grouping_preserves_dialogue (rawLines : list ParsedLine) :
  join_space (map text (groupSegments rawLines))
  = join_space (map dialogue rawLines).
Proof.
  destruct rawLines as [|first rest]; [reflexivity|].
  unfold groupSegments. now rewrite group_from_text.
Qed.

(** *** The voice map *)

Section WithUnicode.

Variable U : Unicode.

Lemma voiceMap_fold (characters : list Character) :
  forall m : string_map VoiceName,
    fold_left (fun m c => map_set m (toLowerCase U (name c)) (voice c))
              characters m
    = rev (map (fun c => (toLowerCase U (name c), voice c)) characters) ++ m.
Proof.
  induction characters as [|c rest IH]; intros m; simpl; [reflexivity|].
  rewrite IH. unfold map_set. now rewrite <- app_assoc.
Qed.

Lemma map_get_entries (characters : list Character) (key : jsstring) :
  map_get (map (fun c => (toLowerCase U (name c), voice c)) characters) key
  = option_map voice
      (find (fun c => str_eqb (toLowerCase U (name c)) key) characters).
Proof.
  induction characters as [|c rest IH]; simpl; [reflexivity|].
  destruct (str_eqb (toLowerCase U (name c)) key); [reflexivity | exact IH].
Qed.

(** X8. When several characters have the same name up to case, the voice
    map holds the voice of the last of them: a lookup returns the voice of
    the last character of the list whose lower-cased name is the key, and
    nothing when there is none. *)
Theorem voice_map_last_character_wins
  (characters : list Character) (key : jsstring) :
  map_get (voiceMap_of U characters) key
  = option_map voice (last_named U characters key).
Proof.
  unfold voiceMap_of, last_named.
  now rewrite voiceMap_fold, app_nil_r, <- map_rev, map_get_entries.
Qed.

(** *** The loop *)

Section Run.

Variable apiKey : jsstring.
Variable ai : provider.

(** A retry loop that ends well has added one [AudioSegment], with a
    payload that is not empty and the speaker of the segment. *)
Lemma attempt_done (segment : DialogueSegment) (req : request) (fuel : nat) :
  forall st st',
    attempt U ai fuel segment req st = Done st' ->
    exists audioData,
      audioData <> []
      /\ audioResults st'
         = audioResults st
           ++ [{| audio := audioData; audio_speaker := speaker segment |}].
Proof.
  induction fuel as [|fuel IH]; intros st st'; simpl; [discriminate|].
  assert (Hcaught : forall error,
    (if retryable U error
     then attempt U ai fuel segment req
            {| audioResults := audioResults st;
               issued := issued st ++ [req] |}
     else Thrown error (issued st ++ [req])) = Done st' ->
    exists audioData,
      audioData <> []
      /\ audioResults st'
         = audioResults st
           ++ [{| audio := audioData; audio_speaker := speaker segment |}]).
  { intros error. destruct (retryable U error); [|discriminate].
    intros H. apply IH in H. exact H. }
  destruct (ai (length (issued st)) req) as [[audioData|]|error];
    try apply Hcaught.
  destruct (nonempty audioData) eqn:E; [|apply Hcaught].
  intros [= <-]. exists audioData. split; [|reflexivity].
  now apply nonempty_true.
Qed.

Lemma process_segments_results (voiceMap : string_map VoiceName)
  (segments : list DialogueSegment) :
  forall st st',
    process_segments U ai voiceMap segments st = Done st' ->
    map audio_speaker (audioResults st')
    = map audio_speaker (audioResults st)
      ++ map speaker (filter spoken_segment segments)
    /\ (Forall (fun a => audio a <> []) (audioResults st) ->
        Forall (fun a => audio a <> []) (audioResults st')).
Proof.
  induction segments as [|s rest IH]; intros st st'.
  - simpl. intros [= <-]. rewrite app_nil_r. auto.
  - cbn [process_segments filter]. unfold process_segment.
    change (spoken_segment s) with (nonempty (clean_text (text s))).
    destruct (map_get voiceMap (toLowerCase U (speaker s))) as [v|];
      [|discriminate].
    destruct (nonempty (clean_text (text s))); cbn [negb].
    + destruct (attempt U ai MAX_RETRIES s _ st) as [st1|] eqn:E;
        [|discriminate].
      intros H. apply IH in H as [H1 H2].
      apply attempt_done in E as (audioData & Hne & E).
      rewrite E, map_app, <- app_assoc in H1. split; [exact H1|].
      intros Hst. apply H2. rewrite E. apply Forall_app; split; [exact Hst|].
      now repeat constructor.
    + apply IH.
Qed.

(** X9. A run that returns has produced one [AudioSegment] for every
    grouped segment whose cleaned text is not empty, in the order of the
    script and with the speaker of its segment, and none of the payloads is
    empty. *)
Theorem returned_audio_follows_script
  (script : jsstring) (characters : list Character)
  (results : list AudioSegment) :
  returned (generateDramaAudio U apiKey ai script characters) = Some results ->
  map audio_speaker results
  = map speaker
      (filter spoken_segment (groupSegments (parseScriptContent U script)))
  /\ Forall (fun a => audio a <> []) results.
Proof.
  unfold generateDramaAudio. destruct (negb (nonempty apiKey)); [discriminate|].
  cbv zeta.
  destruct (process_segments U ai (voiceMap_of U characters)
              (groupSegments (parseScriptContent U script)) start)
    as [st|] eqn:E; [|discriminate].
  intros [= <-]. apply process_segments_results in E as [H1 H2].
  split; [exact H1 | apply H2; constructor].
Qed.

(** The retry loop adds copies of its request to the requests issued
    before: at most [fuel] of them, and at least one when it ends well. *)
Lemma attempt_block (segment : DialogueSegment) (req : request) (fuel : nat) :
  forall st,
    exists count,
      (count <= fuel)%nat
      /\ requests_of (attempt U ai fuel segment req st)
         = issued st ++ repeat req count
      /\ (forall st', attempt U ai fuel segment req st = Done st' ->
            (1 <= count)%nat).
Proof.
  induction fuel as [|fuel IH]; intros st.
  - exists 0%nat. simpl. rewrite app_nil_r.
    split; [lia | split; [reflexivity | discriminate]].
  - cbn [attempt]. cbv zeta.
    assert (Hsent : exists count,
      (count <= S fuel)%nat
      /\ issued st ++ [req] = issued st ++ repeat req count
      /\ (1 <= count)%nat)
      by (exists 1%nat; simpl; repeat split; lia).
    assert (Hcaught : forall error,
      exists count,
        (count <= S fuel)%nat
        /\ requests_of
             (if retryable U error
              then attempt U ai fuel segment req
                     {| audioResults := audioResults st;
                        issued := issued st ++ [req] |}
              else Thrown error (issued st ++ [req]))
           = issued st ++ repeat req count
        /\ (forall st',
              (if retryable U error
               then attempt U ai fuel segment req
                      {| audioResults := audioResults st;
                         issued := issued st ++ [req] |}
               else Thrown error (issued st ++ [req])) = Done st' ->
              (1 <= count)%nat)).
    { intros error. destruct (retryable U error).
      - destruct (IH {| audioResults := audioResults st;
                        issued := issued st ++ [req] |})
          as (count & Hc & Hr & _).
        exists (S count). cbn [issued] in Hr.
        rewrite Hr, <- app_assoc. cbn [repeat app].
        split; [lia | split; [reflexivity | intros; lia]].
      - exists 1%nat. cbn [requests_of repeat].
        split; [lia | split; [reflexivity | discriminate]]. }
    destruct (ai (length (issued st)) req) as [[audioData|]|error];
      try apply Hcaught.
    destruct (nonempty audioData); [|apply Hcaught].
    exists 1%nat. cbn [requests_of issued repeat].
    split; [lia | split; [reflexivity | intros; lia]].
Qed.

(** Segments that are not reached get an empty block. *)
Lemma empty_blocks_within_budget (voiceMap : string_map VoiceName)
  (segments : list DialogueSegment) :
  within_budget U voiceMap segments (map (fun _ => []) segments)
  /\ concat (map (fun _ : DialogueSegment => @nil request) segments) = [].
Proof.
  induction segments as [|s rest [IH1 IH2]]; simpl.
  - split; [constructor | reflexivity].
  - split; [|exact IH2].
    constructor; [|exact IH1]. split; [simpl; lia | constructor].
Qed.

Lemma process_segments_blocks (voiceMap : string_map VoiceName)
  (segments : list DialogueSegment) :
  forall st,
    exists blocks,
      requests_of (process_segments U ai voiceMap segments st)
      = issued st ++ concat blocks
      /\ within_budget U voiceMap (filter spoken_segment segments) blocks
      /\ (forall st', process_segments U ai voiceMap segments st = Done st' ->
            Forall (fun block => 1 <= length block)%nat blocks).
Proof.
  induction segments as [|s rest IH]; intros st.
  - exists []. simpl. rewrite app_nil_r.
    split; [reflexivity | split; constructor].
  - cbn [process_segments filter]. unfold process_segment.
    change (spoken_segment s) with (nonempty (clean_text (text s))).
    destruct (map_get voiceMap (toLowerCase U (speaker s))) as [v|] eqn:Ev.
    + destruct (nonempty (clean_text (text s))) eqn:Es; cbn [negb].
      * set (req := {| req_text := clean_text (text s); req_voice := v;
                       req_speaker := speaker s; req_traits := traits v |}).
        assert (Hreq : segment_request U voiceMap s = Some req)
          by (unfold segment_request; now rewrite Ev).
        destruct (attempt_block s req MAX_RETRIES st)
          as (count & Hc & Hr & Hone).
        assert (Hblock : (length (repeat req count) <= MAX_RETRIES)%nat
                         /\ Forall (fun r => segment_request U voiceMap s
                                             = Some r) (repeat req count)).
        { rewrite repeat_length. split; [exact Hc|].
          apply Forall_forall. intros r Hin.
          apply repeat_spec in Hin. now subst. }
        destruct (attempt U ai MAX_RETRIES s req st) as [st1|e requests].
        -- destruct (IH st1) as (blocks & Hb & Hw & Hd).
           exists (repeat req count :: blocks).
           cbn [requests_of] in Hr. rewrite Hb, Hr, <- app_assoc.
           split; [reflexivity|]. split; [now constructor|].
           intros st' H. constructor; [|exact (Hd st' H)].
           rewrite repeat_length. now apply (Hone st1).
        -- destruct (empty_blocks_within_budget voiceMap
                       (filter spoken_segment rest)) as [Hw Hn].
           exists (repeat req count
                   :: map (fun _ => []) (filter spoken_segment rest)).
           cbn [requests_of concat] in *. rewrite Hn, app_nil_r.
           split; [exact Hr|]. split; [now constructor | discriminate].
      * apply IH.
    + destruct (empty_blocks_within_budget voiceMap
                  (if nonempty (clean_text (text s))
                   then s :: filter spoken_segment rest
                   else filter spoken_segment rest)) as [Hw Hn].
      exists (map (fun _ => [])
                  (if nonempty (clean_text (text s))
                   then s :: filter spoken_segment rest
                   else filter spoken_segment rest)).
      cbn [requests_of]. rewrite Hn, app_nil_r.
      split; [reflexivity|]. split; [exact Hw | discriminate].
Qed.

(** X10. The request budget of a run, segment by segment.  Whatever the
    provider answers, the requests of a run are those of consecutive blocks,
    one for each grouped segment whose cleaned text is not empty, in the
    order of the script (a segment that the run does not reach has an empty
    block); the block of a segment holds at most [MAX_RETRIES] requests,
    each of which is the request built for that segment; and in a run that
    returns every block holds at least one request. *)
Theorem request_budget (script : jsstring) (characters : list Character) :
  let segments :=
    filter spoken_segment (groupSegments (parseScriptContent U script)) in
  let run := generateDramaAudio U apiKey ai script characters in
  exists blocks : list (list request),
    requests_of run = concat blocks
    /\ within_budget U (voiceMap_of U characters) segments blocks
    /\ (forall results, returned run = Some results ->
          Forall (fun block => 1 <= length block)%nat blocks).
Proof.
  cbv zeta. unfold generateDramaAudio.
  destruct (negb (nonempty apiKey)).
  - destruct (empty_blocks_within_budget (voiceMap_of U characters)
                (filter spoken_segment
                   (groupSegments (parseScriptContent U script))))
      as [Hw Hn].
    eexists. rewrite Hn.
    split; [reflexivity | split; [exact Hw | discriminate]].
  - cbv zeta.
    destruct (process_segments_blocks (voiceMap_of U characters)
                (groupSegments (parseScriptContent U script)) start)
      as (blocks & Hb & Hw & Hd).
    exists blocks. split; [exact Hb | split; [exact Hw|]].
    intros results H.
    destruct (process_segments U ai (voiceMap_of U characters)
                (groupSegments (parseScriptContent U script)) start)
      as [st|]; [|discriminate].
    now apply (Hd st).
Qed.

Lemma request_for_more (voiceMap : string_map VoiceName)
  (s : DialogueSegment) (rest : list DialogueSegment) (r : request) :
  request_for U voiceMap rest r -> request_for U voiceMap (s :: rest) r.
Proof.
  intros (x & Hin & H). exists x. split; [now right | exact H].
Qed.

Lemma process_segments_request_for (voiceMap : string_map VoiceName)
  (all : list DialogueSegment) (segments : list DialogueSegment) :
  forall st,
    incl segments all ->
    Forall (request_for U voiceMap all) (issued st) ->
    Forall (request_for U voiceMap all)
           (requests_of (process_segments U ai voiceMap segments st)).
Proof.
  induction segments as [|s rest IH]; intros st Hincl Hst;
    cbn [process_segments]; [exact Hst|].
  assert (Hs : Forall (request_for U voiceMap all)
                      (requests_of (process_segment U ai voiceMap s st))).
  { unfold process_segment.
    destruct (map_get voiceMap (toLowerCase U (speaker s))) as [v|] eqn:E;
      [|exact Hst].
    destruct (nonempty (clean_text (text s))) eqn:N; cbn [negb];
      [|exact Hst].
    apply attempt_requests; [exact Hst|].
    exists s. cbn [req_speaker req_text req_voice req_traits].
    repeat split; auto.
    - apply Hincl. now left.
    - now apply nonempty_true. }
  destruct (process_segment U ai voiceMap s st) as [st1|e requests];
    [|exact Hs].
  apply IH; [|exact Hs]. intros x Hx. apply Hincl. now right.
Qed.

(** X11. Every request that a run issues, whether it returns or throws, is
    the request of one of the grouped segments of the script: its text is the
    cleaned text of that segment and is not empty, its voice is the one that
    the voice map holds for the speaker of the segment, and the traits named
    in the system instruction are those of that voice. *)
Theorem requests_come_from_segments
  (script : jsstring) (characters : list Character) :
  Forall (request_for U (voiceMap_of U characters)
                      (groupSegments (parseScriptContent U script)))
         (requests_of (generateDramaAudio U apiKey ai script characters)).
Proof.
  unfold generateDramaAudio. destruct (negb (nonempty apiKey)); [constructor|].
  cbv zeta. apply process_segments_request_for; [apply incl_refl | constructor].
Qed.

End Run.

End WithUnicode.

(** *** Instances *)

Lemma returned_audio_follows_script_witness :
  map audio_speaker [{| audio := payload; audio_speaker := lit "Hero" |}]
  = map speaker
      (filter spoken_segment
         (groupSegments (parseScriptContent basic_latin hero_script)))
  /\ Forall (fun a => audio a <> [])
            [{| audio := payload; audio_speaker := lit "Hero" |}].
Proof.
  apply (returned_audio_follows_script basic_latin some_key
           (always_audio payload) hero_script [character "Hero" Kore]).
  reflexivity.
Defined.

End SynthesisFacts.

(** ** The retry wrapper and the limits of the run *)

Module RetryFacts.

Import Js ScriptParsing Gemini JsFacts GeminiFacts GeminiNotions Retry Samples.
Local Open Scope nat_scope.

Lemma startsWith_includes (a b : jsstring) :
  forall s, startsWith s (a ++ b) = true -> includes s b = true.
Proof.
  induction a as [|x a IH]; intros s H; simpl in H.
  - destruct s; cbn [includes]; now rewrite H.
  - destruct s as [|y s]; [discriminate|].
    apply andb_prop in H as [_ H]. cbn [includes]. rewrite (IH s H).
    apply orb_true_r.
Qed.

(** A string that includes [a ++ b] includes [b]. *)
Lemma includes_suffix (a b : jsstring) :
  forall s, includes s (a ++ b) = true -> includes s b = true.
Proof.
  induction s as [|c s IH]; intros H.
  - cbn [includes] in H. rewrite orb_false_r in H.
    now apply startsWith_includes in H.
  - change (includes (c :: s) (a ++ b))
      with (startsWith (c :: s) (a ++ b) || includes s (a ++ b)) in H.
    apply orb_prop in H as [H|H].
    + now apply startsWith_includes in H.
    + cbn [includes]. rewrite (IH H). apply orb_true_r.
Qed.

Section WithUnicode.

Variable U : Unicode.

(** X12. The two retry loops classify errors differently.  Every error
    that the loop of [generateDramaAudio] retries is a quota error for
    [callWithRetry] too, unless it is retried for mentioning 503 only; and
    an error that [callWithRetry] retries but the loop of
    [generateDramaAudio] treats as fatal is one that mentions "exhausted"
    without "resource_exhausted". *)
Theorem retry_classifiers_compared (error : JsError) :
  let msg := toLowerCase U (if nonempty (message error)
                            then message error else json error) in
  (retryable U error = true ->
   isQuotaError U error = true \/ includes msg (lit "503") = true)
  /\ (isQuotaError U error = true ->
      retryable U error = true
      \/ (includes msg (lit "exhausted") = true
          /\ includes msg (lit "resource_exhausted") = false)).
Proof.
  cbv zeta. unfold retryable, isQuotaError. cbv zeta.
  set (msg := toLowerCase U _).
  destruct (includes msg (lit "429")); [simpl; auto|].
  destruct (includes msg (lit "quota")); [simpl; auto|].
  destruct (includes msg (lit "overloaded"));
    [rewrite !orb_true_r; simpl; auto|].
  destruct (includes msg (lit "resource_exhausted")) eqn:R.
  - apply (includes_suffix (lit "resource_") (lit "exhausted")) in R.
    rewrite R. simpl. auto.
  - simpl. rewrite !orb_false_r.
    destruct (includes msg (lit "exhausted")); simpl; split; auto.
Qed.

(** *** [callWithRetry] *)

Section Wrapper.

Variable A : Type.
Variable operationName : jsstring.
Variable apiCall : api_call A.
Variable maxRetries : nat.

Lemma retry_loop_law (remaining : nat) :
  (1 <= remaining <= maxRetries)%nat ->
  let e := retry_loop U operationName apiCall maxRetries remaining in
  (maxRetries - remaining < invocations e <= maxRetries)%nat
  /\ result e = apiCall (invocations e - 1)
  /\ (forall k, (maxRetries - remaining <= k)%nat ->
                (k < invocations e - 1)%nat -> retried U apiCall k)
  /\ ((invocations e < maxRetries)%nat -> ~ retried U apiCall (invocations e - 1)).
Proof.
  induction remaining as [|remaining IH]; [lia|].
  intros Hr. cbv zeta. simpl retry_loop.
  set (retries := (maxRetries - S remaining)%nat) in *.
  assert (Hstop : forall r : settled A,
    r = apiCall retries ->
    (forall error, r = Raised error -> isQuotaError U error = false
                                       \/ remaining = 0%nat) ->
    let e := {| result := r; invocations := S retries |} in
    (retries < invocations e <= maxRetries)%nat
    /\ result e = apiCall (invocations e - 1)
    /\ (forall k, (retries <= k)%nat -> (k < invocations e - 1)%nat ->
                  retried U apiCall k)
    /\ ((invocations e < maxRetries)%nat -> ~ retried U apiCall (invocations e - 1))).
  { intros r Hcall Hfatal. cbv zeta. simpl.
    replace (retries - 0)%nat with retries by lia.
    split; [unfold retries; lia|]. split; [exact Hcall|].
    split; [intros k; lia|].
    intros Hlt (error & E1 & E2).
    destruct (Hfatal error) as [F|F]; [congruence | congruence |].
    unfold retries in Hlt. lia. }
  destruct (apiCall retries) as [value|error] eqn:E.
  - apply Hstop; [reflexivity | discriminate].
  - destruct (isQuotaError U error) eqn:Q.
    + destruct remaining as [|remaining'].
      * apply Hstop; [reflexivity | auto].
      * assert (Hr' : (1 <= S remaining' <= maxRetries)%nat) by lia.
        specialize (IH Hr'). cbv zeta in IH.
        destruct IH as (I1 & I2 & I3 & I4).
        replace (maxRetries - S remaining')%nat with (S retries) in *
          by (unfold retries; lia).
        split; [lia|]. split; [exact I2|]. split; [|exact I4].
        intros k Hk1 Hk2.
        destruct (Nat.eq_dec k retries) as [->|Hne].
        -- now exists error.
        -- apply I3; lia.
    + apply Hstop; [reflexivity|]. intros e' [= <-]. now left.
Qed.

(** X13. [callWithRetry] with a positive [maxRetries] invokes [apiCall]
    at least once and at most [maxRetries] times, and ends as its last
    invocation did: it returns that value or throws that error, so the
    error "failed after max retries" is never thrown.  Every invocation
    before the last one raised a quota error, and when the invocations stop
    early the last one did not. *)
Theorem callWithRetry_law :
  (1 <= maxRetries)%nat ->
  let e := callWithRetry U operationName apiCall maxRetries in
  (1 <= invocations e <= maxRetries)%nat
  /\ result e = apiCall (invocations e - 1)
  /\ (forall k, (k < invocations e - 1)%nat -> retried U apiCall k)
  /\ ((invocations e < maxRetries)%nat -> ~ retried U apiCall (invocations e - 1)).
Proof.
  intros H. cbv zeta. unfold callWithRetry.
  destruct (retry_loop_law maxRetries) as (L1 & L2 & L3 & L4); [lia|].
  split; [lia|]. split; [exact L2|]. split; [|exact L4].
  intros k Hk. apply L3; lia.
Qed.

End Wrapper.

(** *** The preview *)

Lemma no_preview_is_fatal :
  lowers_ascii U -> isQuotaError U (new_Error no_preview_message) = false.
Proof.
  intros H. unfold isQuotaError. simpl.
  rewrite (H no_preview_message eq_refl). reflexivity.
Qed.

(** X14. [generateSpeechPreview] sends at most five requests, returns only
    a payload that is not empty, and does not retry a response without
    audio: when the first response has none, it throws "No audio data
    returned for preview" after that one request.  Without a key it throws
    before any request. *)
Theorem preview_law (apiKey : jsstring) (ai : preview_provider)
  (text voice : jsstring) :
  lowers_ascii U ->
  let e := generateSpeechPreview U apiKey ai text voice in
  (invocations e <= default_maxRetries)%nat
  /\ (forall audioData, result e = Returned audioData -> audioData <> [])
  /\ (apiKey <> [] ->
      ai 0%nat text voice = Response None
      \/ ai 0%nat text voice = Response (Some []) ->
      e = {| result := Raised (new_Error no_preview_message);
             invocations := 1 |})
  /\ (apiKey = [] -> result e = Raised (new_Error missing_key_message)
                     /\ invocations e = 0%nat).
Proof.
  intros HU. cbv zeta. unfold generateSpeechPreview.
  destruct apiKey as [|c key]; simpl negb; cbv iota.
  - simpl. repeat split; try discriminate; try lia. congruence.
  - destruct (retry_loop_law jsstring (lit "Speech Preview")
                (preview_call ai text voice) default_maxRetries
                default_maxRetries)
      as (L1 & L2 & _); [unfold default_maxRetries; lia|].
    fold (callWithRetry U (lit "Speech Preview")
            (preview_call ai text voice) default_maxRetries) in L1, L2.
    split; [lia|]. split; [|split; [|discriminate]].
    + intros audioData H. rewrite L2 in H. unfold preview_call in H.
      destruct (ai _ text voice) as [[d|]|error]; try discriminate.
      destruct (nonempty d) eqn:N; [|discriminate].
      injection H as <-. now apply nonempty_true.
    + intros _ H. unfold callWithRetry, default_maxRetries. simpl.
      unfold preview_call at 1.
      destruct H as [-> | ->]; simpl; now rewrite (no_preview_is_fatal HU).
Qed.

(** *** The limits of the synthesis loop *)

Section Run.

Variable ai : provider.

Lemma empty_audio_is_fatal :
  lowers_ascii U -> retryable U (new_Error empty_audio_message) = false.
Proof.
  intros H. unfold retryable. simpl.
  rewrite (H empty_audio_message eq_refl). reflexivity.
Qed.

(** The first request of the retry loop comes back without audio, and the
    error of that is fatal. *)
Lemma attempt_without_audio (fuel : nat) (segment : DialogueSegment)
  (req : request) (st : progress) :
  lowers_ascii U ->
  ai (length (issued st)) req = Response None
  \/ ai (length (issued st)) req = Response (Some []) ->
  attempt U ai (S fuel) segment req st
  = Thrown (new_Error empty_audio_message) (issued st ++ [req]).
Proof.
  intros HU Hai. cbn [attempt].
  change (lit "API returned empty audio data") with empty_audio_message.
  destruct Hai as [-> | ->]; cbn [nonempty];
    now rewrite (empty_audio_is_fatal HU).
Qed.

(** X15. A response without audio is not retried and ends the whole run:
    when the speaker of a segment has a voice, its cleaned text is not
    empty and the first response to its request carries no audio, the
    iteration throws "API returned empty audio data" after that one
    request, and so does the loop over the segment and those after it. *)
Theorem empty_audio_aborts_run (voiceMap : string_map VoiceName)
  (segment : DialogueSegment) (rest : list DialogueSegment)
  (voice : VoiceName) (st : progress) :
  lowers_ascii U ->
  map_get voiceMap (toLowerCase U (speaker segment)) = Some voice ->
  clean_text (text segment) <> [] ->
  ai (length (issued st)) (request_of segment voice) = Response None
  \/ ai (length (issued st)) (request_of segment voice)
     = Response (Some []) ->
  process_segments U ai voiceMap (segment :: rest) st
  = Thrown (new_Error empty_audio_message)
           (issued st ++ [request_of segment voice]).
Proof.
  intros HU Hv Ht Hai. cbn [process_segments]. unfold process_segment.
  rewrite Hv. apply nonempty_true in Ht. rewrite Ht. cbn [negb].
  change {| req_text := clean_text (text segment); req_voice := voice;
            req_speaker := speaker segment; req_traits := traits voice |}
    with (request_of segment voice).
  change MAX_RETRIES with (S 9).
  now rewrite (attempt_without_audio 9 segment _ st HU Hai).
Qed.

Lemma attempt_exhausted (segment : DialogueSegment) (req : request)
  (fuel : nat) :
  (forall k r, exists error,
      ai k r = Rejection error /\ retryable U error = true) ->
  forall st,
    attempt U ai fuel segment req st
    = Thrown (new_Error (exhausted_message (speaker segment)))
             (issued st ++ repeat req fuel).
Proof.
  intros Hai. induction fuel as [|fuel IH]; intros st; simpl.
  - now rewrite app_nil_r.
  - destruct (Hai (length (issued st)) req) as (error & -> & ->).
    rewrite IH. simpl. now rewrite <- app_assoc.
Qed.

(** X16. Under a persistent rate limit the loop gives up after exactly
    [MAX_RETRIES] requests for one segment: when the provider rejects every
    request with an error that the loop retries, the iteration of a segment
    with a voice and a cleaned text that is not empty sends its request ten
    times and throws the error "Failed to generate audio for ..." naming the
    speaker; no later segment is reached. *)
Theorem persistent_rate_limit_exhausts_retries
  (voiceMap : string_map VoiceName)
  (segment : DialogueSegment) (rest : list DialogueSegment)
  (voice : VoiceName) (st : progress) :
  (forall k r, exists error,
      ai k r = Rejection error /\ retryable U error = true) ->
  map_get voiceMap (toLowerCase U (speaker segment)) = Some voice ->
  clean_text (text segment) <> [] ->
  process_segments U ai voiceMap (segment :: rest) st
  = Thrown (new_Error (exhausted_message (speaker segment)))
           (issued st ++ repeat (request_of segment voice) MAX_RETRIES).
Proof.
  intros Hai Hv Ht. cbn [process_segments]. unfold process_segment.
  rewrite Hv. apply nonempty_true in Ht. rewrite Ht. cbn [negb].
  now rewrite (attempt_exhausted segment _ MAX_RETRIES Hai).
Qed.

End Run.

End WithUnicode.

(** *** Instances *)

Lemma basic_latin_lowers_ascii : lowers_ascii basic_latin.
Proof. intros s _. reflexivity. Qed.

Lemma retry_classifiers_compared_witness :
  isQuotaError basic_latin unavailable = true
  \/ includes (toLowerCase basic_latin (message unavailable)) (lit "503")
     = true.
Proof.
  apply (proj1 (retry_classifiers_compared basic_latin unavailable)).
  reflexivity.
Defined.

Lemma callWithRetry_law_witness :
  result (callWithRetry basic_latin (lit "Auto Cast") third_time_lucky
                        default_maxRetries)
  = third_time_lucky 2%nat.
Proof.
  assert (H := callWithRetry_law basic_latin jsstring (lit "Auto Cast")
                 third_time_lucky default_maxRetries).
  cbv zeta in H. destruct H as (_ & H & _).
  - unfold default_maxRetries. lia.
  - exact H.
Defined.

Lemma preview_law_witness :
  generateSpeechPreview basic_latin some_key silent_preview
                        (lit "Hello") (lit "Kore")
  = {| result := Raised (new_Error no_preview_message); invocations := 1 |}.
Proof.
  assert (H := preview_law basic_latin some_key silent_preview
                 (lit "Hello") (lit "Kore") basic_latin_lowers_ascii).
  cbv zeta in H. destruct H as (_ & _ & H & _).
  apply H; [discriminate | left; reflexivity].
Defined.

Lemma empty_audio_aborts_run_witness :
  process_segments basic_latin always_silent
    (voiceMap_of basic_latin [character "Hero" Kore]) [hero_segment] start
  = Thrown (new_Error empty_audio_message) [request_of hero_segment Kore].
Proof.
  apply (empty_audio_aborts_run basic_latin always_silent
           (voiceMap_of basic_latin [character "Hero" Kore])
           hero_segment [] Kore start basic_latin_lowers_ascii).
  - reflexivity.
  - discriminate.
  - left. reflexivity.
Defined.

Lemma persistent_rate_limit_exhausts_retries_witness :
  process_segments basic_latin always_limited
    (voiceMap_of basic_latin [character "Hero" Kore]) [hero_segment] start
  = Thrown (new_Error (exhausted_message (lit "Hero")))
           (repeat (request_of hero_segment Kore) MAX_RETRIES).
Proof.
  apply (persistent_rate_limit_exhausts_retries basic_latin always_limited
           (voiceMap_of basic_latin [character "Hero" Kore])
           hero_segment [] Kore start).
  - intros k r. eexists. split; reflexivity.
  - reflexivity.
  - discriminate.
Defined.

End RetryFacts.

(** ** Further properties of the audio utilities *)

Module ConcatenationFacts.

Import Audio AudioFacts AudioNotions Samples.
Local Open Scope nat_scope.

Lemma typed_set_append {A} (zero : A) (done source : list A) (k : nat) :
  length source <= k ->
  typed_set (done ++ repeat zero k) source (length done)
  = Ok (done ++ source ++ repeat zero (k - length source)).
Proof.
  intros H. unfold typed_set.
  rewrite length_app, repeat_length.
  assert (E : (length done + length source <=? length done + k) = true)
    by (apply Nat.leb_le; lia).
  rewrite E. f_equal.
  rewrite firstn_app, Nat.sub_diag, firstn_all, firstn_O, app_nil_r.
  f_equal. f_equal.
  rewrite skipn_app, skipn_all2 by lia. simpl.
  replace (length done + length source - length done) with (length source)
    by lia.
  replace k with (length source + (k - length source)) at 1 by lia.
  rewrite repeat_app, skipn_app, skipn_all2 by (rewrite repeat_length; lia).
  rewrite repeat_length, Nat.sub_diag. reflexivity.
Qed.

Section Concatenate.

Context {T : Type}.
Variable zero : T.
Variable ctx : AudioContext.

Lemma contribution_length (buffer : AudioBuffer T) (c : nat) :
  well_formed ctx buffer ->
  length (contribution zero buffer c) = bufLength buffer.
Proof.
  intros Hwf. unfold contribution.
  destruct (c <? numberOfChannels buffer) eqn:Hc.
  - apply Nat.ltb_lt in Hc. now apply (getChannelData_length ctx).
  - destruct (numberOfChannels buffer =? 1) eqn:H1.
    + apply Nat.eqb_eq in H1. apply (getChannelData_length ctx); [exact Hwf|].
      lia.
    + apply repeat_length.
Qed.

(** The writes of one input buffer, when channel [c] of the result holds
    [done c] followed by silence. *)
Lemma write_channels_content (buffer : AudioBuffer T) (offset k : nat)
  (done : nat -> list T) :
  well_formed ctx buffer ->
  bufLength buffer <= k ->
  (forall c, length (done c) = offset) ->
  forall count channel,
    write_channels buffer offset channel
      (map (fun c => done c ++ repeat zero k) (seq channel count))
    = Ok (map (fun c => (done c ++ contribution zero buffer c)
                        ++ repeat zero (k - bufLength buffer))
              (seq channel count)).
Proof.
  intros Hwf Hk Hdone.
  induction count as [|count IH]; intros channel; simpl; [reflexivity|].
  assert (Hset :
    (if channel <? numberOfChannels buffer
     then typed_set (done channel ++ repeat zero k)
                    (getChannelData buffer channel) offset
     else if numberOfChannels buffer =? 1
          then typed_set (done channel ++ repeat zero k)
                         (getChannelData buffer 0) offset
          else Ok (done channel ++ repeat zero k))
    = Ok ((done channel ++ contribution zero buffer channel)
          ++ repeat zero (k - bufLength buffer))).
  { pose proof (contribution_length buffer channel Hwf) as Hlen.
    unfold contribution in *. rewrite <- (Hdone channel).
    destruct (channel <? numberOfChannels buffer).
    - rewrite typed_set_append by lia. now rewrite Hlen, app_assoc.
    - destruct (numberOfChannels buffer =? 1).
      + rewrite typed_set_append by lia. now rewrite Hlen, app_assoc.
      + rewrite <- app_assoc, <- repeat_app. do 3 f_equal. lia. }
  rewrite Hset, IH. reflexivity.
Qed.

Lemma write_buffers_content (buffers : list (AudioBuffer T)) :
  Forall (well_formed ctx) buffers ->
  forall (offset k : nat) (done : nat -> list T) (count : nat),
    totalLength buffers <= k ->
    (forall c, length (done c) = offset) ->
    write_buffers buffers offset
      (map (fun c => done c ++ repeat zero k) (seq 0 count))
    = Ok (map (fun c => (done c ++ joined zero buffers c)
                        ++ repeat zero (k - totalLength buffers))
              (seq 0 count)).
Proof.
  induction 1 as [|buffer rest Hwf _ IH]; intros offset k done count Hk Hdone;
    simpl.
  - f_equal. apply map_ext. intros c. unfold joined. simpl.
    rewrite app_nil_r. do 2 f_equal. unfold totalLength. simpl. lia.
  - rewrite totalLength_cons in Hk.
    rewrite (write_channels_content buffer offset k done Hwf) by (lia || auto).
    rewrite (IH (offset + bufLength buffer) (k - bufLength buffer)
               (fun c => done c ++ contribution zero buffer c)); [|lia|].
    + f_equal. apply map_ext. intros c. unfold joined. simpl.
      rewrite <- !app_assoc. do 4 f_equal. rewrite totalLength_cons. lia.
    + intros c. rewrite length_app, Hdone.
      now rewrite (contribution_length buffer c Hwf).
Qed.

Lemma repeat_as_map {A} (x : A) (n : nat) :
  forall start, repeat x n = map (fun _ => x) (seq start n).
Proof.
  induction n as [|n IH]; intros start; simpl; [reflexivity|].
  now rewrite (IH (S start)).
Qed.

(** The result of a concatenation of buffers of the context, field by
    field. *)
Lemma concatenate_result
  (first : AudioBuffer T) (others : list (AudioBuffer T)) :
  Forall (well_formed ctx) (first :: others) ->
  concatenateAudioBuffers zero (first :: others) ctx
  = Ok ({| ident := allocated ctx;
           bufLength := totalLength (first :: others);
           sampleRate := sampleRate first;
           channels := map (joined zero (first :: others))
                           (seq 0 (numberOfChannels first)) |},
        {| ctxSampleRate := ctxSampleRate ctx;
           minSampleRate := minSampleRate ctx;
           maxSampleRate := maxSampleRate ctx;
           allocated := S (allocated ctx) |}).
Proof.
  intros Hall. inversion Hall as [|? ? Hfirst Hothers]; subst.
  destruct Hfirst as [Hch Hlen Hrate Hdata].
  unfold concatenateAudioBuffers, createBuffer.
  assert (Htotal : 1 <= totalLength (first :: others))
    by (rewrite totalLength_cons; lia).
  destruct (numberOfChannels first =? 0) eqn:E0;
    [apply Nat.eqb_eq in E0; lia|].
  destruct (totalLength (first :: others) =? 0) eqn:E1;
    [apply Nat.eqb_eq in E1; lia|].
  rewrite Hrate. simpl orb. cbv iota. cbv beta. simpl channels.
  rewrite (repeat_as_map _ (numberOfChannels first) 0).
  assert (W := write_buffers_content (first :: others) Hall 0
                 (totalLength (first :: others)) (fun _ => [])
                 (numberOfChannels first) (le_n _) (fun _ => eq_refl)).
  simpl app in W. rewrite W. cbn [ident bufLength sampleRate].
  do 3 f_equal.
  apply map_ext. intros c. rewrite Nat.sub_diag. apply app_nil_r.
Qed.

(** X17. The samples of a concatenation are the samples of the inputs in
    the order of the list: for buffers of the context, channel [c] of the
    result is, buffer after buffer, channel [c] of the input, or its only
    channel when the input is mono, or silence of its length when the input
    has several channels but no channel [c]. *)
Theorem concatenation_keeps_order
  (first : AudioBuffer T) (others : list (AudioBuffer T)) :
  Forall (well_formed ctx) (first :: others) ->
  exists res ctx',
    concatenateAudioBuffers zero (first :: others) ctx = Ok (res, ctx')
    /\ channels res
       = map (joined zero (first :: others))
             (seq 0 (numberOfChannels first)).
Proof.
  intros Hall. rewrite (concatenate_result first others Hall).
  eexists. eexists. split; reflexivity.
Qed.

End Concatenate.

Lemma concatenation_keeps_order_witness :
  exists res ctx',
    concatenateAudioBuffers 0%Z
      [mono 24000 [1; 2]%Z; mono 48000 [3; 4; 5]%Z] browser = Ok (res, ctx')
    /\ channels res
       = map (joined 0%Z [mono 24000 [1; 2]%Z; mono 48000 [3; 4; 5]%Z])
             (seq 0 1).
Proof.
  apply (concatenation_keeps_order 0%Z browser
           (mono 24000 [1; 2]%Z) [mono 48000 [3; 4; 5]%Z]).
  repeat constructor; apply mono_well_formed; reflexivity.
Defined.

End ConcatenationFacts.

(** ** Properties of [decodeAudioData] *)

Module DecodeFacts.

Import Js Audio Wav Decode AudioFacts WavFacts Samples.
Local Open Scope nat_scope.

Lemma pair_induction {A} (P : list A -> Prop) :
  P [] -> (forall a, P [a]) -> (forall a b l, P l -> P (a :: b :: l)) ->
  forall l, P l.
Proof.
  intros H0 H1 H2. fix IH 1.
  intros [|a [|b l]]; [exact H0 | exact (H1 a) | exact (H2 a b l (IH l))].
Qed.

(** The [Int16Array] has [Math.floor(byteLength / 2)] elements. *)
Lemma int16_array_length (bytes : list Z) :
  length (int16_array bytes) = length bytes / 2.
Proof.
  induction bytes as [| a | a b l IH] using pair_induction; try reflexivity.
  change (length (a :: b :: l)) with (1 * 2 + length l).
  rewrite Nat.div_add_l by lia. simpl. now rewrite IH.
Qed.

Lemma int16_array_app (a b : list Z) :
  Nat.even (length a) = true ->
  int16_array (a ++ b) = int16_array a ++ int16_array b.
Proof.
  induction a as [| x | x y l IH] using pair_induction; intros H.
  - reflexivity.
  - discriminate.
  - simpl. f_equal. apply IH. exact H.
Qed.

Lemma bytes_of_length (s : jsstring) : length (bytes_of s) = length s.
Proof. apply length_map. Qed.

Lemma update_at_end {A} (f : A -> A) (pre : list A) (x : A) (rest : list A) :
  update (length pre) f (pre ++ x :: rest) = pre ++ f x :: rest.
Proof. induction pre as [|p pre IH]; simpl; [reflexivity | now rewrite IH]. Qed.

Section Decoding.

Variable T : Type.
Variable zero : T.
Variable quotient : Z -> T.
Variable atob : jsstring -> option jsstring.

Lemma fill_prefix (dataInt16 : list Z) (channelData : list T) (n : nat) :
  length channelData = length dataInt16 ->
  n <= length dataInt16 ->
  fold_left (fun data i => store data i (quotient (nth i dataInt16 0%Z)))
            (seq 0 n) channelData
  = map quotient (firstn n dataInt16) ++ skipn n channelData.
Proof.
  intros Hlen. induction n as [|n IH]; intros Hn; [reflexivity|].
  rewrite seq_S, fold_left_app, IH by lia.
  cbn [fold_left]. change (0 + n) with n.
  assert (Hc : n < length channelData) by lia.
  destruct (skipn n channelData) as [|x rest] eqn:E.
  { apply (f_equal (@length T)) in E. rewrite length_skipn in E.
    simpl in E. lia. }
  assert (Hrest : skipn (S n) channelData = rest).
  { replace (S n) with (1 + n) by lia. now rewrite <- skipn_skipn, E. }
  rewrite Hrest. unfold store.
  replace n with (length (map quotient (firstn n dataInt16))) at 1
    by (rewrite length_map, length_firstn; lia).
  rewrite update_at_end.
  assert (Hd : firstn (S n) dataInt16
               = firstn n dataInt16 ++ [nth n dataInt16 0%Z]).
  { clear - Hn. revert dataInt16 Hn.
    induction n as [|n IHn]; intros [|d l] Hn; simpl in *; try lia.
    - reflexivity.
    - f_equal. apply IHn. lia. }
  rewrite Hd, map_app, <- app_assoc. reflexivity.
Qed.

Lemma fill_all (dataInt16 : list Z) :
  fill quotient dataInt16 (repeat zero (length dataInt16))
  = map quotient dataInt16.
Proof.
  unfold fill. rewrite fill_prefix by (rewrite ?repeat_length; lia).
  rewrite firstn_all, skipn_all2 by (rewrite repeat_length; lia).
  apply app_nil_r.
Qed.

(** A payload of at least two bytes in a context that supports 24000 Hz. *)
Lemma decode_ok (base64Data binaryString : jsstring) (ctx : AudioContext) :
  atob base64Data = Some binaryString ->
  2 <= length binaryString ->
  supportsRate ctx 24000 = true ->
  decodeAudioData zero quotient atob base64Data ctx
  = Decoded
      {| ident := allocated ctx;
         bufLength := length binaryString / 2;
         sampleRate := 24000;
         channels := [map quotient (int16_array (bytes_of binaryString))] |}
      {| ctxSampleRate := ctxSampleRate ctx;
         minSampleRate := minSampleRate ctx;
         maxSampleRate := maxSampleRate ctx;
         allocated := S (allocated ctx) |}.
Proof.
  intros Ha Hs Hrate. unfold decodeAudioData. rewrite Ha. cbv zeta.
  set (data := int16_array (bytes_of binaryString)).
  assert (Hn : length data = length binaryString / 2)
    by (unfold data; now rewrite int16_array_length, bytes_of_length).
  assert (Hpos : 1 <= length binaryString / 2)
    by (apply Nat.div_le_lower_bound; lia).
  assert (C : createBuffer zero ctx 1 (length data) 24000
              = Ok ({| ident := allocated ctx;
                       bufLength := length data;
                       sampleRate := 24000;
                       channels := [repeat zero (length data)] |},
                    {| ctxSampleRate := ctxSampleRate ctx;
                       minSampleRate := minSampleRate ctx;
                       maxSampleRate := maxSampleRate ctx;
                       allocated := S (allocated ctx) |})).
  { unfold createBuffer. rewrite Hrate.
    destruct (length data =? 0) eqn:E; [apply Nat.eqb_eq in E; lia|].
    reflexivity. }
  rewrite C. cbv iota beta.
  cbn [ident bufLength sampleRate channels update].
  now rewrite fill_all, Hn.
Qed.

(** A payload of fewer than two bytes. *)
Lemma decode_short (base64Data binaryString : jsstring) (ctx : AudioContext) :
  atob base64Data = Some binaryString ->
  length binaryString < 2 ->
  decodeAudioData zero quotient atob base64Data ctx
  = ContextError NotSupportedError.
Proof.
  intros Ha Hs. unfold decodeAudioData. rewrite Ha. cbv zeta.
  unfold createBuffer. rewrite int16_array_length, bytes_of_length.
  rewrite (Nat.div_small (length binaryString) 2) by lia. reflexivity.
Qed.

(** A last byte without a partner is dropped: two payloads whose
    bytes differ by one byte after an even number of bytes decode to the same
    result. *)
Lemma trailing_byte_is_ignored (payload longer : jsstring)
  (binaryString : jsstring) (last : char) (ctx : AudioContext) :
  atob payload = Some binaryString ->
  atob longer = Some (binaryString ++ [last]) ->
  Nat.even (length binaryString) = true ->
  decodeAudioData zero quotient atob longer ctx
  = decodeAudioData zero quotient atob payload ctx.
Proof.
  intros H1 H2 Heven. unfold decodeAudioData. rewrite H1, H2. cbv zeta.
  unfold bytes_of. rewrite map_app, int16_array_app
    by (now rewrite length_map).
  simpl. now rewrite app_nil_r.
Qed.

End Decoding.

(** *** The values of the samples *)

Lemma int16_of_range (lo hi : Z) :
  (0 <= lo < 256)%Z -> (0 <= hi < 256)%Z -> is_int16 (int16_of lo hi).
Proof.
  intros Hlo Hhi. unfold is_int16, int16_of. cbv zeta.
  destruct (lo + 256 * hi <? 32768)%Z eqn:E;
    [apply Z.ltb_lt in E | apply Z.ltb_ge in E]; lia.
Qed.

Lemma int16_array_range (bytes : list Z) :
  Forall (fun b => 0 <= b < 256)%Z bytes ->
  Forall is_int16 (int16_array bytes).
Proof.
  induction bytes as [| a | a b l IH] using pair_induction; intros H;
    simpl; try constructor.
  - inversion H as [|? ? Ha H']; subst. inversion H' as [|? ? Hb H'']; subst.
    now apply int16_of_range.
  - apply IH. inversion H as [|? ? _ H']; subst. now inversion H'.
Qed.

Lemma bytes_of_range (s : jsstring) :
  Forall (fun b => 0 <= b < 256)%Z (bytes_of s).
Proof.
  unfold bytes_of. apply Forall_forall. intros b Hin.
  apply in_map_iff in Hin as (c & <- & _). apply Z.mod_pos_bound. lia.
Qed.

(** *** The arithmetic of the samples *)

Section Quotients.

Local Open Scope Z_scope.

(** The quotient of a double with a normal mantissa by 32768: the same
    mantissa, 15 places down. *)
Lemma SFdiv_by_32768 (s : bool) (mx : positive) (t : Z) :
  Zpos (digits2_pos mx) = 53 -> 0 <= t <= 52 ->
  SFdiv 53 1024 (S754_finite s mx (- t)) (b64_of_Z 32768)
  = S754_finite s mx (- t - 15).
Proof.
  intros Hx Ht.
  assert (E : b64_of_Z 32768 = S754_finite false 4503599627370496 (-37))
    by (vm_compute; reflexivity).
  rewrite E. clear E.
  unfold SFdiv, SFdiv_core_binary. cbn [Zdigits2]. rewrite Hx.
  change (Zpos (digits2_pos 4503599627370496)) with 53.
  rewrite fexp_normal by lia.
  replace (Z.min (53 + - t - (53 + -37) - 53) (- t - -37))
    with (- t - 16) by lia.
  replace (- t - -37 - (- t - 16)) with 53 by lia.
  cbv iota. rewrite Z.shiftl_mul_pow2 by lia.
  assert (D : Z.div_eucl (Zpos mx * 2 ^ 53) 4503599627370496
              = (Zpos (xO mx), 0)).
  { pose proof (Z_div_mod (Zpos mx * 2 ^ 53) 4503599627370496 eq_refl) as D.
    destruct (Z.div_eucl (Zpos mx * 2 ^ 53) 4503599627370496) as [q r].
    destruct D as [D Hr]. change (2 ^ 53) with 9007199254740992 in D.
    assert (q = Zpos (xO mx)) by lia. assert (r = 0) by lia. now subst. }
  rewrite D. clear D.
  change (new_location 4503599627370496 0) with loc_Exact.
  destruct s; simpl xorb.
  all: unfold binary_round_aux.
  all: rewrite (shr_fexp_54 (xO mx) (- t - 16) loc_Exact)
         by (cbn [digits2_pos]; lia).
  all: cbn [shr_record_of_loc shr_1 shr_m loc_of_shr_record round_nearest_even
            orb].
  all: rewrite (shr_fexp_53 mx (- t - 16 + 1) loc_Exact Hx) by lia.
  all: cbn [shr_record_of_loc shr_m].
  all: replace (- t - 16 + 1 <=? 1024 - 53) with true
         by (symmetry; apply Z.leb_le; lia).
  all: f_equal; lia.
Qed.

(** Storing a double whose mantissa ends in 29 zero bits in a
    [Float32Array] drops these bits and nothing else. *)
Lemma binary32_of_shifted (s : bool) (a : positive) (e : Z) :
  Zpos (digits2_pos a) = 24 -> -120 <= e <= 70 ->
  binary_round 24 128 s (Pos.iter xO a 29) e = S754_finite s a (e + 29).
Proof.
  intros Ha He.
  assert (Hd : Zpos (digits2_pos (Pos.iter xO a 29)) = 53)
    by (cbn [Pos.iter digits2_pos]; lia).
  unfold binary_round, shl_align. rewrite Hd.
  replace (fexp 24 128 (53 + e) - e) with 29 by (unfold fexp, emin; lia).
  cbv iota. unfold binary_round_aux, shr_fexp at 1.
  cbn [Zdigits2]. rewrite Hd.
  replace (fexp 24 128 (53 + e) - e) with 29 by (unfold fexp, emin; lia).
  cbn [shr shr_record_of_loc].
  change (iter_pos shr_1 29
            {| shr_m := Zpos (Pos.iter xO a 29);
               shr_r := false; shr_s := false |})
    with {| shr_m := Zpos a; shr_r := false; shr_s := false |}.
  cbn [shr_m loc_of_shr_record round_nearest_even].
  unfold shr_fexp. cbn [Zdigits2]. rewrite Ha.
  replace (fexp 24 128 (24 + (e + 29)) - (e + 29)) with 0
    by (unfold fexp, emin; lia).
  cbn [shr shr_record_of_loc shr_m].
  replace (e + 29 <=? 128 - 24) with true by (symmetry; apply Z.leb_le; lia).
  reflexivity.
Qed.

(** The sample that [decodeAudioData] stores for a 16-bit element is
    exactly the element divided by 32768: neither the binary64 division nor
    the conversion to binary32 rounds. *)
Lemma number_sample_exact (v : Z) :
  is_int16 v ->
  exact_quotient v (fround (SFdiv 53 1024 (b64_of_Z v) (b64_of_Z 32768))).
Proof.
  intros [Hlo Hhi].
  destruct (Z.eqb_spec v 0) as [->|Hn]; [vm_compute; auto|].
  assert (Hs : exists (m : positive) (t : Z),
             b64_of_Z v = S754_finite (v <? 0) m (- t)
             /\ 0 <= t <= 52
             /\ Zpos (digits2_pos m) = 53
             /\ Zpos m = Z.abs v * 2 ^ t).
  { destruct v as [|p|p]; [lia| |].
    - apply (binary_round_shape false p).
      change (2 ^ 53) with 9007199254740992. lia.
    - apply (binary_round_shape true p).
      change (2 ^ 53) with 9007199254740992. lia. }
  destruct Hs as (mx & t & -> & Ht & Hx & Hv).
  pose proof (normal_bounds mx Hx) as Bx.
  assert (HP : 0 < 2 ^ t) by (apply Z.pow_pos_nonneg; lia).
  assert (Ht37 : 37 <= t).
  { destruct (Z.leb_spec 37 t) as [|Hlt]; [assumption|].
    assert (2 ^ t <= 2 ^ 36) by (apply Z.pow_le_mono_r; lia).
    change (2 ^ 52) with 4503599627370496 in *.
    change (2 ^ 36) with 68719476736 in *. nia. }
  rewrite (SFdiv_by_32768 (v <? 0) mx t Hx Ht).
  assert (Hsplit : 2 ^ t = 2 ^ (t - 29) * 2 ^ 29)
    by (rewrite <- Z.pow_add_r by lia; f_equal; lia).
  assert (HQ : 0 < 2 ^ (t - 29)) by (apply Z.pow_pos_nonneg; lia).
  set (a := Z.to_pos (Z.abs v * 2 ^ (t - 29))).
  assert (Ha : Zpos a = Z.abs v * 2 ^ (t - 29))
    by (unfold a; rewrite Z2Pos.id; [reflexivity | nia]).
  assert (Hm : mx = Pos.iter xO a 29).
  { apply Pos2Z.inj. rewrite iter_xO_value, Ha, Hv, Hsplit. ring. }
  assert (Hda : Zpos (digits2_pos a) = 24).
  { apply digits2_pos_unique. change (24 - 1) with 23.
    rewrite Hm, iter_xO_value in Bx.
    change (2 ^ 52) with (2 ^ 23 * 2 ^ 29) in Bx.
    change (2 ^ 53) with (2 ^ 24 * 2 ^ 29) in Bx.
    change (2 ^ Zpos 29) with (2 ^ 29) in Bx.
    assert (0 < 2 ^ 29) by reflexivity.
    split.
    - apply Z.mul_le_mono_pos_r with (p := 2 ^ 29); [assumption | apply Bx].
    - apply Z.mul_lt_mono_pos_r with (p := 2 ^ 29); [assumption | apply Bx]. }
  change (fround (S754_finite (v <? 0) mx (- t - 15)))
    with (binary_round 24 128 (v <? 0) mx (- t - 15)).
  rewrite Hm, (binary32_of_shifted (v <? 0) a (- t - 15) Hda) by lia.
  unfold exact_quotient. split; [reflexivity|]. split; [lia|].
  rewrite Ha. f_equal. f_equal. lia.
Qed.

End Quotients.

(** X18. [decodeAudioData] in binary64 arithmetic, on a payload that [atob]
    turns into [n] bytes: with at least two bytes, and a
    context that supports 24000 Hz, it returns a new mono buffer of 24000 Hz
    with [Math.floor(n / 2)] frames, whose samples are the little-endian
    16-bit elements of the bytes, each divided by 32768 and stored as a
    [Float32Array] element, in order, and each of these samples is exactly
    its element over 32768; with fewer than two bytes no frame is left and
    [createBuffer] raises [NotSupportedError]; a text that is not base64
    raises the exception of [atob]. *)
Theorem decode_law
  (atob : jsstring -> option jsstring) (base64Data : jsstring)
  (ctx : AudioContext) :
  (forall binaryString,
      atob base64Data = Some binaryString ->
      2 <= length binaryString ->
      supportsRate ctx 24000 = true ->
      decodeAudioData (b64_of_Z 0) number_sample atob base64Data ctx
      = Decoded
          {| ident := allocated ctx;
             bufLength := length binaryString / 2;
             sampleRate := 24000;
             channels :=
               [map (fun v : Z =>
                       fround (SFdiv 53 1024 (b64_of_Z v) (b64_of_Z 32768)))
                    (int16_array (bytes_of binaryString))] |}
          {| ctxSampleRate := ctxSampleRate ctx;
             minSampleRate := minSampleRate ctx;
             maxSampleRate := maxSampleRate ctx;
             allocated := S (allocated ctx) |}
      /\ Forall (fun v : Z =>
                   is_int16 v
                   /\ exact_quotient v
                        (fround (SFdiv 53 1024 (b64_of_Z v)
                                       (b64_of_Z 32768))))
                (int16_array (bytes_of binaryString)))
  /\ (forall binaryString,
        atob base64Data = Some binaryString ->
        length binaryString < 2 ->
        decodeAudioData (b64_of_Z 0) number_sample atob base64Data ctx
        = ContextError NotSupportedError)
  /\ (atob base64Data = None ->
      decodeAudioData (b64_of_Z 0) number_sample atob base64Data ctx
      = InvalidCharacterError).
Proof.
  split; [|split].
  - intros s Ha Hs Hr. split.
    + exact (decode_ok spec_float (b64_of_Z 0) number_sample atob
               base64Data s ctx Ha Hs Hr).
    + pose proof (int16_array_range (bytes_of s) (bytes_of_range s)) as R.
      apply Forall_forall. intros v Hv. rewrite Forall_forall in R.
      split; [now apply R | apply number_sample_exact; now apply R].
  - intros s. apply decode_short.
  - unfold decodeAudioData. now intros ->.
Qed.

(** On doubles: the bytes 00 40 FF are the element 16384 and a byte that is
    dropped, and the sample is 16384 / 32768 = 0.5. *)
Lemma decode_law_witness :
  decodeAudioData (b64_of_Z 0) number_sample sample_atob (lit "AED/") browser
  = Decoded {| ident := 1;
               bufLength := 1;
               sampleRate := 24000;
               channels := [[S754_finite false 8388608 (-24)]] |}
            {| ctxSampleRate := 48000;
               minSampleRate := 8000;
               maxSampleRate := 96000;
               allocated := 2 |}.
Proof.
  refine (proj1 (proj1 (decode_law sample_atob (lit "AED/") browser)
                       [0x00; 0x40; 0xFF]%N _ _ _)).
  - reflexivity.
  - simpl. lia.
  - reflexivity.
Defined.

End DecodeFacts.

(** ** Further properties of the WAV encoder *)

Module EncoderFacts.

Import Js Audio Wav Decode WavNotions AudioFacts WavFacts ConcatenationFacts
       DecodeFacts Samples.

(** *** The samples *)

Section Samples.

Local Open Scope Q_scope.

Lemma truncate_between (a b : Z) (q : Q) :
  inject_Z a <= q -> q <= inject_Z b -> (a <= truncate q <= b)%Z.
Proof.
  intros Ha Hb. unfold truncate.
  destruct (Qle_bool 0 q).
  - split.
    + rewrite <- (Qfloor_Z a). now apply Qfloor_resp_le.
    + rewrite <- (Qfloor_Z b). now apply Qfloor_resp_le.
  - split.
    + rewrite <- (Qceiling_Z a). now apply Qceiling_resp_le.
    + rewrite <- (Qceiling_Z b). now apply Qceiling_resp_le.
Qed.

Lemma ToInt32_small (q : Q) :
  (-32768 <= truncate q <= 32767)%Z -> ToInt32 (Finite q) = truncate q.
Proof.
  intros H. unfold ToInt32.
  rewrite Z.mod_small; [lia|].
  change (2 ^ 31)%Z with 2147483648%Z. change (2 ^ 32)%Z with 4294967296%Z.
  lia.
Qed.

(** X19. The encoder never writes a value outside the 16-bit range: the
    integer stored for any sample, finite or not, lies between -32768 and
    32767, so [setInt16] never wraps. *)
Theorem pcm16_in_range (x : sample) : is_int16 (pcm16 x).
Proof.
  unfold is_int16.
  destruct x as [q| | |];
    [|vm_compute; split; congruence ..].
  unfold pcm16.
  destruct (clamp_finite q) as (c & -> & Hc & _).
  unfold scale. destruct (Qltb ((1 # 2) + c) 0) eqn:E.
  - apply Qltb_lt in E.
    assert (B : (-32768 <= truncate (c * 32768) <= 32767)%Z).
    { apply truncate_between; unfold inject_Z; lra. }
    now rewrite ToInt32_small.
  - assert (B : (-32768 <= truncate (c * 32767) <= 32767)%Z).
    { apply truncate_between; unfold inject_Z; lra. }
    now rewrite ToInt32_small.
Qed.

Ltac q_to_z :=
  unfold Qlt, Qle, Qceiling, Qfloor, Qopp, Qplus, Qmult in *;
  cbn [Qnum Qden] in *.

Lemma pcm_sample_clamp (v : Z) :
  is_int16 v -> clamp (pcm_sample v) = pcm_sample v.
Proof.
  intros [H1 H2]. unfold pcm_sample.
  destruct (clamp_finite (v # 32768)) as (c & -> & _ & _ & _ & Hc).
  rewrite Hc; [reflexivity|]. q_to_z. lia.
Qed.

Lemma scaled_below_half (v : Z) :
  (v < -16384)%Z ->
  scale (pcm_sample v) = Finite ((v # 32768) * 32768)
  /\ truncate ((v # 32768) * 32768) = v.
Proof.
  intros H. unfold pcm_sample, scale.
  assert (E : Qltb ((1 # 2) + (v # 32768)) 0 = true)
    by (apply Qltb_lt; q_to_z; lia).
  rewrite E. split; [reflexivity|].
  unfold truncate.
  assert (N : Qle_bool 0 ((v # 32768) * 32768) = false).
  { apply not_true_is_false. intros A. apply Qle_bool_iff in A.
    q_to_z. lia. }
  rewrite N. q_to_z. Z.div_mod_to_equations. lia.
Qed.

Lemma scaled_from_half (v : Z) :
  (-16384 <= v <= 32767)%Z ->
  scale (pcm_sample v) = Finite ((v # 32768) * 32767)
  /\ truncate ((v # 32768) * 32767)
     = (if (v <? 0)%Z then v + 1 else if (v =? 0)%Z then 0 else v - 1)%Z.
Proof.
  intros H. unfold pcm_sample, scale.
  assert (E : Qltb ((1 # 2) + (v # 32768)) 0 = false)
    by (apply Qltb_ge; q_to_z; lia).
  rewrite E. split; [reflexivity|].
  unfold truncate.
  destruct (v <? 0)%Z eqn:E2.
  - apply Z.ltb_lt in E2.
    assert (N : Qle_bool 0 ((v # 32768) * 32767) = false).
    { apply not_true_is_false. intros A. apply Qle_bool_iff in A.
      q_to_z. lia. }
    rewrite N. q_to_z. Z.div_mod_to_equations. lia.
  - apply Z.ltb_ge in E2.
    assert (N : Qle_bool 0 ((v # 32768) * 32767) = true)
      by (apply Qle_bool_iff; q_to_z; lia).
    rewrite N. destruct (v =? 0)%Z eqn:E3.
    + apply Z.eqb_eq in E3. subst v. reflexivity.
    + apply Z.eqb_neq in E3. q_to_z. Z.div_mod_to_equations. lia.
Qed.

(** Decoding and exporting again does not give the element back: an
    element below -16384 is kept, an element from -16384 to -1 comes back
    one higher, 0 is kept, and a positive element comes back one lower. *)
Lemma pcm_sample_reencoded (v : Z) :
  is_int16 v -> pcm16 (pcm_sample v) = reencoded v.
Proof.
  intros Hv. unfold pcm16. rewrite (pcm_sample_clamp v Hv).
  destruct Hv as [H1 H2]. unfold reencoded.
  destruct (v <? -16384)%Z eqn:E1.
  - apply Z.ltb_lt in E1.
    destruct (scaled_below_half v E1) as [-> T].
    rewrite ToInt32_small; rewrite T; lia.
  - apply Z.ltb_ge in E1.
    destruct (scaled_from_half v (conj E1 H2)) as [-> T].
    rewrite ToInt32_small; rewrite T; [reflexivity|].
    destruct (v <? 0)%Z eqn:E2;
      [apply Z.ltb_lt in E2; lia | apply Z.ltb_ge in E2].
    destruct (v =? 0)%Z; lia.
Qed.

(** X20. The samples of a decoded payload, whatever its bytes are.  Each
    of them is the quotient of a 16-bit element by 32768 and lies in the
    range from -1 up to, but not including, 1.  Exporting it does not give
    the element back: the encoder stores an element below -16384 as it was,
    an element from -16384 to -1 one higher, 0 as 0, and a positive element
    one lower. *)
Theorem decoded_samples_law
  (atob : jsstring -> option jsstring) (base64Data : jsstring)
  (ctx ctx' : AudioContext) (buffer : AudioBuffer sample) :
  decodeAudioData NaN pcm_sample atob base64Data ctx = Decoded buffer ctx' ->
  Forall (Forall decoded_sample) (channels buffer).
Proof.
  intros H.
  destruct (atob base64Data) as [s|] eqn:Ea;
    [|unfold decodeAudioData in H; rewrite Ea in H; discriminate].
  destruct (le_lt_dec 2 (length s)) as [Hs|Hs];
    [|rewrite (decode_short sample NaN pcm_sample atob base64Data s ctx
                 Ea Hs) in H; discriminate].
  destruct (supportsRate ctx 24000) eqn:Hr.
  - rewrite (decode_ok sample NaN pcm_sample atob base64Data s ctx
               Ea Hs Hr) in H.
    injection H as <- _. simpl. constructor; [|constructor].
    apply Forall_forall. intros x Hin.
    apply in_map_iff in Hin as (v & <- & Hv).
    pose proof (int16_array_range (bytes_of s) (bytes_of_range s)) as R.
    rewrite Forall_forall in R. pose proof (R v Hv) as Rv.
    split.
    + exists (v # 32768). split; [reflexivity|].
      destruct Rv as [R1 R2]. q_to_z. lia.
    + exists v. repeat split; try apply Rv.
      now apply pcm_sample_reencoded.
  - unfold decodeAudioData, createBuffer in H. rewrite Ea, Hr in H.
    cbv zeta in H. rewrite orb_true_r in H. discriminate.
Qed.

End Samples.

Lemma decoded_samples_law_witness :
  Forall (Forall decoded_sample) [[pcm_sample 16384]].
Proof.
  apply (decoded_samples_law sample_atob (lit "AEA=") browser
           {| ctxSampleRate := 48000;
              minSampleRate := 8000;
              maxSampleRate := 96000;
              allocated := 2 |}
           {| ident := 1;
              bufLength := 1;
              sampleRate := 24000;
              channels := [[pcm_sample 16384]] |}).
  reflexivity.
Defined.

(** *** The layout of the file *)

Local Open Scope nat_scope.

Lemma le_bytes_length (width : nat) (v : Z) : length (le_bytes width v) = width.
Proof. unfold le_bytes. now rewrite length_map, length_seq. Qed.

Lemma set_bytes_next (done bytes : list Z) (k : nat) :
  set_bytes (done ++ repeat 0%Z (length bytes + k)) (length done) bytes
  = Ok ((done ++ bytes) ++ repeat 0%Z k).
Proof.
  unfold set_bytes. rewrite typed_set_append by lia.
  rewrite <- app_assoc. do 4 f_equal. lia.
Qed.

Lemma setUint32_next (done : list Z) (k : nat) (data : Z) :
  setUint32 data {| view := done ++ repeat 0%Z (4 + k); pos := length done |}
  = Ok {| view := (done ++ le_bytes 4 data) ++ repeat 0%Z k;
          pos := length (done ++ le_bytes 4 data) |}.
Proof.
  unfold setUint32. cbn [view pos].
  rewrite <- (le_bytes_length 4 data) at 1. rewrite set_bytes_next.
  now rewrite length_app, le_bytes_length.
Qed.

Lemma setUint16_next (done : list Z) (k : nat) (data : Z) :
  setUint16 data {| view := done ++ repeat 0%Z (2 + k); pos := length done |}
  = Ok {| view := (done ++ le_bytes 2 data) ++ repeat 0%Z k;
          pos := length (done ++ le_bytes 2 data) |}.
Proof.
  unfold setUint16. cbn [view pos].
  rewrite <- (le_bytes_length 2 data) at 1. rewrite set_bytes_next.
  now rewrite length_app, le_bytes_length.
Qed.

Lemma write_header_closed (buffer : AudioBuffer sample) (length rest : nat) :
  write_header buffer length
    {| view := repeat 0%Z (44 + rest); pos := 0 |}
  = Ok {| view := header_bytes buffer length ++ repeat 0%Z rest; pos := 44 |}.
Proof.
  unfold write_header. cbv zeta.
  replace (44 + rest)
    with (4 + (4 + (4 + (4 + (4 + (2 + (2 + (4 + (4 + (2 + (2 + (4 + (4
          + rest))))))))))))) by lia.
  change (repeat 0%Z ?n) with ([] ++ repeat 0%Z n) at 1.
  change 0 with (@List.length Z []) at 1.
  repeat (first [rewrite setUint32_next | rewrite setUint16_next];
          cbn [andThen]).
  rewrite !length_app, !le_bytes_length.
  cbn [List.length Nat.add pos app].
  replace (Z.of_nat length - Z.of_nat 40 - 4)%Z
    with (Z.of_nat length - 44)%Z by lia.
  unfold header_bytes. cbv zeta. rewrite <- !app_assoc. reflexivity.
Qed.

Lemma write_frame_next (chans : list (list sample)) (p : nat) :
  forall (done : list Z) (offset k : nat),
    length done = 44 + offset ->
    write_frame chans p offset
                (done ++ repeat 0%Z (2 * length chans + k))
    = Ok ((done ++ flat_map (fun ch => le_bytes 2 (pcm16 (nth p ch NaN)))
                            chans)
          ++ repeat 0%Z k,
          offset + 2 * length chans).
Proof.
  induction chans as [|ch chans IH]; intros done offset k Hlen.
  - simpl. rewrite app_nil_r. do 2 f_equal. lia.
  - cbn [write_frame flat_map].
    replace (2 * length (ch :: chans) + k)
      with (length (le_bytes 2 (pcm16 (nth p ch NaN)))
            + (2 * length chans + k))
      by (rewrite le_bytes_length; simpl; lia).
    rewrite <- Hlen, set_bytes_next. cbn [andThen].
    rewrite IH by (rewrite length_app, le_bytes_length; lia).
    rewrite <- !app_assoc. do 2 f_equal. simpl. lia.
Qed.

Lemma write_frames_next (buffer : AudioBuffer sample) (fuel : nat) :
  forall (p : nat) (done : list Z) (offset k : nat),
    fuel <= bufLength buffer - p ->
    length done = 44 + offset ->
    write_frames fuel buffer p offset
      (done ++ repeat 0%Z (2 * numberOfChannels buffer * fuel + k))
    = Ok ((done ++ flat_map (frame_bytes buffer) (seq p fuel))
          ++ repeat 0%Z k).
Proof.
  induction fuel as [|fuel IH]; intros p done offset k Hp Hlen.
  - simpl. rewrite Nat.mul_0_r, app_nil_r. reflexivity.
  - cbn [write_frames seq flat_map].
    assert (Hlt : (p <? bufLength buffer) = true) by (apply Nat.ltb_lt; lia).
    rewrite Hlt.
    replace (2 * numberOfChannels buffer * S fuel + k)
      with (2 * length (channels buffer)
            + (2 * numberOfChannels buffer * fuel + k))
      by (unfold numberOfChannels; lia).
    rewrite write_frame_next by exact Hlen. cbn [andThen fst snd].
    fold (frame_bytes buffer p).
    rewrite (IH (S p) _ (offset + 2 * length (channels buffer))).
    + now rewrite <- !app_assoc.
    + lia.
    + rewrite length_app. unfold frame_bytes.
      assert (L : forall chans : list (list sample),
                 length (flat_map
                           (fun ch => le_bytes 2 (pcm16 (nth p ch NaN)))
                           chans) = 2 * length chans).
      { induction chans as [|c chans IHc]; [reflexivity|].
        cbn [flat_map]. rewrite length_app, le_bytes_length, IHc.
        simpl. lia. }
      rewrite L. lia.
Qed.

(** X21. The bytes of the exported file, for every buffer: the encoder
    raises no error and writes the 44 bytes of the header, then the frames of
    the buffer from frame 44 on, channel after channel within a frame, and
    then zeros up to the size announced in the header.  The frames 0 to 43
    are not written, because the frame counter of the loop is the variable
    that the header writes have advanced to 44; a buffer of 44 frames or
    fewer gives a file whose data are all zeros. *)
Theorem wav_layout (buffer : AudioBuffer sample) :
  audioBufferToWav buffer
  = Ok (header_bytes buffer
          (bufLength buffer * numberOfChannels buffer * 2 + 44)
        ++ flat_map (frame_bytes buffer) (seq 44 (bufLength buffer - 44))
        ++ repeat 0%Z (2 * numberOfChannels buffer
                       * Nat.min 44 (bufLength buffer))).
Proof.
  unfold audioBufferToWav. cbv zeta.
  set (C := numberOfChannels buffer). set (N := bufLength buffer).
  set (total := N * C * 2 + 44).
  replace (repeat 0%Z total) with (repeat 0%Z (44 + N * C * 2))
    by (f_equal; unfold total; lia).
  rewrite write_header_closed. cbn [andThen pos view].
  replace (N * C * 2)
    with (2 * numberOfChannels buffer * (N - 44) + 2 * C * Nat.min 44 N)
    by (fold C; nia).
  rewrite (write_frames_next buffer (N - 44) 44 _ 0).
  - now rewrite <- app_assoc.
  - unfold N. lia.
  - unfold header_bytes. cbv zeta. rewrite !length_app, !le_bytes_length.
    reflexivity.
Qed.

End EncoderFacts.

(** ** Properties of the derivation of the characters *)

Module CastingFacts.

Import Js ScriptParsing Gemini Casting JsFacts ParserFacts GeminiFacts.
Import GeminiNotions SynthesisFacts Samples ParserNotions.
Local Open Scope nat_scope.

(** *** Ordered maps *)

Section OrderedMaps.

Context {V : Type}.

Lemma om_get_set_same (m : ordered_map V) (key : jsstring) (v : V) :
  om_get (om_set m key v) key = Some v.
Proof.
  induction m as [|[k x] m IH]; simpl.
  - now rewrite str_eqb_refl.
  - destruct (str_eqb k key) eqn:E; simpl; rewrite E; [reflexivity | exact IH].
Qed.

Lemma om_get_set_other (m : ordered_map V) (key other : jsstring) (v : V) :
  key <> other -> om_get (om_set m key v) other = om_get m other.
Proof.
  intros Hne. induction m as [|[k x] m IH]; simpl.
  - apply str_eqb_neq in Hne. now rewrite Hne.
  - destruct (str_eqb k key) eqn:E; simpl.
    + apply str_eqb_eq in E. subst k.
      apply str_eqb_neq in Hne. now rewrite Hne.
    + now rewrite IH.
Qed.

Lemma om_get_none (m : ordered_map V) (key : jsstring) :
  om_get m key = None <-> ~ In key (map fst m).
Proof.
  induction m as [|[k x] m IH]; simpl; [tauto|].
  destruct (str_eqb k key) eqn:E.
  - apply str_eqb_eq in E. split; [discriminate | intros H; tauto].
  - apply str_eqb_neq in E. rewrite IH. tauto.
Qed.

Lemma om_keys_set (m : ordered_map V) (key : jsstring) (v : V) :
  map fst (om_set m key v)
  = match om_get m key with
    | Some _ => map fst m
    | None => map fst m ++ [key]
    end.
Proof.
  induction m as [|[k x] m IH]; simpl; [reflexivity|].
  destruct (str_eqb k key) eqn:E; simpl; [reflexivity|].
  rewrite IH. now destruct (om_get m key).
Qed.

Lemma om_set_in (m : ordered_map V) (key : jsstring) (v : V)
  (k : jsstring) (x : V) :
  In (k, x) (om_set m key v) -> (k = key /\ x = v) \/ In (k, x) m.
Proof.
  induction m as [|[k0 x0] m IH]; simpl.
  - intros [[= <- <-]|[]]. now left.
  - destruct (str_eqb k0 key) eqn:E; simpl.
    + apply str_eqb_eq in E. subst k0.
      intros [[= <- <-]|H]; [now left | right; now right].
    + intros [H|H]; [right; now left|].
      destruct (IH H) as [?|?]; [now left | right; now right].
Qed.

Lemma om_set_keeps_keys (m : ordered_map V) (key : jsstring) (v : V)
  (k : jsstring) :
  In k (map fst m) -> In k (map fst (om_set m key v)).
Proof.
  rewrite om_keys_set. destruct (om_get m key); [auto|].
  intros H. apply in_or_app. now left.
Qed.

Lemma om_set_has_key (m : ordered_map V) (key : jsstring) (v : V) :
  In key (map fst (om_set m key v)).
Proof.
  rewrite om_keys_set. destruct (om_get m key) eqn:E.
  - destruct (in_dec (list_eq_dec N.eq_dec) key (map fst m)) as [H|H];
      [exact H|]. apply om_get_none in H. congruence.
  - apply in_or_app. right. now left.
Qed.

Lemma om_set_NoDup (m : ordered_map V) (key : jsstring) (v : V) :
  NoDup (map fst m) -> NoDup (map fst (om_set m key v)).
Proof.
  intros H. rewrite om_keys_set. destruct (om_get m key) eqn:E; [exact H|].
  apply om_get_none in E.
  apply NoDup_rev in H. rewrite <- (rev_involutive (map fst m ++ [key])).
  apply NoDup_rev. rewrite rev_app_distr. simpl. constructor; [|exact H].
  intros Hin. apply E. now apply in_rev.
Qed.

End OrderedMaps.

Lemma seq_shift_by (start len : nat) :
  map (fun i => start + i) (seq 0 len) = seq start len.
Proof.
  revert start. induction len as [|len IH]; intros start; [reflexivity|].
  cbn [seq map]. rewrite Nat.add_0_r. f_equal.
  rewrite <- seq_shift, map_map, <- (IH (S start)).
  apply map_ext. intros i. lia.
Qed.

(** *** The speakers that are found *)

Section WithUnicode.

Variable U : Unicode.

Lemma note_speaker_tidy (m : ordered_map jsstring) (seen : list ParsedLine)
  (line : ParsedLine) :
  tidy U m seen -> tidy U (note_speaker U m line) (seen ++ [line]).
Proof.
  intros [Hk He Hs].
  assert (Hset : tidy U (om_set m (toLowerCase U (speakerClean line))
                              (speakerClean line)) (seen ++ [line])).
  { constructor.
    - now apply om_set_NoDup.
    - intros k v Hin. rewrite map_app. apply om_set_in in Hin as [[-> ->]|Hin].
      + split; [reflexivity|]. apply in_or_app. right. now left.
      + destruct (He k v Hin) as [E1 E2]. split; [exact E1|].
        apply in_or_app. now left.
    - intros l Hin. apply in_app_or in Hin as [Hin|[<-|[]]].
      + apply om_set_keeps_keys. now apply Hs.
      + apply om_set_has_key. }
  unfold note_speaker. cbv zeta.
  destruct (om_get m (toLowerCase U (speakerClean line))) as [stored|] eqn:E;
    [|exact Hset].
  destruct (is_upper_case U stored && negb (is_upper_case U (speakerClean line)));
    [exact Hset|].
  constructor.
  - exact Hk.
  - intros k v Hin. rewrite map_app. destruct (He k v Hin) as [E1 E2].
    split; [exact E1|]. apply in_or_app. now left.
  - intros l Hin. apply in_app_or in Hin as [Hin|[<-|[]]]; [now apply Hs|].
    destruct (in_dec (list_eq_dec N.eq_dec)
                     (toLowerCase U (speakerClean line)) (map fst m))
      as [H|H]; [exact H|].
    apply om_get_none in H. congruence.
Qed.

Lemma fold_note_tidy (lines : list ParsedLine) :
  forall m seen,
    tidy U m seen -> tidy U (fold_left (note_speaker U) lines m) (seen ++ lines).
Proof.
  induction lines as [|line lines IH]; intros m seen H; simpl.
  - now rewrite app_nil_r.
  - replace (seen ++ line :: lines) with ((seen ++ [line]) ++ lines)
      by (now rewrite <- app_assoc).
    apply IH. now apply note_speaker_tidy.
Qed.

Lemma uniqueMap_tidy (lines : list ParsedLine) :
  tidy U (uniqueMap_of U lines) lines.
Proof.
  apply (fold_note_tidy lines [] []). constructor.
  - constructor.
  - intros k v [].
  - intros line [].
Qed.

Lemma found_lower (lines : list ParsedLine) :
  map (toLowerCase U) (foundSpeakers U lines)
  = map fst (uniqueMap_of U lines).
Proof.
  unfold foundSpeakers. rewrite map_map.
  destruct (uniqueMap_tidy lines) as [_ He _].
  apply map_ext_in. intros [k v] Hin. now destruct (He k v Hin).
Qed.

Lemma found_speakers_law_keys (parsedLines : list ParsedLine) :
  NoDup (map (toLowerCase U) (foundSpeakers U parsedLines)).
Proof.
  rewrite found_lower. now destruct (uniqueMap_tidy parsedLines).
Qed.

(** X22. The speakers found in the parsed lines: no two of them are the
    same up to case, each of them is the sanitized name of a line, written
    as on that line, and the name of every line is among them up to
    case. *)
Theorem found_speakers_law (parsedLines : list ParsedLine) :
  NoDup (map (toLowerCase U) (foundSpeakers U parsedLines))
  /\ incl (foundSpeakers U parsedLines) (map speakerClean parsedLines)
  /\ incl (map (fun line => toLowerCase U (speakerClean line)) parsedLines)
          (map (toLowerCase U) (foundSpeakers U parsedLines)).
Proof.
  pose proof (uniqueMap_tidy parsedLines) as [Hk He Hs].
  rewrite found_lower. split; [exact Hk|]. split.
  - intros n Hin. unfold foundSpeakers in Hin.
    apply in_map_iff in Hin as ([k v] & <- & Hin).
    now destruct (He k v Hin).
  - intros k Hin. apply in_map_iff in Hin as (line & <- & Hin).
    now apply Hs.
Qed.

(** *** The display name *)

Lemma note_speaker_get (m : ordered_map jsstring) (line : ParsedLine)
  (key : jsstring) :
  om_get (note_speaker U m line) key
  = settle U (om_get m key) (variants U key [line]).
Proof.
  unfold variants, note_speaker. simpl. cbv zeta.
  destruct (str_eqb (toLowerCase U (speakerClean line)) key) eqn:E; simpl.
  - apply str_eqb_eq in E. subst key.
    destruct (om_get m (toLowerCase U (speakerClean line))) as [stored|] eqn:G.
    + destruct (is_upper_case U stored
                && negb (is_upper_case U (speakerClean line)));
        [apply om_get_set_same | exact G].
    + apply om_get_set_same.
  - apply str_eqb_neq in E.
    destruct (om_get m (toLowerCase U (speakerClean line))) as [stored|].
    + destruct (is_upper_case U stored
                && negb (is_upper_case U (speakerClean line)));
        [now apply om_get_set_other | reflexivity].
    + now apply om_get_set_other.
Qed.

Lemma settle_app (a b : list jsstring) :
  forall stored, settle U stored (a ++ b) = settle U (settle U stored a) b.
Proof.
  induction a as [|n a IH]; intros stored; simpl; [reflexivity | apply IH].
Qed.

Lemma variants_cons (key : jsstring) (line : ParsedLine)
  (lines : list ParsedLine) :
  variants U key (line :: lines)
  = variants U key [line] ++ variants U key lines.
Proof.
  unfold variants. simpl.
  now destruct (str_eqb (toLowerCase U (speakerClean line)) key).
Qed.

Lemma fold_note_get (lines : list ParsedLine) (key : jsstring) :
  forall m,
    om_get (fold_left (note_speaker U) lines m) key
    = settle U (om_get m key) (variants U key lines).
Proof.
  induction lines as [|line lines IH]; intros m; [reflexivity|].
  simpl fold_left. rewrite IH, note_speaker_get.
  rewrite (variants_cons key line lines).
  symmetry. apply settle_app.
Qed.

Lemma settle_lower (spellings : list jsstring) (s : jsstring) :
  is_upper_case U s = false -> settle U (Some s) spellings = Some s.
Proof.
  intros H. induction spellings as [|n rest IH]; simpl; [reflexivity|].
  now rewrite H.
Qed.

Lemma settle_upper (spellings : list jsstring) (s : jsstring) :
  is_upper_case U s = true ->
  settle U (Some s) spellings
  = match find (fun n => negb (is_upper_case U n)) spellings with
    | Some n => Some n
    | None => Some s
    end.
Proof.
  intros H. induction spellings as [|n rest IH]; simpl; [reflexivity|].
  rewrite H. simpl. destruct (is_upper_case U n) eqn:E; simpl.
  - exact IH.
  - now apply settle_lower.
Qed.

Lemma settle_preferred (spellings : list jsstring) :
  settle U None spellings = preferred U spellings.
Proof.
  destruct spellings as [|first rest]; [reflexivity|].
  simpl settle. unfold preferred.
  destruct (is_upper_case U first) eqn:E.
  - rewrite settle_upper by exact E. simpl. now rewrite E.
  - now apply settle_lower.
Qed.

(** X23. The display name of a speaker: of the spellings of one name
    (the names of the lines that agree up to case, in order), the panel keeps
    the first, unless the first is in upper case and some later spelling is
    not; then it keeps the first spelling that is not in upper case.  The
    speakers found are exactly these display names. *)
Theorem display_name_preference (parsedLines : list ParsedLine)
  (n : jsstring) :
  In n (foundSpeakers U parsedLines)
  <-> exists key, preferred U (variants U key parsedLines) = Some n.
Proof.
  pose proof (uniqueMap_tidy parsedLines) as [Hk He Hs].
  assert (G : forall key,
             om_get (uniqueMap_of U parsedLines) key
             = preferred U (variants U key parsedLines)).
  { intros key. unfold uniqueMap_of. rewrite fold_note_get. simpl.
    apply settle_preferred. }
  assert (In_get : forall (m : ordered_map jsstring) k v,
             NoDup (map fst m) -> (In (k, v) m <-> om_get m k = Some v)).
  { induction m as [|[k0 v0] m IH]; intros k v Hnd; simpl.
    - split; [intros [] | discriminate].
    - inversion Hnd as [|? ? Hnot Hnd']; subst.
      destruct (str_eqb k0 k) eqn:E.
      + apply str_eqb_eq in E. subst k0. split.
        * intros [[= ->]|Hin]; [reflexivity|].
          exfalso. apply Hnot. apply in_map_iff. now exists (k, v).
        * intros [= ->]. now left.
      + apply str_eqb_neq in E. rewrite <- (IH k v Hnd'). split.
        * intros [[= -> _]|Hin]; [congruence | exact Hin].
        * intros Hin. now right. }
  split.
  - intros Hin. unfold foundSpeakers in Hin.
    apply in_map_iff in Hin as ([k v] & <- & Hin).
    exists k. rewrite <- G. now apply In_get.
  - intros (key & Hp). rewrite <- G in Hp.
    apply In_get in Hp; [|exact Hk].
    unfold foundSpeakers. apply in_map_iff. now exists (key, n).
Qed.

(** *** The characters *)

Section Derivation.

Variable randomUUID : nat -> jsstring.

Lemma derive_one_names (prevMap : ordered_map Character) (d : derivation)
  (n : jsstring) :
  map name (newChars (derive_one U randomUUID prevMap d n))
  = map name (newChars d) ++ [n].
Proof.
  unfold derive_one. cbv zeta.
  destruct (om_get prevMap (toLowerCase U n)) as [existing|];
    destruct (registry_lookup U (registry d) n) as [regEntry|];
    cbn [newChars]; now rewrite map_app.
Qed.

Lemma fold_derive_names (prevMap : ordered_map Character)
  (names : list jsstring) :
  forall d,
    map name (newChars (fold_left (derive_one U randomUUID prevMap) names d))
    = map name (newChars d) ++ names.
Proof.
  induction names as [|n names IH]; intros d; simpl.
  - now rewrite app_nil_r.
  - now rewrite IH, derive_one_names, <- app_assoc.
Qed.

Lemma group_from_speakers (rawLines : list ParsedLine) :
  forall currentSegment segments s,
    In s (group_from currentSegment segments rawLines) ->
    In s segments
    \/ speaker s = speaker currentSegment
    \/ In (speaker s) (map speakerClean rawLines).
Proof.
  induction rawLines as [|line rest IH]; intros cur segs s Hin; simpl in Hin.
  - apply in_app_or in Hin as [H|[<-|[]]]; auto.
  - destruct (str_eqb (speakerClean line) (speaker cur)).
    + apply IH in Hin as [H|[H|H]]; auto. right. right. now right.
    + apply IH in Hin as [H|[H|H]].
      * apply in_app_or in H as [H|[<-|[]]]; auto.
      * right. right. left. now rewrite H.
      * right. right. now right.
Qed.

Lemma segment_speakers (rawLines : list ParsedLine) (s : DialogueSegment) :
  In s (groupSegments rawLines) ->
  In (speaker s) (map speakerClean rawLines).
Proof.
  destruct rawLines as [|first rest]; [intros []|].
  intros Hin. apply group_from_speakers in Hin as [[]|[H|H]].
  - left. now rewrite H.
  - now right.
Qed.

Lemma cast_of_name (characters : list Character) (who n : jsstring) :
  In n (map name characters) ->
  toLowerCase U n = toLowerCase U who ->
  cast U characters who = true.
Proof.
  intros Hin E. apply in_map_iff in Hin as (c & <- & Hin).
  unfold cast. apply existsb_exists. exists c. split; [exact Hin|].
  now apply str_eqb_eq.
Qed.

Lemma attempt_with_audio (data : jsstring) (fuel : nat)
  (segment : DialogueSegment) (req : request) (st : progress) :
  data <> [] ->
  exists st',
    attempt U (always_audio data) (S fuel) segment req st = Done st'.
Proof.
  intros H. cbn [attempt]. unfold always_audio.
  apply nonempty_true in H. rewrite H. eauto.
Qed.

Lemma process_segments_with_audio (data : jsstring)
  (characters : list Character) (segments : list DialogueSegment) :
  data <> [] ->
  Forall (fun s => cast U characters (speaker s) = true) segments ->
  forall st,
    exists st',
      process_segments U (always_audio data) (voiceMap_of U characters)
                       segments st = Done st'.
Proof.
  intros Hd. induction 1 as [|s rest Hs _ IH]; intros st;
    cbn [process_segments]; [eauto|].
  unfold process_segment.
  destruct (map_get (voiceMap_of U characters) (toLowerCase U (speaker s)))
    as [v|] eqn:E; [|apply voiceMap_get_none in E; congruence].
  destruct (nonempty (clean_text (text s))); cbn [negb]; [|apply IH].
  change MAX_RETRIES with (S 9).
  destruct (attempt_with_audio data 9 s
              {| req_text := clean_text (text s); req_voice := v;
                 req_speaker := speaker s; req_traits := traits v |} st Hd)
    as (st1 & ->).
  apply IH.
Qed.

(** X24. The characters that the panel derives from a script are a full
    cast for it: their names are the speakers found, in order; every grouped
    segment of the script has a character of its speaker's name up to case;
    and so a synthesis run with these characters, a key, and a provider that
    answers every request with audio returns, whatever the characters before
    and the registry were. *)
Theorem derived_characters_are_a_full_cast
  (script : jsstring) (prev : list Character)
  (registry0 : ordered_map registry_entry) (generated0 : nat) :
  let characters :=
    newChars (deriveCharacters U randomUUID script prev registry0
                               generated0) in
  map name characters = foundSpeakers U (parseScriptContent U script)
  /\ Forall (fun s => cast U characters (speaker s) = true)
            (groupSegments (parseScriptContent U script))
  /\ (forall apiKey data : jsstring,
        apiKey <> [] -> data <> [] ->
        exists st,
          generateDramaAudio U apiKey (always_audio data) script characters
          = Done st).
Proof.
  cbv zeta.
  assert (Hn : map name
                 (newChars (deriveCharacters U randomUUID script prev
                                             registry0 generated0))
               = foundSpeakers U (parseScriptContent U script)).
  { unfold deriveCharacters, derive_names. now rewrite fold_derive_names. }
  assert (Hc : Forall
                 (fun s =>
                    cast U (newChars (deriveCharacters U randomUUID script
                                        prev registry0 generated0))
                         (speaker s) = true)
                 (groupSegments (parseScriptContent U script))).
  { apply Forall_forall. intros s Hin. apply segment_speakers in Hin.
    apply in_map_iff in Hin as (line & E & Hin).
    destruct (uniqueMap_tidy (parseScriptContent U script)) as [_ _ Hs].
    specialize (Hs line Hin). rewrite <- found_lower in Hs.
    apply in_map_iff in Hs as (n & En & Hfound).
    apply (cast_of_name _ _ n); [now rewrite Hn | congruence]. }
  split; [exact Hn|]. split; [exact Hc|].
  intros apiKey data Hk Hd. unfold generateDramaAudio.
  apply nonempty_true in Hk. rewrite Hk. cbn [negb]. cbv zeta.
  now apply process_segments_with_audio.
Qed.

(** *** New characters *)

Lemma registry_lookup_unknown (registry0 : ordered_map registry_entry)
  (n : jsstring) :
  (forall k, In k (map fst registry0) ->
             toLowerCase U k <> toLowerCase U n) ->
  registry_lookup U registry0 n = None.
Proof.
  intros H. unfold registry_lookup.
  assert (G : om_get registry0 n = None).
  { apply om_get_none. intros Hin. now apply (H n). }
  rewrite G.
  destruct (find _ registry0) as [[k v]|] eqn:F; [|reflexivity].
  apply find_some in F as [Hin E]. simpl in E. apply str_eqb_eq in E.
  exfalso. apply (H k); [|exact E].
  apply in_map_iff. now exists (k, v).
Qed.

Lemma fold_derive_fresh (names : list jsstring) :
  forall d,
    NoDup (map (toLowerCase U) names) ->
    (forall k n, In k (map fst (registry d)) -> In n names ->
                 toLowerCase U k <> toLowerCase U n) ->
    let d' := fold_left (derive_one U randomUUID []) names d in
    newChars d'
    = newChars d
      ++ map (fun i =>
                {| id := randomUUID (generated d + i);
                   name := nth i names [];
                   voice := nth ((voiceIndex d + i) mod length AVAILABLE_VOICES)
                                AVAILABLE_VOICES Puck;
                   pitch := 1 |})
             (seq 0 (length names))
    /\ map fst (registry d') = map fst (registry d) ++ names.
Proof.
  induction names as [|n names IH]; intros d Hnd Hreg; cbv zeta.
  - simpl. now rewrite !app_nil_r.
  - cbn [fold_left].
    assert (Hone : derive_one U randomUUID [] d n
                   = {| newChars :=
                          newChars d
                          ++ [{| id := randomUUID (generated d); name := n;
                                 voice := nth (voiceIndex d
                                               mod length AVAILABLE_VOICES)
                                              AVAILABLE_VOICES Puck;
                                 pitch := 1 |}];
                        registry :=
                          om_set (registry d) n
                            {| reg_voice :=
                                 nth (voiceIndex d mod length AVAILABLE_VOICES)
                                     AVAILABLE_VOICES Puck;
                               reg_pitch := 1 |};
                        voiceIndex := S (voiceIndex d);
                        generated := S (generated d) |}).
    { unfold derive_one. cbv zeta. cbn [om_get].
      rewrite registry_lookup_unknown; [reflexivity|].
      intros k Hk. apply Hreg; [exact Hk | now left]. }
    rewrite Hone. inversion Hnd as [|? ? Hnot Hnd']; subst.
    match goal with
    | |- context [fold_left _ names ?d1] => specialize (IH d1 Hnd')
    end.
    cbv zeta in IH.
    assert (Hkeys : map fst (om_set (registry d) n
                      {| reg_voice :=
                           nth (voiceIndex d mod length AVAILABLE_VOICES)
                               AVAILABLE_VOICES Puck;
                         reg_pitch := 1 |})
                    = map fst (registry d) ++ [n]).
    { rewrite om_keys_set.
      assert (G : om_get (registry d) n = None).
      { apply om_get_none. intros Hin.
        apply (Hreg n n Hin); [now left | reflexivity]. }
      now rewrite G. }
    destruct IH as [IH1 IH2].
    { cbn [registry]. rewrite Hkeys. intros k m Hk Hm.
      apply in_app_or in Hk as [Hk|[<-|[]]].
      - apply Hreg; [exact Hk | now right].
      - intros E. apply Hnot. rewrite E. now apply in_map. }
    split.
    + rewrite IH1. cbn [newChars generated voiceIndex].
      rewrite <- app_assoc. f_equal. cbn [length seq map app nth].
      rewrite !Nat.add_0_r. f_equal.
      rewrite <- seq_shift, map_map. apply map_ext. intros i.
      cbn [nth]. now rewrite !Nat.add_succ_r.
    + rewrite IH2. cbn [registry]. now rewrite Hkeys, <- app_assoc.
Qed.

(** X25. With no characters before and an empty registry, the characters
    of a script get the voices of [AVAILABLE_VOICES] in turn, in the order
    in which the speakers are found, and the pitch 1: the sixth speaker has
    the voice of the first again.  The registry then holds one entry for
    each of them, under the display name. *)
Theorem new_characters_get_voices_in_turn
  (script : jsstring) (generated0 : nat) :
  let found := foundSpeakers U (parseScriptContent U script) in
  let d := deriveCharacters U randomUUID script [] [] generated0 in
  map voice (newChars d) = voices_in_turn (length found)
  /\ Forall (fun c => pitch c = 1%Q) (newChars d)
  /\ map id (newChars d)
     = map randomUUID (seq generated0 (length found))
  /\ map fst (registry d) = found.
Proof.
  cbv zeta. unfold deriveCharacters, derive_names.
  change (prevMap_of U []) with (@nil (jsstring * Character)).
  set (found := foundSpeakers U (parseScriptContent U script)).
  destruct (fold_derive_fresh found
              {| newChars := []; registry := []; voiceIndex := 0;
                 generated := generated0 |}) as [H1 H2].
  - apply found_speakers_law_keys.
  - intros k n [].
  - cbn [newChars registry generated voiceIndex app Nat.add] in H1, H2.
    rewrite H1, H2. repeat split.
    + rewrite map_map. reflexivity.
    + apply Forall_forall. intros c Hin.
      apply in_map_iff in Hin as (i & <- & _). reflexivity.
    + rewrite map_map. cbn [id].
      rewrite <- (seq_shift_by generated0). now rewrite map_map.
Qed.

End Derivation.

End WithUnicode.

End CastingFacts.

(** ** Properties of the assembly of the track *)

Module StudioFacts.

Import Js ScriptParsing Gemini Audio Decode Studio JsFacts AudioFacts.
Import AudioNotions ConcatenationFacts DecodeFacts GeminiFacts SynthesisFacts Samples.
Local Open Scope nat_scope.

Section Assemble.

Context {F : Type} {num : Number F}.
Variable U : Unicode.
Variable atob : jsstring -> option jsstring.

Lemma pitch_fold (characters : list Character) :
  forall m : string_map Q,
    fold_left (fun m c => map_set m (toLowerCase U (name c)) (pitch c))
              characters m
    = rev (map (fun c => (toLowerCase U (name c), pitch c)) characters) ++ m.
Proof.
  induction characters as [|c rest IH]; intros m; simpl; [reflexivity|].
  rewrite IH. unfold map_set. now rewrite <- app_assoc.
Qed.

Lemma map_get_in {V} (m : string_map V) (key : jsstring) (v : V) :
  map_get m key = Some v -> In v (map snd m).
Proof.
  induction m as [|[k x] m IH]; simpl; [discriminate|].
  destruct (str_eqb k key); [intros [= ->]; now left | auto].
Qed.

(** With every pitch at 1, every speaker has the rate 1. *)
Lemma neutral_pitch (characters : list Character) (who : jsstring) :
  Forall (fun c => pitch c = 1%Q) characters ->
  pitch_for U (charPitchMap_of U characters) who = of_Q 1.
Proof.
  intros H. unfold pitch_for.
  destruct (map_get (charPitchMap_of U characters) (toLowerCase U who))
    as [p|] eqn:E; [|reflexivity].
  apply map_get_in in E. unfold charPitchMap_of in E.
  rewrite pitch_fold, app_nil_r, <- map_rev, map_map in E. simpl in E.
  apply in_map_iff in E as (c & <- & Hin). apply in_rev in Hin.
  rewrite Forall_forall in H. now rewrite (H c Hin).
Qed.

Lemma advance_zero (ctx : AudioContext) : advance ctx 0 = ctx.
Proof. destruct ctx. unfold advance. simpl. now rewrite Nat.add_0_r. Qed.

Lemma advance_advance (ctx : AudioContext) (a b : nat) :
  advance (advance ctx a) b = advance ctx (a + b).
Proof. unfold advance. simpl. f_equal. lia. Qed.

Lemma samples_length (segment : AudioSegment) (s : jsstring) :
  atob (audio segment) = Some s ->
  length (samples_of (F := F) atob segment) = length s / 2.
Proof.
  intros H. unfold samples_of. rewrite H.
  now rewrite length_map, int16_array_length, bytes_of_length.
Qed.

(** Decoding a playable segment. *)
Lemma decode_playable (segment : AudioSegment) (ctx : AudioContext) :
  playable atob segment ->
  supportsRate ctx 24000 = true ->
  decodeAudioData (of_Z 0) number_sample atob (audio segment) ctx
  = Decoded (decoded_buffer atob (allocated ctx) segment) (advance ctx 1).
Proof.
  intros (s & Ha & Hs) Hr.
  rewrite (decode_ok F (of_Z 0) number_sample atob (audio segment) s ctx
             Ha Hs Hr).
  unfold decoded_buffer, advance. rewrite (samples_length segment s Ha).
  unfold samples_of. rewrite Ha. do 2 f_equal. lia.
Qed.

Lemma decoded_well_formed (ctx : AudioContext) (before : nat)
  (segment : AudioSegment) :
  playable atob segment ->
  supportsRate ctx 24000 = true ->
  well_formed ctx (decoded_buffer (F := F) atob before segment).
Proof.
  intros (s & Ha & Hs) Hr. constructor.
  - unfold numberOfChannels. simpl. lia.
  - simpl. rewrite (samples_length segment s Ha).
    apply Nat.div_le_lower_bound; lia.
  - exact Hr.
  - simpl. now constructor.
Qed.

Section Neutral.

Variable characters : list Character.
Hypothesis one_is_one : feq (of_Q 1) (of_Q 1) = true.
Hypothesis neutral : Forall (fun c => pitch c = 1%Q) characters.

Lemma process_neutral (segments : list AudioSegment) :
  Forall (playable atob) segments ->
  forall (ctx : AudioContext) (done : list (AudioBuffer F)),
    supportsRate ctx 24000 = true ->
    process_buffers U atob (charPitchMap_of U characters) segments ctx done
    = Completed (done ++ decoded_buffers atob (allocated ctx) segments)
                (advance ctx (length segments)).
Proof.
  induction 1 as [|segment rest Hp _ IH]; intros ctx done Hr;
    cbn [process_buffers decoded_buffers length].
  - now rewrite app_nil_r, advance_zero.
  - rewrite (decode_playable segment ctx Hp Hr). cbv zeta.
    rewrite (neutral_pitch characters (audio_speaker segment) neutral).
    unfold resampleBuffer. rewrite one_is_one.
    rewrite IH by exact Hr.
    rewrite advance_advance, <- app_assoc. cbn [app Nat.add].
    replace (allocated (advance ctx 1)) with (S (allocated ctx))
      by (unfold advance; cbn [allocated]; lia).
    reflexivity.
Qed.

Lemma decoded_total (segments : list AudioSegment) :
  forall before,
    totalLength (decoded_buffers (F := F) atob before segments)
    = length (track_samples (F := F) atob segments).
Proof.
  induction segments as [|segment rest IH]; intros before; [reflexivity|].
  cbn [decoded_buffers]. rewrite totalLength_cons, IH.
  unfold track_samples. cbn [map concat]. now rewrite length_app.
Qed.

Lemma decoded_joined (segments : list AudioSegment) :
  forall before,
    joined (of_Z 0) (decoded_buffers (F := F) atob before segments) 0
    = track_samples atob segments.
Proof.
  induction segments as [|segment rest IH]; intros before; [reflexivity|].
  unfold joined in *. cbn [decoded_buffers map concat].
  rewrite IH. reflexivity.
Qed.

Lemma decoded_all_well_formed (ctx : AudioContext)
  (segments : list AudioSegment) :
  Forall (playable atob) segments ->
  supportsRate ctx 24000 = true ->
  forall before,
    Forall (well_formed ctx) (decoded_buffers (F := F) atob before segments).
Proof.
  intros H Hr. induction H as [|segment rest Hp _ IH]; intros before;
    cbn [decoded_buffers]; constructor; auto.
  now apply decoded_well_formed.
Qed.

(** X26. With every character at the pitch 1, the track that the studio
    assembles is the concatenation of the decoded payloads: for segments
    whose payloads hold at least one frame each, in a context that supports
    24000 Hz, the result is a mono buffer of 24000 Hz whose samples are the
    samples of the first payload, then those of the second, and so on, so
    that its length is the sum of the frame counts. *)
Theorem neutral_pitch_track
  (first : AudioSegment) (rest : list AudioSegment) (ctx : AudioContext) :
  Forall (playable atob) (first :: rest) ->
  supportsRate ctx 24000 = true ->
  assemble U atob (first :: rest) characters ctx
  = Some (Completed
            {| ident := allocated ctx + length (first :: rest);
               bufLength := length (track_samples (F := F) atob
                                                  (first :: rest));
               sampleRate := 24000;
               channels := [track_samples atob (first :: rest)] |}
            (advance ctx (S (length (first :: rest))))).
Proof.
  intros Hp Hr. unfold assemble.
  rewrite (process_neutral (first :: rest) Hp ctx [] Hr). cbn [app].
  assert (Hr' : supportsRate (advance ctx (length (first :: rest))) 24000
                = true) by exact Hr.
  pose proof (decoded_all_well_formed
                (advance ctx (length (first :: rest))) (first :: rest)
                Hp Hr' (allocated ctx)) as Hwf.
  cbn [decoded_buffers] in *.
  rewrite (concatenate_result (of_Z 0)
             (advance ctx (length (first :: rest))) _ _ Hwf).
  do 2 f_equal.
  - f_equal.
    + exact (decoded_total (first :: rest) (allocated ctx)).
    + cbn [numberOfChannels decoded_buffer channels length seq map].
      f_equal. exact (decoded_joined (first :: rest) (allocated ctx)).
  - unfold advance. cbn [allocated ctxSampleRate minSampleRate
                          maxSampleRate]. f_equal. lia.
Qed.

End Neutral.

(** *** Failures *)

Lemma decoded_is_playable (segment : AudioSegment) (ctx ctx' : AudioContext)
  (buffer : AudioBuffer F) :
  decodeAudioData (of_Z 0) number_sample atob (audio segment) ctx
  = Decoded buffer ctx' ->
  playable atob segment /\ supportsRate ctx 24000 = true.
Proof.
  intros H.
  destruct (atob (audio segment)) as [s|] eqn:Ea;
    [|unfold decodeAudioData in H; rewrite Ea in H; discriminate].
  destruct (le_lt_dec 2 (length s)) as [Hs|Hs];
    [|rewrite (decode_short F (of_Z 0) number_sample atob (audio segment) s
                 ctx Ea Hs) in H; discriminate].
  split; [now exists s|].
  destruct (supportsRate ctx 24000) eqn:Hr; [reflexivity|].
  unfold decodeAudioData, createBuffer in H. rewrite Ea, Hr in H.
  cbv zeta in H. rewrite orb_true_r in H. discriminate.
Qed.

Lemma process_completed (charPitchMap : string_map Q)
  (segments : list AudioSegment) :
  forall (ctx ctx' : AudioContext) (done buffers : list (AudioBuffer F)),
    process_buffers U atob charPitchMap segments ctx done
    = Completed buffers ctx' ->
    Forall (playable atob) segments
    /\ length buffers = length done + length segments
    /\ (segments <> [] -> supportsRate ctx 24000 = true).
Proof.
  induction segments as [|segment rest IH]; intros ctx ctx' done buffers H;
    cbn [process_buffers] in H.
  - injection H as <- _. repeat split; [constructor | simpl; lia | congruence].
  - destruct (decodeAudioData (of_Z 0) number_sample atob (audio segment) ctx)
      as [buffer ctx1| |e] eqn:D; try discriminate.
    apply decoded_is_playable in D as [Hp Hr]. cbv zeta in H.
    destruct (resampleBuffer buffer _ ctx1) as [[finalBuffer ctx2]|e];
      [|discriminate].
    apply IH in H as (H1 & H2 & _).
    repeat split; [now constructor | | auto].
    rewrite H2, length_app. simpl. lia.
Qed.

(** X27. No partial track: whatever the pitches are, when the studio
    completes a track, every payload was base64 text of at least two bytes
    and the context supports 24000 Hz.  A single payload that is not base64,
    or that holds less than one frame, makes the whole assembly fail. *)
Theorem completed_track_needs_every_payload
  (segments : list AudioSegment) (characters : list Character)
  (ctx ctx' : AudioContext) (track : AudioBuffer F) :
  assemble U atob segments characters ctx = Some (Completed track ctx') ->
  segments <> []
  /\ Forall (playable atob) segments
  /\ supportsRate ctx 24000 = true.
Proof.
  unfold assemble. destruct segments as [|first rest]; [discriminate|].
  destruct (process_buffers U atob (charPitchMap_of U characters)
              (first :: rest) ctx []) as [buffers ctx1|why] eqn:P;
    [|discriminate].
  intros _. apply process_completed in P as (H1 & _ & H3).
  repeat split; [discriminate | exact H1 | apply H3; discriminate].
Qed.

End Assemble.

(** *** Instances on doubles *)

Lemma two_segments_playable : Forall (playable sample_atob) two_segments.
Proof.
  repeat constructor.
  - exists [0x00; 0x40]%N. split; [reflexivity | simpl; lia].
  - exists [0x00; 0x40; 0xFF]%N. split; [reflexivity | simpl; lia].
Qed.

Lemma neutral_pitch_track_witness :
  assemble (F := spec_float) basic_latin sample_atob two_segments
           [character "Hero" Kore; character "Villain" Puck] browser
  = Some (Completed
            {| ident := 3;
               bufLength := 2;
               sampleRate := 24000;
               channels := [track_samples sample_atob two_segments] |}
            (advance browser 3)).
Proof.
  apply (neutral_pitch_track (F := spec_float) basic_latin sample_atob
           [character "Hero" Kore; character "Villain" Puck]).
  - reflexivity.
  - repeat constructor.
  - exact two_segments_playable.
  - reflexivity.
Defined.

Lemma completed_track_needs_every_payload_witness :
  two_segments <> []
  /\ Forall (playable sample_atob) two_segments
  /\ supportsRate browser 24000 = true.
Proof.
  apply (completed_track_needs_every_payload (F := spec_float) basic_latin
           sample_atob two_segments
           [character "Hero" Kore; character "Villain" Puck] browser
           (advance browser 3)
           {| ident := 3;
              bufLength := 2;
              sampleRate := 24000;
              channels :=
                [track_samples (F := spec_float) sample_atob
                               two_segments] |}).
  vm_compute. reflexivity.
Defined.

End StudioFacts.

(** ** Properties of a changed cast *)

Module RecastingFacts.

Import Js ScriptParsing Gemini Casting Recasting JsFacts CastingFacts.
Import Samples ParserNotions.
Local Open Scope nat_scope.

Section WithUnicode.

Variable U : Unicode.
Variable randomUUID : nat -> jsstring.

(** *** Identifiers *)

Lemma prevMap_fold (prev : list Character) :
  forall (m : ordered_map Character) (seen : list Character),
    (forall key, prevMap_entry U seen key (om_get m key)) ->
    forall key,
      prevMap_entry U (seen ++ prev) key
        (om_get (fold_left (fun m c => om_set m (toLowerCase U (name c)) c)
                           prev m) key).
Proof.
  induction prev as [|x prev IH]; intros m seen H key; simpl.
  - rewrite app_nil_r. apply H.
  - replace (seen ++ x :: prev) with ((seen ++ [x]) ++ prev)
      by (now rewrite <- app_assoc).
    apply IH. clear key. intros key.
    destruct (list_eq_dec N.eq_dec (toLowerCase U (name x)) key) as [E|E].
    + subst key. rewrite om_get_set_same. simpl. split; [|reflexivity].
      apply in_or_app. right. now left.
    + rewrite om_get_set_other by exact E.
      specialize (H key). unfold prevMap_entry in *.
      destruct (om_get m key) as [c|].
      * destruct H as [H1 H2]. split; [|exact H2].
        apply in_or_app. now left.
      * intros c Hin. apply in_app_or in Hin as [Hin|[<-|[]]]; auto.
Qed.

Lemma prevMap_spec (prev : list Character) (key : jsstring) :
  prevMap_entry U prev key (om_get (prevMap_of U prev) key).
Proof.
  apply (prevMap_fold prev [] []). intros k c [].
Qed.

Lemma derive_one_identity (prev : list Character) (first : nat)
  (d : derivation) (n : jsstring) :
  first <= generated d ->
  Forall (fun c' => continues U prev c'
                    \/ brand_new U randomUUID prev first (generated d) c')
         (newChars d) ->
  let d' := derive_one U randomUUID (prevMap_of U prev) d n in
  generated d <= generated d' <= S (generated d)
  /\ Forall (fun c' => continues U prev c'
                       \/ brand_new U randomUUID prev first (generated d') c')
            (newChars d').
Proof.
  intros Hfirst Hall. cbv zeta.
  assert (Hmono : forall g, generated d <= g ->
            Forall (fun c' => continues U prev c'
                              \/ brand_new U randomUUID prev first g c')
                   (newChars d)).
  { intros g Hg. eapply Forall_impl; [|exact Hall].
    intros c' [H|[H1 (k & Hk & E)]]; [now left|].
    right. split; [exact H1|]. exists k. split; [lia | exact E]. }
  pose proof (prevMap_spec prev (toLowerCase U n)) as Hp.
  unfold derive_one. cbv zeta.
  destruct (om_get (prevMap_of U prev) (toLowerCase U n)) as [existing|];
    simpl in Hp.
  - cbn [generated newChars]. split; [lia|].
    apply Forall_app. split; [now apply Hmono|].
    constructor; [|constructor]. left. exists existing.
    destruct Hp as [Hin E].
    destruct (registry_lookup U (registry d) n); simpl; auto.
  - destruct (registry_lookup U (registry d) n) as [regEntry|];
      cbn [generated newChars]; (split; [lia|]);
      (apply Forall_app; split; [apply Hmono; lia|]);
      (constructor; [|constructor]); right; (split; [exact Hp|]);
      exists (generated d); (split; [lia | reflexivity]).
Qed.

Lemma fold_derive_identity (prev : list Character) (first : nat)
  (names : list jsstring) :
  forall d,
    first <= generated d ->
    Forall (fun c' => continues U prev c'
                      \/ brand_new U randomUUID prev first (generated d) c')
           (newChars d) ->
    let d' := fold_left (derive_one U randomUUID (prevMap_of U prev))
                        names d in
    generated d <= generated d' <= generated d + length names
    /\ Forall (fun c' => continues U prev c'
                         \/ brand_new U randomUUID prev first (generated d')
                                      c')
              (newChars d').
Proof.
  induction names as [|n names IH]; intros d Hfirst Hall; cbv zeta.
  - simpl. split; [lia | exact Hall].
  - cbn [fold_left length].
    destruct (derive_one_identity prev first d n Hfirst Hall) as [H1 H2].
    destruct (IH (derive_one U randomUUID (prevMap_of U prev) d n))
      as [H3 H4]; [lia | exact H2|].
    split; [lia | exact H4].
Qed.

(** X28. Identifiers are stable.  Every derived character either continues
    a character from before, one with the same name up to case, and keeps
    its identifier, or it is new: then no character from before has its
    name up to case, and its identifier is one of those drawn during this
    derivation.  At most one identifier is drawn for each speaker found. *)
Theorem identifiers_are_stable
  (script : jsstring) (prev : list Character)
  (registry0 : ordered_map registry_entry) (generated0 : nat) :
  let d := deriveCharacters U randomUUID script prev registry0 generated0 in
  Forall (fun c' => continues U prev c'
                    \/ brand_new U randomUUID prev generated0 (generated d) c')
         (newChars d)
  /\ generated0 <= generated d
     <= generated0 + length (foundSpeakers U (parseScriptContent U script)).
Proof.
  cbv zeta. unfold deriveCharacters, derive_names.
  destruct (fold_derive_identity prev generated0
              (foundSpeakers U (parseScriptContent U script))
              {| newChars := []; registry := registry0; voiceIndex := 0;
                 generated := generated0 |}) as [H1 H2].
  - simpl. lia.
  - constructor.
  - cbn [generated] in H1. split; [exact H2 | exact H1].
Qed.

(** *** The registry decides *)

Lemma registry_lookup_exact (registry0 : ordered_map registry_entry)
  (n : jsstring) (e : registry_entry) :
  om_get registry0 n = Some e -> registry_lookup U registry0 n = Some e.
Proof. intros H. unfold registry_lookup. now rewrite H. Qed.

Lemma derive_one_keeps (prevMap : ordered_map Character) (d : derivation)
  (n : jsstring) (c : Character) :
  In c (newChars d) -> In c (newChars (derive_one U randomUUID prevMap d n)).
Proof.
  intros H. unfold derive_one. cbv zeta.
  destruct (om_get prevMap (toLowerCase U n));
    destruct (registry_lookup U (registry d) n);
    cbn [newChars]; apply in_or_app; now left.
Qed.

Lemma fold_derive_keeps (prevMap : ordered_map Character)
  (names : list jsstring) (c : Character) :
  forall d,
    In c (newChars d) ->
    In c (newChars (fold_left (derive_one U randomUUID prevMap) names d)).
Proof.
  induction names as [|n names IH]; intros d H; simpl; [exact H|].
  apply IH. now apply derive_one_keeps.
Qed.

Lemma derive_one_registry (prevMap : ordered_map Character) (d : derivation)
  (n other : jsstring) :
  n <> other ->
  om_get (registry (derive_one U randomUUID prevMap d n)) other
  = om_get (registry d) other.
Proof.
  intros Hne. unfold derive_one. cbv zeta.
  destruct (om_get prevMap (toLowerCase U n));
    destruct (registry_lookup U (registry d) n);
    cbn [registry]; try reflexivity.
  now apply om_get_set_other.
Qed.

(** A registry entry under a display name decides the voice and the pitch
    of the character of that name. *)
Lemma fold_derive_registry_entry (prevMap : ordered_map Character)
  (names : list jsstring) (n : jsstring) (e : registry_entry) :
  forall d,
    NoDup names -> In n names ->
    om_get (registry d) n = Some e ->
    exists c',
      In c' (newChars (fold_left (derive_one U randomUUID prevMap) names d))
      /\ name c' = n /\ voice c' = reg_voice e /\ pitch c' = reg_pitch e.
Proof.
  induction names as [|n0 names IH]; intros d Hnd Hin Hreg; [destruct Hin|].
  inversion Hnd as [|? ? Hnot Hnd']; subst. cbn [fold_left].
  destruct Hin as [->|Hin].
  - assert (Hone : exists c',
               In c' (newChars (derive_one U randomUUID prevMap d n))
               /\ name c' = n /\ voice c' = reg_voice e
               /\ pitch c' = reg_pitch e).
    { unfold derive_one. cbv zeta.
      rewrite (registry_lookup_exact (registry d) n e Hreg).
      destruct (om_get prevMap (toLowerCase U n)); cbn [newChars];
        eexists; (split; [apply in_or_app; right; left; reflexivity|]);
        repeat split. }
    destruct Hone as (c' & H1 & H2).
    exists c'. split; [now apply fold_derive_keeps | exact H2].
  - apply IH; [exact Hnd' | exact Hin|].
    rewrite derive_one_registry; [exact Hreg|].
    intros ->. contradiction.
Qed.

(** *** Choices of the user *)

Lemma voice_change_elsewhere (target : jsstring) (newVoice : VoiceName)
  (prev : list Character) (registry0 : ordered_map registry_entry) :
  (forall x, In x prev -> id x <> target) ->
  handleVoiceChange target newVoice prev registry0 = (prev, registry0).
Proof.
  induction prev as [|x prev IH]; intros H; [reflexivity|].
  cbn [handleVoiceChange].
  assert (E : str_eqb (id x) target = false)
    by (apply str_eqb_neq, H; now left).
  rewrite E, IH; [reflexivity|]. intros y Hy. apply H. now right.
Qed.

Lemma pitch_change_elsewhere (target : jsstring) (newPitch : Q)
  (prev : list Character) (registry0 : ordered_map registry_entry) :
  (forall x, In x prev -> id x <> target) ->
  handlePitchChange target newPitch prev registry0 = (prev, registry0).
Proof.
  induction prev as [|x prev IH]; intros H; [reflexivity|].
  cbn [handlePitchChange].
  assert (E : str_eqb (id x) target = false)
    by (apply str_eqb_neq, H; now left).
  rewrite E, IH; [reflexivity|]. intros y Hy. apply H. now right.
Qed.

Lemma others_differ (c : Character) (prev : list Character) :
  ~ In (id c) (map id prev) -> forall x, In x prev -> id x <> id c.
Proof.
  intros Hnot x Hx E. apply Hnot. rewrite <- E. now apply in_map.
Qed.

Lemma voice_change_registry (newVoice : VoiceName) (c : Character)
  (prev : list Character) :
  NoDup (map id prev) -> In c prev ->
  forall registry0,
    snd (handleVoiceChange (id c) newVoice prev registry0)
    = om_set registry0 (name c)
             {| reg_voice := newVoice; reg_pitch := pitch c |}.
Proof.
  induction prev as [|x prev IH]; intros Hnd Hin registry0; [destruct Hin|].
  inversion Hnd as [|? ? Hnot Hnd']; subst. cbn [handleVoiceChange].
  destruct Hin as [->|Hin].
  - rewrite str_eqb_refl. cbv zeta.
    now rewrite (voice_change_elsewhere (id c) newVoice prev _
                   (others_differ c prev Hnot)).
  - assert (E : str_eqb (id x) (id c) = false).
    { apply str_eqb_neq. intros E. apply Hnot. rewrite E. now apply in_map. }
    rewrite E. specialize (IH Hnd' Hin registry0).
    destruct (handleVoiceChange (id c) newVoice prev registry0). exact IH.
Qed.

Lemma pitch_change_registry (newPitch : Q) (c : Character)
  (prev : list Character) :
  NoDup (map id prev) -> In c prev ->
  forall registry0,
    snd (handlePitchChange (id c) newPitch prev registry0)
    = om_set registry0 (name c)
             {| reg_voice := voice c; reg_pitch := newPitch |}.
Proof.
  induction prev as [|x prev IH]; intros Hnd Hin registry0; [destruct Hin|].
  inversion Hnd as [|? ? Hnot Hnd']; subst. cbn [handlePitchChange].
  destruct Hin as [->|Hin].
  - rewrite str_eqb_refl. cbv zeta.
    now rewrite (pitch_change_elsewhere (id c) newPitch prev _
                   (others_differ c prev Hnot)).
  - assert (E : str_eqb (id x) (id c) = false).
    { apply str_eqb_neq. intros E. apply Hnot. rewrite E. now apply in_map. }
    rewrite E. specialize (IH Hnd' Hin registry0).
    destruct (handlePitchChange (id c) newPitch prev registry0). exact IH.
Qed.

Lemma found_NoDup (parsedLines : list ParsedLine) :
  NoDup (foundSpeakers U parsedLines).
Proof.
  apply (NoDup_map_inv (toLowerCase U)), found_speakers_law_keys.
Qed.

(** X29. A choice of the user survives the next derivation.  When the
    characters have distinct identifiers and the voice, or the pitch, of one
    of them is changed, then for every script in which the name of that
    character is still a speaker found, spelled as the character is
    displayed, the derivation from the changed state gives the character of
    that name the chosen voice, or the chosen pitch, and leaves the other
    of the two as it was. *)
Theorem choice_survives_derivation
  (script : jsstring) (prev : list Character) (c : Character)
  (registry0 : ordered_map registry_entry) (generated0 : nat)
  (newVoice : VoiceName) (newPitch : Q) :
  NoDup (map id prev) -> In c prev ->
  In (name c) (foundSpeakers U (parseScriptContent U script)) ->
  (exists c',
      In c' (newChars
               (deriveCharacters U randomUUID script
                  (fst (handleVoiceChange (id c) newVoice prev registry0))
                  (snd (handleVoiceChange (id c) newVoice prev registry0))
                  generated0))
      /\ name c' = name c /\ voice c' = newVoice /\ pitch c' = pitch c)
  /\ (exists c',
        In c' (newChars
                 (deriveCharacters U randomUUID script
                    (fst (handlePitchChange (id c) newPitch prev registry0))
                    (snd (handlePitchChange (id c) newPitch prev registry0))
                    generated0))
        /\ name c' = name c /\ voice c' = voice c /\ pitch c' = newPitch).
Proof.
  intros Hnd Hin Hfound.
  pose proof (found_NoDup (parseScriptContent U script)) as Hnames.
  split; unfold deriveCharacters, derive_names.
  - apply (fold_derive_registry_entry _ _ (name c)
             {| reg_voice := newVoice; reg_pitch := pitch c |});
      [exact Hnames | exact Hfound|].
    cbn [registry].
    rewrite (voice_change_registry newVoice c prev Hnd Hin).
    apply om_get_set_same.
  - apply (fold_derive_registry_entry _ _ (name c)
             {| reg_voice := voice c; reg_pitch := newPitch |});
      [exact Hnames | exact Hfound|].
    cbn [registry].
    rewrite (pitch_change_registry newPitch c prev Hnd Hin).
    apply om_get_set_same.
Qed.

End WithUnicode.

(** *** Instances *)

Lemma two_identifiers : NoDup (map id [hero; villain]).
Proof.
  constructor; [simpl; intros [H|[]]; discriminate|].
  constructor; [intros [] | constructor].
Qed.

Lemma hero_is_found :
  In (name hero)
     (foundSpeakers basic_latin (parseScriptContent basic_latin hero_script)).
Proof. vm_compute. now left. Qed.

Lemma choice_survives_derivation_witness :
  exists c',
    In c' (newChars
             (deriveCharacters basic_latin sample_uuid hero_script
                (fst (handleVoiceChange (id hero) Fenrir [hero; villain] []))
                (snd (handleVoiceChange (id hero) Fenrir [hero; villain] []))
                0))
    /\ name c' = name hero /\ voice c' = Fenrir /\ pitch c' = pitch hero.
Proof.
  apply (proj1 (choice_survives_derivation basic_latin sample_uuid
                  hero_script [hero; villain] hero [] 0 Fenrir (6 # 5)
                  two_identifiers (or_introl eq_refl) hero_is_found)).
Defined.

End RecastingFacts.

(** ** The characters of a sanitized name *)

Module SanitizerFacts.

Import Js ScriptParsing JsFacts ParserFacts ParserNotions ParserLaws.
Import SanitizerNotions Samples.
Local Open Scope N_scope.

Ltac to_props :=
  repeat match goal with
         | H : _ || _ = true |- _ => apply orb_prop in H; destruct H as [H|H]
         | H : _ && _ = true |- _ => apply andb_prop in H; destruct H
         | H : (_ =? _) = true |- _ => apply N.eqb_eq in H
         | H : (_ <=? _) = true |- _ => apply N.leb_le in H
         end.

Lemma ws_is_no_surrogate (c : char) :
  is_ws c = true -> is_surrogate c = false.
Proof.
  intros H. unfold is_surrogate, is_high_surrogate, is_low_surrogate.
  unfold is_ws, is_line_terminator in H.
  apply orb_false_iff. split; apply andb_false_iff;
    to_props; subst;
    try (left; apply N.leb_gt; lia);
    try (left; reflexivity);
    try (right; reflexivity).
Qed.

Section WithUnicode.

Variable U : Unicode.
Hypothesis unclassified : surrogates_unclassified U.

Lemma name_char_no_surrogate (c : char) :
  name_char U c = true -> is_surrogate c = false.
Proof.
  intros H. destruct (is_surrogate c) eqn:E; [|reflexivity].
  unfold name_char in H. rewrite (unclassified c E) in H. simpl in H.
  apply orb_prop in H as [H|H].
  - apply orb_prop in H as [H|H].
    + apply ws_is_no_surrogate in H. congruence.
    + apply N.eqb_eq in H. subst c. discriminate.
  - apply N.eqb_eq in H. subst c. discriminate.
Qed.

Lemma keep_code_points_two (keep : N -> bool) (c d : char) (r : jsstring) :
  keep_code_points keep (c :: d :: r)
  = if is_high_surrogate c && is_low_surrogate d then
      if keep (code_point c d) then c :: d :: keep_code_points keep r
      else keep_code_points keep r
    else if keep c then c :: keep_code_points keep (d :: r)
    else keep_code_points keep (d :: r).
Proof. reflexivity. Qed.

Lemma keep_is_name_text_bounded (n : nat) :
  forall s, (length s <= n)%nat ->
            name_text U (keep_code_points (name_char U) s).
Proof.
  induction n as [|n IH]; intros s H.
  - destruct s; [constructor | simpl in H; lia].
  - destruct s as [|c [|d r]].
    + constructor.
    + simpl. destruct (name_char U c) eqn:E; [|constructor].
      constructor; [now apply name_char_no_surrogate | exact E | constructor].
    + rewrite keep_code_points_two.
      destruct (is_high_surrogate c && is_low_surrogate d) eqn:P.
      * apply andb_prop in P as [P1 P2].
        destruct (name_char U (code_point c d)) eqn:E.
        -- apply name_text_pair; auto. apply IH. simpl in H. lia.
        -- apply IH. simpl in H. lia.
      * destruct (name_char U c) eqn:E.
        -- apply name_text_unit; [now apply name_char_no_surrogate | exact E|].
           apply IH. simpl in *. lia.
        -- apply IH. simpl in *. lia.
Qed.

Lemma keep_is_name_text (s : jsstring) :
  name_text U (keep_code_points (name_char U) s).
Proof. now apply (keep_is_name_text_bounded (length s)). Qed.

Lemma high_is_no_ws (c : char) : is_high_surrogate c = true -> is_ws c = false.
Proof.
  intros H. destruct (is_ws c) eqn:E; [|reflexivity].
  apply ws_is_no_surrogate in E. unfold is_surrogate in E.
  now rewrite H in E.
Qed.

Lemma name_text_drop_ws (s : jsstring) :
  name_text U s -> name_text U (drop_ws s).
Proof.
  induction 1 as [|c rest Hs Hc Hrest IH|hi lo rest Hh Hl Hc Hrest _].
  - constructor.
  - simpl. destruct (is_ws c); [exact IH | now apply name_text_unit].
  - simpl. rewrite (high_is_no_ws hi Hh). now apply name_text_pair.
Qed.

(** Removing a last code unit that is white space. *)
Lemma name_text_without_last (w : char) (x : jsstring) :
  name_text U x ->
  forall s, x = s ++ [w] -> is_ws w = true -> name_text U s.
Proof.
  induction 1 as [|c rest Hs Hc Hrest IH|hi lo rest Hh Hl Hc Hrest IH];
    intros s E Hw.
  - destruct s; discriminate.
  - destruct s as [|c' s]; [constructor|].
    simpl in E. inversion E; subst.
    apply name_text_unit; [assumption | assumption | now apply IH].
  - destruct s as [|c' [|d' s]].
    + discriminate.
    + simpl in E. inversion E; subst.
      apply ws_is_no_surrogate in Hw. unfold is_surrogate in Hw.
      rewrite Hl, orb_true_r in Hw. discriminate.
    + simpl in E. inversion E; subst.
      apply name_text_pair; [assumption .. | now apply IH].
Qed.

Lemma name_text_drop_trailing (s : jsstring) :
  name_text U s -> name_text U (rev (drop_ws (rev s))).
Proof.
  induction s as [|c s IH] using rev_ind; intros H; [constructor|].
  rewrite rev_app_distr. simpl.
  destruct (is_ws c) eqn:E.
  - apply IH. now apply (name_text_without_last c (s ++ [c])).
  - simpl. now rewrite rev_involutive.
Qed.

Lemma name_text_code_points (s : jsstring) :
  name_text U s -> forallb (name_char U) (code_points s) = true.
Proof.
  induction 1 as [|c rest Hs Hc _ IH|hi lo rest Hh Hl Hc _ IH].
  - reflexivity.
  - assert (E : code_points (c :: rest) = c :: code_points rest).
    { destruct rest as [|d r]; [reflexivity|].
      cbn [code_points]. unfold is_surrogate in Hs.
      apply orb_false_iff in Hs as [Hs _]. now rewrite Hs. }
    rewrite E. simpl. now rewrite Hc, IH.
  - cbn [code_points]. rewrite Hh, Hl. simpl. now rewrite Hc, IH.
Qed.

(** X30. A sanitized name holds name characters only: read code point by
    code point, every character of the result of [cleanSpeakerName] is a
    letter, a number, white space, an apostrophe or a hyphen-minus, whatever
    the label was.  (The Unicode data give no letter or number category to
    a surrogate code unit.) *)
Theorem sanitized_name_has_name_characters_only (raw : jsstring) :
  forallb (name_char U) (code_points (cleanSpeakerName U raw)) = true.
Proof.
  apply name_text_code_points. unfold cleanSpeakerName. cbv zeta.
  unfold trim. apply name_text_drop_trailing, name_text_drop_ws.
  apply keep_is_name_text.
Qed.

End WithUnicode.

Lemma basic_latin_surrogates : surrogates_unclassified basic_latin.
Proof.
  intros c H. unfold is_surrogate, is_high_surrogate, is_low_surrogate in H.
  unfold basic_latin, uni_L, uni_N, is_upper_AZ, is_lower_az, is_digit.
  rewrite !orb_false_iff, !andb_false_iff.
  to_props; repeat split; right; apply N.leb_gt; lia.
Qed.

Lemma sanitized_name_has_name_characters_only_witness :
  forallb (name_char basic_latin)
          (code_points (cleanSpeakerName basic_latin decorated_name)) = true.
Proof.
  apply (sanitized_name_has_name_characters_only basic_latin
           basic_latin_surrogates).
Defined.

End SanitizerFacts.
